(** * SubscriptionServer (src/server.ts): the per-connection protocol engine

    A shallow embedding of the WebSocket subscription server.  The server is
    written against JavaScript promises, so the embedding carries

    - a small universe of JavaScript values ([jsval]) with the handful of
      dynamic operations the source relies on (truthiness, [typeof],
      property reads, lodash's [isObject], [Object.assign]);
    - a promise heap with reaction lists and a FIFO microtask queue, so that
      [then]/[catch] chains of the source run in the order the language
      prescribes;
    - the server's methods as computations in a state-and-exception monad,
      one definition per source function or callback;
    - an event loop: each transport event (message, close, a hook's promise
      settling, an engine publication, a send callback, a timer) runs its
      listener and then drains the microtask queue.

    Everything the server does to the outside world (frames sent, hooks and
    engine calls, close/terminate) is appended to a chronological [trace].

    A [state] describes one connection from the moment the connection
    handler has accepted it.  The constructor and the connection handler
    itself (the sub-protocol check with its 1002 closure, the keep-alive
    interval, the registration of the listeners) are modelled around it, on
    a [socket]. *)

From Stdlib Require Import ZArith String List Lia.
From stdpp Require Import base option list gmap strings fin_maps pretty.

Set Warnings "-register-all".

Open Scope Z_scope.
Open Scope string_scope.
Open Scope list_scope.

(** ** JavaScript values *)

Inductive jsval : Type :=
| JUndefined
| JNull
| JBool (b : bool)
| JNum (n : Z)
| JStr (s : string)
| JArr (items : list jsval)
| JObj (fields : list (string * jsval))
| JPromise (p : nat)            (* a native promise, by its address in the promise heap *)
| JCallback (subId : jsval).    (* the closure installed as [params.callback]; it captures [subId] *)

(** Outcome of evaluating a piece of JavaScript: a value, or a thrown value. *)
Inductive completion (A : Type) : Type :=
| Normal (a : A)
| Thrown (e : jsval).
Arguments Normal {A} a.
Arguments Thrown {A} e.

(** [new Error(message)]: an object whose [message] property is the text. *)
Definition Error (message : string) : jsval := JObj [("message", JStr message)].

Definition TypeError (message : string) : jsval := Error message.

(** ToBoolean. *)
Definition truthy (v : jsval) : bool :=
  match v with
  | JUndefined | JNull => false
  | JBool b => b
  | JNum n => negb (Z.eqb n 0)
  | JStr s => negb (String.eqb s "")
  | JArr _ | JObj _ | JPromise _ | JCallback _ => true
  end.

(** The [typeof] operator. *)
Definition typeof (v : jsval) : string :=
  match v with
  | JUndefined => "undefined"
  | JNull => "object"
  | JBool _ => "boolean"
  | JNum _ => "number"
  | JStr _ => "string"
  | JArr _ | JObj _ | JPromise _ => "object"
  | JCallback _ => "function"
  end.

(** lodash.isobject: [value != null && (typeof value == 'object' || typeof value == 'function')]. *)
Definition isObject (v : jsval) : bool :=
  match v with
  | JArr _ | JObj _ | JPromise _ | JCallback _ => true
  | _ => false
  end.

Fixpoint assoc (k : string) (fields : list (string * jsval)) : option jsval :=
  match fields with
  | [] => None
  | (k', v) :: rest => if String.eqb k k' then Some v else assoc k rest
  end.

(** Property read [v.k].  Reading a property of [undefined] or [null] throws
    a TypeError; a missing property reads as [undefined].  The source only
    reads [id], [type], [payload], [query], [variables], [operationName],
    [message] and [errors], none of which exists on a primitive, an array,
    a promise or a function. *)
Definition get (v : jsval) (k : string) : completion jsval :=
  match v with
  | JUndefined | JNull => Thrown (TypeError "Cannot read properties of undefined or null")
  | JObj fields => Normal (default JUndefined (assoc k fields))
  | _ => Normal JUndefined
  end.

Fixpoint set_field (k : string) (v : jsval) (fields : list (string * jsval))
  : list (string * jsval) :=
  match fields with
  | [] => [(k, v)]
  | (k', v') :: rest =>
      if String.eqb k k' then (k, v) :: rest else (k', v') :: set_field k v rest
  end.

(** Own enumerable properties, as [Object.assign] copies them. *)
Definition own_properties (v : jsval) : list (string * jsval) :=
  match v with
  | JObj fields => fields
  | JArr items => imap (fun i x => (pretty i, x)) items
  | _ => []
  end.

(** [Object.assign({}, source)]. *)
Definition Object_assign_empty (source : jsval) : jsval := JObj (own_properties source).

(** Property write [target.k = v], for a [target] whose [typeof] is
    ["object"]: writing to [null] throws; an array keeps its elements as
    index-named properties next to the new one. *)
Definition set_property (target : jsval) (k : string) (v : jsval) : completion jsval :=
  match target with
  | JUndefined | JNull => Thrown (TypeError "Cannot set properties of undefined or null")
  | JObj fields => Normal (JObj (set_field k v fields))
  | JArr items => Normal (JObj (set_field k v (own_properties (JArr items))))
  | other => Normal other
  end.

(** ToPropertyKey: the string under which [connectionSubscriptions[subId]]
    is stored.  [SubscribeMessage] declares [id: string], but the value is
    whatever the frame carried. *)
Fixpoint to_key (v : jsval) : string :=
  match v with
  | JUndefined => "undefined"
  | JNull => "null"
  | JBool true => "true"
  | JBool false => "false"
  | JNum n => pretty n
  | JStr s => s
  | JArr items =>
      String.concat ","
        (map (fun x => match x with JUndefined | JNull => "" | _ => to_key x end) items)
  | JObj _ => "[object Object]"
  | JPromise _ => "[object Promise]"
  | JCallback _ => "function"
  end.

(** ** Message types

    Modelled from the spec: [messageTypes.ts] is not among the sources; the
    nine wire kinds of the spec's interface table stand for its constants.
    The server only compares them for equality. *)

Definition SUBSCRIPTION_FAIL : string := "subscription-error".
Definition SUBSCRIPTION_DATA : string := "subscription-data".
Definition SUBSCRIPTION_START : string := "subscription-start".
Definition SUBSCRIPTION_END : string := "subscription-end".
Definition SUBSCRIPTION_SUCCESS : string := "subscription-success".
Definition KEEPALIVE : string := "keepalive".
Definition INIT : string := "handshake-init".
Definition INIT_FAIL : string := "handshake-error".
Definition INIT_SUCCESS : string := "handshake-ack".

(** ** Promises, jobs and the connection state *)

(** The functions the source passes to [then] and [catch], one constructor
    per arrow function of [onMessage], together with what each closure
    captures; [ResolveFunction]/[RejectFunction] are the resolving functions
    the language passes to [thenable.then] when one promise adopts another. *)
Inductive handler : Type :=
| InitThen                                   (* (result) => { if (result === false) throw ...; return {type: INIT_SUCCESS} } *)
| InitCatch                                  (* (error) => ({type: INIT_FAIL, payload: {error: error.message}}) *)
| InitSend                                   (* (resultMessage) => { this.sendInitResult(connection, resultMessage) } *)
| StartThen (parsedMessage subId : jsval)    (* (initResult) => { ... } of SUBSCRIPTION_START *)
| ParamsThen (subId : jsval)                 (* params => { ...; return this.subscriptionManager.subscribe(params) } *)
| SubscribedThen (subId : jsval)             (* (graphqlSubId) => { connectionSubscriptions[subId] = graphqlSubId; ... } *)
| StartCatch (subId : jsval)                 (* e => { this.sendSubscriptionFail(...) } *)
| EndThen (subId : jsval)                    (* () => { ... } of SUBSCRIPTION_END *)
| ResolveFunction (p : nat)
| RejectFunction (p : nat).

(** One [then] registration: the two optional callbacks and the promise
    [then] returned. *)
Record reaction : Type := Reaction {
  on_fulfilled : option handler;
  on_rejected : option handler;
  derived : nat;
}.

(** A promise is pending (with its waiting reactions and the flag of its
    resolving functions: [resolved] is set once [resolve] or [reject] has
    been called), fulfilled or rejected. *)
Inductive pstate : Type :=
| Pending (resolved : bool) (reactions : list reaction)
| Fulfilled (v : jsval)
| Rejected (e : jsval).

Inductive job : Type :=
| ReactionJob (r : reaction) (outcome : completion jsval)   (* PromiseReactionJob *)
| ThenableJob (target thenable : nat).                      (* NewPromiseResolveThenableJob *)

(** What the server does to its collaborators, in the order it does it. *)
Inductive effect : Type :=
| Send (message : jsval)                          (* connection.send(JSON.stringify(message)) *)
| Close (code : Z)                                (* connection.close(code) *)
| Terminate                                       (* connection.terminate() *)
| SetTimeout (ms : Z)                             (* setTimeout(..., ms) *)
| CallOnConnect (payload : jsval)                 (* this.onConnect(payload, connection) *)
| CallOnSubscribe (parsedMessage baseParams : jsval)  (* this.onSubscribe(parsedMessage, baseParams, connection) *)
| CallOnUnsubscribe                               (* this.onUnsubscribe(connection) *)
| CallOnDisconnect                                (* this.onDisconnect(connection) *)
| EngineSubscribe (params : jsval)                (* this.subscriptionManager.subscribe(params) *)
| EngineUnsubscribe (handleId : jsval)            (* this.subscriptionManager.unsubscribe(handleId) *)
| Uncaught (e : jsval).                           (* an exception escaping an event listener *)

(** The state of one accepted connection: the promise heap and microtask
    queue of the JavaScript realm, and the closure variables of the
    connection handler. *)
Record state : Type := State {
  heap : gmap nat pstate;
  next : nat;                                     (* next free promise address *)
  externals : gset nat;                           (* promises handed out by a hook or by the engine *)
  queue : list job;                               (* microtask queue, oldest first *)
  connectionSubscriptions : gmap string jsval;    (* ConnectionSubscriptions *)
  sendCallbacks : list jsval;                     (* callbacks of [connection.send(data, cb)] not yet invoked, by captured [result] *)
  timers : nat;                                   (* pending [setTimeout] closures of sendInitResult *)
  trace : list effect;
}.

Definition set_heap (f : gmap nat pstate -> gmap nat pstate) (s : state) : state :=
  State (f (heap s)) (next s) (externals s) (queue s) (connectionSubscriptions s)
        (sendCallbacks s) (timers s) (trace s).
Definition set_next (n : nat) (s : state) : state :=
  State (heap s) n (externals s) (queue s) (connectionSubscriptions s)
        (sendCallbacks s) (timers s) (trace s).
Definition set_externals (f : gset nat -> gset nat) (s : state) : state :=
  State (heap s) (next s) (f (externals s)) (queue s) (connectionSubscriptions s)
        (sendCallbacks s) (timers s) (trace s).
Definition set_queue (q : list job) (s : state) : state :=
  State (heap s) (next s) (externals s) q (connectionSubscriptions s)
        (sendCallbacks s) (timers s) (trace s).
Definition set_connectionSubscriptions (f : gmap string jsval -> gmap string jsval)
  (s : state) : state :=
  State (heap s) (next s) (externals s) (queue s) (f (connectionSubscriptions s))
        (sendCallbacks s) (timers s) (trace s).
Definition set_sendCallbacks (l : list jsval) (s : state) : state :=
  State (heap s) (next s) (externals s) (queue s) (connectionSubscriptions s)
        l (timers s) (trace s).
Definition set_timers (n : nat) (s : state) : state :=
  State (heap s) (next s) (externals s) (queue s) (connectionSubscriptions s)
        (sendCallbacks s) n (trace s).
Definition set_trace (t : list effect) (s : state) : state :=
  State (heap s) (next s) (externals s) (queue s) (connectionSubscriptions s)
        (sendCallbacks s) (timers s) t.

(** ** The monad of listener and callback bodies: state plus exceptions *)

Definition M (A : Type) : Type := state -> completion A * state.

#[global] Instance M_ret : MRet M := fun A a s => (Normal a, s).
#[global] Instance M_bind : MBind M := fun A B f m s =>
  match m s with
  | (Normal a, s') => f a s'
  | (Thrown e, s') => (Thrown e, s')
  end.

Definition throw {A : Type} (e : jsval) : M A := fun s => (Thrown e, s).

Definition lift {A : Type} (c : completion A) : M A := fun s => (c, s).

(** [try { body } catch (e) { handler e }]: what [body] did before throwing stays done. *)
Definition try_catch {A : Type} (body : M A) (handler : jsval -> M A) : M A := fun s =>
  match body s with
  | (Normal a, s') => (Normal a, s')
  | (Thrown e, s') => handler e s'
  end.

Definition modify (f : state -> state) : M unit := fun s => (Normal tt, f s).

Definition emit (e : effect) : M unit := modify (fun s => set_trace (trace s ++ [e]) s).

Definition when (b : bool) (m : M unit) : M unit := if b then m else mret tt.

(** ** Promise operations *)

Definition enqueue (js : list job) (s : state) : state := set_queue (queue s ++ js) s.

Definition settled_state (o : completion jsval) : pstate :=
  match o with
  | Normal v => Fulfilled v
  | Thrown e => Rejected e
  end.

(** Allocate a promise in the given state and return its address. *)
Definition new_promise (st : pstate) : M nat := fun s =>
  (Normal (next s), set_next (S (next s)) (set_heap (insert (next s) st) s)).

(** FulfillPromise / RejectPromise: settle a pending promise and schedule
    one reaction job per waiting reaction. *)
Definition settle (p : nat) (o : completion jsval) (s : state) : state :=
  match heap s !! p with
  | Some (Pending _ rs) =>
      enqueue (map (fun r => ReactionJob r o) rs) (set_heap (insert p (settled_state o)) s)
  | _ => s
  end.

(** The body of a promise resolve function: a promise argument is adopted
    through a NewPromiseResolveThenableJob, anything else fulfils. *)
Definition resolve_with (p : nat) (v : jsval) (s : state) : state :=
  match v with
  | JPromise q =>
      match heap s !! p with
      | Some (Pending _ rs) =>
          enqueue [ThenableJob p q] (set_heap (insert p (Pending true rs)) s)
      | _ => s
      end
  | _ => settle p (Normal v) s
  end.

(** The [resolve] and [reject] functions a promise hands to its executor
    (and to [then] for a derived promise): they share one already-resolved
    flag, and only the first call of either has an effect. *)
Definition resolve_function (p : nat) (v : jsval) (s : state) : state :=
  match heap s !! p with
  | Some (Pending false _) => resolve_with p v s
  | _ => s
  end.

Definition reject_function (p : nat) (e : jsval) (s : state) : state :=
  match heap s !! p with
  | Some (Pending false _) => settle p (Thrown e) s
  | _ => s
  end.

(** [p.then(onFulfilled, onRejected)]: a new derived promise; the reaction
    waits on a pending [p] and is queued at once on a settled one. *)
Definition then_ (p : nat) (onFulfilled onRejected : option handler) : M nat := fun s =>
  let d := next s in
  let r := Reaction onFulfilled onRejected d in
  let s1 := set_next (S d) (set_heap (insert d (Pending false [])) s) in
  (Normal d,
   match heap s !! p with
   | Some (Pending b rs) => set_heap (insert p (Pending b (rs ++ [r]))) s1
   | Some (Fulfilled v) => enqueue [ReactionJob r (Normal v)] s1
   | Some (Rejected e) => enqueue [ReactionJob r (Thrown e)] s1
   | None => s1
   end).

(** [p.catch(onRejected)] is [p.then(undefined, onRejected)]. *)
Definition catch_ (p : nat) (onRejected : handler) : M nat := then_ p None (Some onRejected).

(** [Promise.resolve(v)]: a native promise is returned as it is. *)
Definition Promise_resolve (v : jsval) : M nat :=
  match v with
  | JPromise q => mret q
  | _ => new_promise (Fulfilled v)
  end.

(** ** The server's collaborators *)

(** What a call into application code (a hook, or the engine's [subscribe])
    does: return a plain value, throw, or return a promise that is already
    settled ([Some]) or still pending ([None]; the environment settles it
    later with an [EvSettle] event). *)
Inductive call_result : Type :=
| Returns (v : jsval)
| Throws (e : jsval)
| ReturnsPromise (settled : option (completion jsval)).

Definition call (r : call_result) : M jsval :=
  match r with
  | Returns v => mret v
  | Throws e => throw e
  | ReturnsPromise None =>
      p ← new_promise (Pending false []);
      modify (set_externals (union {[p]}));;
      mret (JPromise p)
  | ReturnsPromise (Some o) =>
      p ← new_promise (settled_state o);
      mret (JPromise p)
  end.

(** [ServerOptions] as the constructor stores them on [this].  The
    connection argument of the hooks is left out: a state describes a single
    connection.  [onUnsubscribe] and [onDisconnect] return nothing, so only
    their presence is recorded; [subscribe] is the engine's
    [subscriptionManager.subscribe]. *)
Record SubscriptionServer : Type := {
  subscribe : jsval -> call_result;
  onSubscribe : option (jsval -> jsval -> call_result);
  onUnsubscribe : bool;
  onConnect : option (jsval -> call_result);
  onDisconnect : bool;
}.

(** An incoming frame, by what [JSON.parse(message, this.jsonReviver)] makes
    of it: a SyntaxError with its message text, or the decoded value. *)
Inductive raw_message : Type :=
| Malformed (text : string)
| WellFormed (v : jsval).

Definition JSON_parse (message : raw_message) : completion jsval :=
  match message with
  | Malformed text => Thrown (Error text)
  | WellFormed v => Normal v
  end.

(** [connectionContext.initPromise]: the first promise of the connection,
    created when [onMessage] builds the listener. *)
Definition initPromise : nat := 0%nat.

(** [v === s] for a string constant [s]. *)
Definition is_string (s : string) (v : jsval) : bool :=
  match v with
  | JStr s' => String.eqb s' s
  | _ => false
  end.

(** [v === false]. *)
Definition is_false (v : jsval) : bool :=
  match v with
  | JBool false => true
  | _ => false
  end.

(** ** The server (class SubscriptionServer) *)

Section Server.

Context (this : SubscriptionServer).

(** [connectionSubscriptions[key]]: a missing property reads as [undefined]. *)
Definition subscriptions_get (key : string) : M jsval := fun s =>
  (Normal (default JUndefined (connectionSubscriptions s !! key)), s).

(** [connectionSubscriptions[key] = v]. *)
Definition subscriptions_set (key : string) (v : jsval) : M unit :=
  modify (set_connectionSubscriptions (insert key v)).

(** [delete connectionSubscriptions[key]]. *)
Definition subscriptions_delete (key : string) : M unit :=
  modify (set_connectionSubscriptions (delete key)).

(** [Object.keys(connectionSubscriptions)], in the enumeration order of the
    finite map. *)
Definition subscriptions_keys : M (list string) := fun s =>
  (Normal (map fst (map_to_list (connectionSubscriptions s))), s).

Fixpoint forEach {A : Type} (l : list A) (f : A -> M unit) : M unit :=
  match l with
  | [] => mret tt
  | x :: rest => f x;; forEach rest f
  end.

(** private unsubscribe(connection, handleId) *)
Definition unsubscribe (handleId : jsval) : M unit :=
  emit (EngineUnsubscribe handleId);;
  when (onUnsubscribe this) (emit CallOnUnsubscribe).

(** private onClose(connection, connectionSubscriptions): the returned thunk. *)
Definition onClose : M unit :=
  keys ← subscriptions_keys;
  forEach keys (fun subId =>
    handleId ← subscriptions_get subId;
    unsubscribe handleId;;
    subscriptions_delete subId).

(** private sendSubscriptionData(connection, subId, payload) *)
Definition sendSubscriptionData (subId payload : jsval) : M unit :=
  emit (Send (JObj [("type", JStr SUBSCRIPTION_DATA); ("id", subId); ("payload", payload)])).

(** private sendSubscriptionFail(connection, subId, payload) *)
Definition sendSubscriptionFail (subId payload : jsval) : M unit :=
  emit (Send (JObj [("type", JStr SUBSCRIPTION_FAIL); ("id", subId); ("payload", payload)])).

(** private sendSubscriptionSuccess(connection, subId) *)
Definition sendSubscriptionSuccess (subId : jsval) : M unit :=
  emit (Send (JObj [("type", JStr SUBSCRIPTION_SUCCESS); ("id", subId)])).

(** private sendInitResult(connection, result): the frame is sent and the
    callback waits for the transport to report the write. *)
Definition sendInitResult (result : jsval) : M unit :=
  emit (Send result);;
  modify (fun s => set_sendCallbacks (sendCallbacks s ++ [result]) s).

(** The callback [sendInitResult] passes to [connection.send]. *)
Definition sendInitResult_sent (result : jsval) : M unit :=
  type ← lift (get result "type");
  when (is_string INIT_FAIL type)
    (emit (SetTimeout 10);;
     modify (fun s => set_timers (S (timers s)) s)).

(** The closure [sendInitResult] passes to [setTimeout]. *)
Definition sendInitResult_timeout : M unit :=
  emit (Close 1011);;
  emit Terminate.

(** private sendKeepAlive(connection) *)
Definition sendKeepAlive : M unit :=
  emit (Send (JObj [("type", JStr KEEPALIVE)])).

(** [{errors: [{message: m}]}] *)
Definition errors_of_message (m : jsval) : jsval :=
  JObj [("errors", JArr [JObj [("message", m)]])].

(** [params.callback = (error, result) => { ... }] *)
Definition callback (subId error result : jsval) : M unit :=
  if negb (truthy error) then
    sendSubscriptionData subId result
  else
    errors ← lift (get error "errors");
    if truthy errors then
      sendSubscriptionData subId (JObj [("errors", errors)])
    else
      message ← lift (get error "message");
      sendSubscriptionData subId (errors_of_message message).

(** *** The continuations of the INIT case *)

Definition init_then (result : jsval) : M jsval :=
  if is_false result then throw (Error "Prohibited connection!")
  else mret (JObj [("type", JStr INIT_SUCCESS)]).

Definition init_catch (error : jsval) : M jsval :=
  message ← lift (get error "message");
  mret (JObj [("type", JStr INIT_FAIL); ("payload", JObj [("error", message)])]).

Definition init_send (resultMessage : jsval) : M jsval :=
  sendInitResult resultMessage;;
  mret JUndefined.

(** *** The continuations of the SUBSCRIPTION_START case *)

Definition invalid_params : string :=
  "Invalid params returned from onSubscribe! return values must be an object!".

Definition start_then (parsedMessage subId initResult : jsval) : M jsval :=
  query ← lift (get parsedMessage "query");
  variables ← lift (get parsedMessage "variables");
  operationName ← lift (get parsedMessage "operationName");
  let baseParams :=
    JObj [("query", query);
          ("variables", variables);
          ("operationName", operationName);
          ("context", Object_assign_empty (if isObject initResult then initResult else JObj []));
          ("formatResponse", JUndefined);
          ("formatError", JUndefined);
          ("callback", JUndefined)] in
  promisedParams0 ← Promise_resolve baseParams;
  promisedParams ←
    match onSubscribe this with
    | Some hook =>
        emit (CallOnSubscribe parsedMessage baseParams);;
        returned ← call (hook parsedMessage baseParams);
        Promise_resolve returned
    | None => mret promisedParams0
    end;
  (* if we already have a subscription with this id, unsubscribe from it first *)
  existing ← subscriptions_get (to_key subId);
  when (truthy existing)
    (unsubscribe existing;;
     subscriptions_delete (to_key subId));;
  p1 ← then_ promisedParams (Some (ParamsThen subId)) None;
  p2 ← then_ p1 (Some (SubscribedThen subId)) None;
  _ ← catch_ p2 (StartCatch subId);
  mret JUndefined.

Definition params_then (subId params : jsval) : M jsval :=
  if negb (String.eqb (typeof params) "object") then
    sendSubscriptionFail subId (errors_of_message (JStr invalid_params));;
    throw (Error invalid_params)
  else
    params' ← lift (set_property params "callback" (JCallback subId));
    emit (EngineSubscribe params');;
    call (subscribe this params').

Definition subscribed_then (subId graphqlSubId : jsval) : M jsval :=
  subscriptions_set (to_key subId) graphqlSubId;;
  sendSubscriptionSuccess subId;;
  mret JUndefined.

Definition start_catch (subId e : jsval) : M jsval :=
  errors ← lift (get e "errors");
  (if truthy errors then
     sendSubscriptionFail subId (JObj [("errors", errors)])
   else
     message ← lift (get e "message");
     sendSubscriptionFail subId (errors_of_message message));;
  mret JUndefined.

(** *** The continuation of the SUBSCRIPTION_END case *)

Definition end_then (subId : jsval) : M jsval :=
  existing ← subscriptions_get (to_key subId);
  when (negb (String.eqb (typeof existing) "undefined"))
    (unsubscribe existing;;
     subscriptions_delete (to_key subId));;
  mret JUndefined.

(** *** private onMessage(connection, connectionSubscriptions, connectionContext):
    the returned listener *)

Definition case_INIT (parsedMessage : jsval) : M unit :=
  onConnectPromise0 ← Promise_resolve (JBool true);
  onConnectPromise ←
    match onConnect this with
    | Some hook =>
        p ← new_promise (Pending false []);
        try_catch
          (payload ← lift (get parsedMessage "payload");
           emit (CallOnConnect payload);;
           returned ← call (hook payload);
           modify (resolve_function p returned))
          (fun e => modify (reject_function p e));;
        mret p
    | None => mret onConnectPromise0
    end;
  (* onInitResolve(onConnectPromise) *)
  modify (resolve_function initPromise (JPromise onConnectPromise));;
  p1 ← then_ initPromise (Some InitThen) None;
  p2 ← catch_ p1 InitCatch;
  _ ← then_ p2 (Some InitSend) None;
  mret tt.

Definition case_SUBSCRIPTION_START (parsedMessage subId : jsval) : M unit :=
  _ ← then_ initPromise (Some (StartThen parsedMessage subId)) None;
  mret tt.

Definition case_SUBSCRIPTION_END (subId : jsval) : M unit :=
  _ ← then_ initPromise (Some (EndThen subId)) None;
  mret tt.

Definition case_default (subId : jsval) : M unit :=
  sendSubscriptionFail subId (errors_of_message (JStr "Invalid message type!")).

Definition onMessage (message : raw_message) : M unit :=
  match JSON_parse message with
  | Thrown e =>
      text ← lift (get e "message");
      sendSubscriptionFail JNull (errors_of_message text)
  | Normal parsedMessage =>
      subId ← lift (get parsedMessage "id");
      type ← lift (get parsedMessage "type");
      if is_string INIT type then case_INIT parsedMessage
      else if is_string SUBSCRIPTION_START type then case_SUBSCRIPTION_START parsedMessage subId
      else if is_string SUBSCRIPTION_END type then case_SUBSCRIPTION_END subId
      else case_default subId
  end.

(** ** The event loop *)

Definition run_handler (h : handler) (arg : jsval) : M jsval :=
  match h with
  | InitThen => init_then arg
  | InitCatch => init_catch arg
  | InitSend => init_send arg
  | StartThen parsedMessage subId => start_then parsedMessage subId arg
  | ParamsThen subId => params_then subId arg
  | SubscribedThen subId => subscribed_then subId arg
  | StartCatch subId => start_catch subId arg
  | EndThen subId => end_then subId
  | ResolveFunction p => modify (resolve_with p arg);; mret JUndefined
  | RejectFunction p => modify (settle p (Thrown arg));; mret JUndefined
  end.

Definition selected_handler (r : reaction) (o : completion jsval) : option handler :=
  match o with
  | Normal _ => on_fulfilled r
  | Thrown _ => on_rejected r
  end.

Definition settled_value (o : completion jsval) : jsval :=
  match o with
  | Normal v => v
  | Thrown e => e
  end.

(** One microtask.  A reaction with a callback runs it and resolves the
    derived promise with what it returned, or rejects it with what it threw;
    a reaction without one passes the settlement through.  A thenable job
    calls [thenable.then] with fresh resolving functions of the target. *)
Definition run_job (j : job) (s : state) : state :=
  match j with
  | ReactionJob r o =>
      match selected_handler r o with
      | Some h =>
          match run_handler h (settled_value o) s with
          | (Normal v, s') => resolve_function (derived r) v s'
          | (Thrown e, s') => reject_function (derived r) e s'
          end
      | None => settle (derived r) o s
      end
  | ThenableJob target thenable =>
      snd (then_ thenable (Some (ResolveFunction target)) (Some (RejectFunction target)) s)
  end.

(** Drain the microtask queue, oldest job first; [fuel] bounds the number of
    jobs run. *)
Fixpoint run_microtasks (fuel : nat) (s : state) : state :=
  match fuel with
  | O => s
  | S fuel' =>
      match queue s with
      | [] => s
      | j :: rest => run_microtasks fuel' (run_job j (set_queue rest s))
      end
  end.

(** What can happen to a connection from outside. *)
Inductive event : Type :=
| EvMessage (message : raw_message)            (* the socket's 'message' event *)
| EvClose                                      (* the socket's 'close' event *)
| EvSettle (p : nat) (o : completion jsval)    (* application code settles a promise it returned *)
| EvPublish (subId error result : jsval)       (* the engine invokes the callback of a subscription *)
| EvSent                                       (* the transport reports the oldest pending send as written *)
| EvTimeout.                                   (* the oldest pending timer fires *)

(** Run a listener body; an exception it lets escape is recorded. *)
Definition exec (m : M unit) (s : state) : state :=
  match m s with
  | (Normal _, s') => s'
  | (Thrown e, s') => set_trace (trace s' ++ [Uncaught e]) s'
  end.

(** The synchronous part of an event: the listener the server registered
    for it. *)
Definition listener (ev : event) (s : state) : state :=
  match ev with
  | EvMessage message => exec (onMessage message) s
  | EvClose => exec (onClose;; when (onDisconnect this) (emit CallOnDisconnect)) s
  | EvSettle p o =>
      if bool_decide (p ∈ externals s) then
        match o with
        | Normal v => resolve_function p v s
        | Thrown e => reject_function p e s
        end
      else s
  | EvPublish subId error result => exec (callback subId error result) s
  | EvSent =>
      match sendCallbacks s with
      | [] => s
      | result :: rest => exec (sendInitResult_sent result) (set_sendCallbacks rest s)
      end
  | EvTimeout =>
      match timers s with
      | O => s
      | S n => exec sendInitResult_timeout (set_timers n s)
      end
  end.

(** One turn of the event loop: the listener, then the microtasks it left. *)
Definition step (fuel : nat) (ev : event) (s : state) : state :=
  run_microtasks fuel (listener ev s).

Fixpoint run (fuel : nat) (evs : list event) (s : state) : state :=
  match evs with
  | [] => s
  | ev :: rest => run fuel rest (step fuel ev s)
  end.

End Server.

(** The state in which the connection handler leaves a freshly accepted
    connection (sub-protocol accepted, no keep-alive timer): empty
    [connectionSubscriptions], and [initPromise] pending. *)
Definition initial : state :=
  State {[ initPromise := Pending false [] ]} 1 ∅ [] ∅ [] 0 [].

(** No microtask is left to run. *)
Definition quiescent (s : state) : Prop := queue s = [].

(** ** The constructor and the connection handler *)

(** [ServerOptions], as the constructor destructures them.  A missing
    [subscriptionManager] is [None]; [keepAlive] is the value the caller
    passed ([undefined] when unset); [jsonReviver] is part of what
    [JSON_parse] makes of a frame. *)
Module ServerOptions.
Record t : Type := {
  subscriptionManager : option (jsval -> call_result);
  onSubscribe : option (jsval -> jsval -> call_result);
  onUnsubscribe : bool;
  onConnect : option (jsval -> call_result);
  onDisconnect : bool;
  keepAlive : jsval;
}.
End ServerOptions.

(** constructor(options, socketOptions): the fields stored on [this]; the
    connection handler it registers is [connection_handler] below. *)
Definition constructor (options : ServerOptions.t) : completion SubscriptionServer :=
  match ServerOptions.subscriptionManager options with
  | None =>
      Thrown (Error "Must provide `subscriptionManager` to websocket server constructor.")
  | Some manager =>
      Normal {| subscribe := manager;
                onSubscribe := ServerOptions.onSubscribe options;
                onUnsubscribe := ServerOptions.onUnsubscribe options;
                onConnect := ServerOptions.onConnect options;
                onDisconnect := ServerOptions.onDisconnect options |}
  end.

(** [WebSocket.readyState]. *)
Inductive readyState : Type := CONNECTING | OPEN | CLOSING | CLOSED.

Definition is_OPEN (rs : readyState) : bool :=
  match rs with
  | OPEN => true
  | _ => false
  end.

(** [s.indexOf(searchString)]: the position of the first occurrence, or -1. *)
Definition indexOf (s searchString : string) : Z :=
  match String.index 0 searchString s with
  | Some i => Z.of_nat i
  | None => -1
  end.

(** One socket handed to the connection handler: whether the handler
    registered its 'message' and 'close' listeners on it, the keep-alive
    interval it started (with its period) as long as that interval is live,
    and the state the listeners share. *)
Record socket : Type := Socket {
  listening : bool;
  keepAliveTimer : option jsval;
  connection : state;
}.

(** A socket the handler has not touched yet: nothing allocated, nothing
    done. *)
Definition blank : state := State ∅ 0 ∅ [] ∅ [] 0 [].

(** The first statement of [onMessage], run once when the handler builds the
    listener: [connectionContext.initPromise = new Promise(...)]. *)
Definition onMessage_setup : M unit :=
  _ ← new_promise (Pending false []);
  mret tt.

(** The callback of the keep-alive interval. *)
Definition keepAlive_tick (observed : readyState) (k : socket) : socket :=
  match keepAliveTimer k with
  | None => k
  | Some period =>
      if is_OPEN observed
      then Socket (listening k) (Some period) (exec sendKeepAlive (connection k))
      else Socket (listening k) None (connection k)      (* clearInterval(keepAliveTimer) *)
  end.

Section Connection.

(** The sub-protocol name ([protocols.ts] is not among the sources; the
    handler only searches for it), the [keepAlive] option the handler closes
    over, and the server. *)
Context (GRAPHQL_SUBSCRIPTIONS : string) (keepAlive : jsval) (this : SubscriptionServer).

(** [request.protocol === undefined || request.protocol.indexOf(GRAPHQL_SUBSCRIPTIONS) === -1] *)
Definition unsupported (protocol : option string) : bool :=
  match protocol with
  | None => true
  | Some p => Z.eqb (indexOf p GRAPHQL_SUBSCRIPTIONS) (-1)
  end.

(** this.wsServer.on('connection', (request) => { ... }) *)
Definition connection_handler (protocol : option string) : socket :=
  if unsupported protocol then
    Socket false None (exec (emit (Close 1002);; emit Terminate) blank)
  else
    Socket true (if truthy keepAlive then Some keepAlive else None)
           (exec onMessage_setup blank).

(** What can happen to a socket: an event of the connection's loop, or a
    tick of the keep-alive interval, at which the callback observes
    [request.readyState]. *)
Inductive socket_event : Type :=
| Loop (ev : event)
| Interval (observed : readyState).

(** 'message' and 'close' reach the server only through the listeners the
    handler registered. *)
Definition needs_listener (ev : event) : bool :=
  match ev with
  | EvMessage _ | EvClose => true
  | _ => false
  end.

Definition socket_step (fuel : nat) (ev : socket_event) (k : socket) : socket :=
  match ev with
  | Loop ev =>
      if needs_listener ev && negb (listening k) then k
      else Socket (listening k) (keepAliveTimer k) (step this fuel ev (connection k))
  | Interval observed => keepAlive_tick observed k
  end.

Fixpoint socket_run (fuel : nat) (evs : list socket_event) (k : socket) : socket :=
  match evs with
  | [] => k
  | ev :: rest => socket_run fuel rest (socket_step fuel ev k)
  end.

End Connection.
(** * Vocabulary of the statements *)

(** ** Frames *)

(** The [type] a well-formed frame carries is the given constant. *)
Definition message_has_type (type : string) (m : raw_message) : bool :=
  match m with
  | WellFormed v =>
      match get v "type" with
      | Normal t => is_string type t
      | Thrown _ => false
      end
  | Malformed _ => false
  end.

(** The decoded value of a well-formed frame. *)
Definition message_value (m : raw_message) : jsval :=
  match m with
  | WellFormed v => v
  | Malformed _ => JUndefined
  end.

(** [v.k] when the read does not throw. *)
Definition property (v : jsval) (k : string) : jsval :=
  match get v k with
  | Normal x => x
  | Thrown _ => JUndefined
  end.

(** [parsedMessage.id] of a well-formed frame. *)
Definition message_id (m : raw_message) : jsval :=
  match m with
  | WellFormed v =>
      match get v "id" with
      | Normal subId => subId
      | Thrown _ => JUndefined
      end
  | Malformed _ => JUndefined
  end.

(** A subscription-start or subscription-end frame. *)
Definition is_subscription_message (m : raw_message) : bool :=
  message_has_type SUBSCRIPTION_START m || message_has_type SUBSCRIPTION_END m.

Definition is_malformed (m : raw_message) : bool :=
  match m with
  | Malformed _ => true
  | WellFormed _ => false
  end.

(** A well-formed frame whose [type] is none of the three the listener
    knows. *)
Definition has_unrecognized_type (m : raw_message) : bool :=
  match m with
  | WellFormed v =>
      match get v "type" with
      | Normal t =>
          negb (is_string INIT t || is_string SUBSCRIPTION_START t
                || is_string SUBSCRIPTION_END t)
      | Thrown _ => false
      end
  | Malformed _ => false
  end.

(** The frames the server sends, as the [send*] methods build them. *)
Definition subscription_fail_frame (subId payload : jsval) : jsval :=
  JObj [("type", JStr SUBSCRIPTION_FAIL); ("id", subId); ("payload", payload)].

Definition subscription_data_frame (subId payload : jsval) : jsval :=
  JObj [("type", JStr SUBSCRIPTION_DATA); ("id", subId); ("payload", payload)].

Definition subscription_success_frame (subId : jsval) : jsval :=
  JObj [("type", JStr SUBSCRIPTION_SUCCESS); ("id", subId)].

Definition init_success_frame : jsval := JObj [("type", JStr INIT_SUCCESS)].

Definition init_fail_frame (message : jsval) : jsval :=
  JObj [("type", JStr INIT_FAIL); ("payload", JObj [("error", message)])].

(** The frame both failure paths of an invalid [onSubscribe] result send. *)
Definition invalid_params_frame (subId : jsval) : jsval :=
  subscription_fail_frame subId (errors_of_message (JStr invalid_params)).

(** The [baseParams] object the start continuation builds from the frame
    and from the handshake's result. *)
Definition base_params (parsedMessage initResult : jsval) : jsval :=
  JObj [("query", property parsedMessage "query");
        ("variables", property parsedMessage "variables");
        ("operationName", property parsedMessage "operationName");
        ("context", Object_assign_empty (if isObject initResult then initResult else JObj []));
        ("formatResponse", JUndefined);
        ("formatError", JUndefined);
        ("callback", JUndefined)].

(** The params object the engine's [subscribe] receives for a start frame
    when no hook intervenes: the base params with the delivery callback
    installed. *)
Definition start_params (m : raw_message) (initResult : jsval) : jsval :=
  match set_property (base_params (message_value m) initResult) "callback"
          (JCallback (message_id m)) with
  | Normal params => params
  | Thrown _ => JUndefined
  end.

(** ** States *)

(** The three states of the handshake's settled value. *)
Definition handshake_pending (s : state) : Prop :=
  exists b rs, heap s !! initPromise = Some (Pending b rs).

Definition handshake_fulfilled (s : state) (v : jsval) : Prop :=
  heap s !! initPromise = Some (Fulfilled v).

Definition handshake_rejected (s : state) : Prop :=
  exists e, heap s !! initPromise = Some (Rejected e).

(** [connectionSubscriptions[subId]] as the continuations read it. *)
Definition registered (s : state) (subId : jsval) : jsval :=
  default JUndefined (connectionSubscriptions s !! to_key subId).

(** The states a connection can be in: the freshly accepted connection, and
    whatever a turn of the event loop makes of a reachable state. *)
Inductive reachable (this : SubscriptionServer) : state -> Prop :=
| reachable_initial : reachable this initial
| reachable_step (fuel : nat) (ev : event) (s : state) :
    reachable this s -> reachable this (step this fuel ev s).

(** ** Effects *)

Definition is_engine_unsubscribe (e : effect) : bool :=
  match e with
  | EngineUnsubscribe _ => true
  | _ => false
  end.

Definition is_engine_subscribe (e : effect) : bool :=
  match e with
  | EngineSubscribe _ => true
  | _ => false
  end.

Definition is_connect_call (e : effect) : bool :=
  match e with
  | CallOnConnect _ => true
  | _ => false
  end.

Definition is_send (e : effect) : bool :=
  match e with
  | Send _ => true
  | _ => false
  end.

Definition not_a_send (e : effect) : bool := negb (is_send e).

Definition not_unsubscribe (e : effect) : bool := negb (is_engine_unsubscribe e).

(** A frame of the given type was sent. *)
Definition is_send_of (type : string) (e : effect) : bool :=
  match e with
  | Send frame =>
      match get frame "type" with
      | Normal t => is_string type t
      | Thrown _ => false
      end
  | _ => false
  end.

(** A handshake-acknowledged or handshake-error response. *)
Definition is_init_response (e : effect) : bool :=
  is_send_of INIT_SUCCESS e || is_send_of INIT_FAIL e.

(** The handles passed to the engine's [unsubscribe], in call order. *)
Definition unsubscribed_handles (t : list effect) : list jsval :=
  omap (fun e => match e with EngineUnsubscribe h => Some h | _ => None end) t.

(** What one [unsubscribe] call of the server leaves in the trace. *)
Definition unsubscribe_effects (this : SubscriptionServer) (handleId : jsval) : list effect :=
  EngineUnsubscribe handleId :: (if onUnsubscribe this then [CallOnUnsubscribe] else []).

(** The call of the connect hook a handshake-init frame causes. *)
Definition connect_calls (this : SubscriptionServer) (m : raw_message) : list effect :=
  match onConnect this with
  | None => []
  | Some _ => [CallOnConnect (property (message_value m) "payload")]
  end.

(** ** Outcomes of hooks *)

(** A native promise (as opposed to a plain value). *)
Definition is_promise (v : jsval) : bool :=
  match v with
  | JPromise _ => true
  | _ => false
  end.

(** The call hands back [value], either directly or as a promise that is
    already fulfilled with it. *)
Definition resolves_to (r : call_result) (value : jsval) : Prop :=
  r = Returns value \/ r = ReturnsPromise (Some (Normal value)).

(** The outcome of a call that settles at once: a plain value returned, a
    value thrown, or a promise handed back already settled. *)
Definition immediate_outcome (r : call_result) : option (completion jsval) :=
  match r with
  | Returns v => if is_promise v then None else Some (Normal v)
  | Throws e => Some (Thrown e)
  | ReturnsPromise (Some (Normal v)) => if is_promise v then None else Some (Normal v)
  | ReturnsPromise (Some (Thrown e)) => Some (Thrown e)
  | ReturnsPromise None => None
  end.

(** The outcome of the connect hook for a handshake-init frame, when it
    settles at once; without a hook the handshake succeeds with [true]. *)
Definition connect_outcome (this : SubscriptionServer) (m : raw_message)
  : option (completion jsval) :=
  match onConnect this with
  | None => Some (Normal (JBool true))
  | Some hook => immediate_outcome (hook (property (message_value m) "payload"))
  end.

(** The response owed to a settled handshake value: the acknowledgement, or
    the error frame carrying the rejection's message ([false] counts as a
    rejection with a fixed text).  A rejection reason without readable
    properties ([null], [undefined]) yields no response. *)
Definition init_response (o : completion jsval) : option jsval :=
  match o with
  | Normal v =>
      Some (if is_false v then init_fail_frame (JStr "Prohibited connection!")
            else init_success_frame)
  | Thrown e =>
      match get e "message" with
      | Normal text => Some (init_fail_frame text)
      | Thrown _ => None
      end
  end.

(** What the per-event callback forwards for an [(error, result)] pair, in
    the words of the specification: the result as it is when there is no
    error; the error's [errors] list when it carries one; otherwise a
    one-element list holding the error's [message]. *)
Inductive forwarded (error result : jsval) : jsval -> Prop :=
| forwarded_result :
    truthy error = false ->
    forwarded error result result
| forwarded_errors (errors : jsval) :
    truthy error = true ->
    get error "errors" = Normal errors ->
    truthy errors = true ->
    forwarded error result (JObj [("errors", errors)])
| forwarded_message (errors message : jsval) :
    truthy error = true ->
    get error "errors" = Normal errors ->
    truthy errors = false ->
    get error "message" = Normal message ->
    forwarded error result (JObj [("errors", JArr [JObj [("message", message)]])]).

(** ** Relations between the state before and the state after *)

(** Nothing observable happened: same trace (no frame sent, no hook or
    engine call, no close), same registry, same pending send callbacks and
    timers. *)
Definition no_effect (s s' : state) : Prop :=
  trace s' = trace s /\
  connectionSubscriptions s' = connectionSubscriptions s /\
  sendCallbacks s' = sendCallbacks s /\
  timers s' = timers s.

(** The trace only grows, and only by effects accepted by [ok]. *)
Definition only_adds (ok : effect -> bool) (s s' : state) : Prop :=
  exists added, trace s' = trace s ++ added /\ forallb ok added = true.

(** Registry entries are added or overwritten, never removed. *)
Definition registry_grows (s s' : state) : Prop :=
  forall k, is_Some (connectionSubscriptions s !! k) ->
            is_Some (connectionSubscriptions s' !! k).

(** A computation keeps a relation between the state it starts in and the
    state it ends in, whatever it returns or throws. *)
Definition respects {A : Type} (R : state -> state -> Prop) (m : M A) : Prop :=
  forall s, R s (m s).2.

(** The continuations of start and end frames are the ones that touch
    existing subscriptions; the other handlers are quiet. *)
Definition handler_quiet (h : handler) : bool :=
  match h with
  | StartThen _ _ | EndThen _ => false
  | _ => true
  end.

Definition reaction_quiet (r : reaction) : bool :=
  from_option handler_quiet true (on_fulfilled r)
  && from_option handler_quiet true (on_rejected r).

Definition pstate_quiet (st : pstate) : bool :=
  match st with
  | Pending _ rs => forallb reaction_quiet rs
  | _ => true
  end.

Definition job_quiet (j : job) : bool :=
  match j with
  | ReactionJob r _ => reaction_quiet r
  | ThenableJob _ _ => true
  end.

(** Continuations of start and end frames wait on [initPromise] and nowhere
    else; [initPromise] is allocated. *)
Definition subscriptions_gated (s : state) : Prop :=
  (initPromise < next s)%nat /\
  forall p st, heap s !! p = Some st -> p <> initPromise -> pstate_quiet st = true.

Definition gating (s s' : state) : Prop := subscriptions_gated s -> subscriptions_gated s'.

(** No continuation of a start or end frame is waiting at all: neither on a
    pending promise nor in the microtask queue. *)
Definition no_subscription_waiting (s : state) : Prop :=
  map_Forall (fun _ st => pstate_quiet st = true) (heap s)
  /\ forallb job_quiet (queue s) = true.

(** No observable effect, and no subscription continuation appears. *)
Definition silently (s s' : state) : Prop :=
  no_effect s s' /\ (no_subscription_waiting s -> no_subscription_waiting s').

(** What the quiet continuations do: they never call the engine's
    unsubscribe, never remove a registry entry, and never bring a start or
    end continuation back. *)
Definition quietly (s s' : state) : Prop :=
  no_subscription_waiting s ->
  no_subscription_waiting s' /\ only_adds not_unsubscribe s s' /\ registry_grows s s'.

(** The same for a start continuation that finds a falsy handle under its
    id: it leaves the registry as it is. *)
Definition keeping (subId : jsval) (s s' : state) : Prop :=
  truthy (registered s subId) = false ->
  no_subscription_waiting s ->
  no_subscription_waiting s' /\ only_adds not_unsubscribe s s'
  /\ connectionSubscriptions s' = connectionSubscriptions s.

(** ** Readings of claims that the code refutes *)

(** Claim C1 as stated: however many handshake-init frames arrive, one
    response is produced and the connect hook runs at most once. *)
Definition one_handshake_response_per_connection : Prop :=
  forall (this : SubscriptionServer) (fuel : nat) (ms : list raw_message),
    ms <> [] ->
    forallb (message_has_type INIT) ms = true ->
    (8 <= fuel)%nat ->
    length (filter is_init_response (trace (run this fuel (map EvMessage ms) initial))) = 1%nat
    /\ (length (filter is_connect_call (trace (run this fuel (map EvMessage ms) initial)))
        <= 1)%nat.

(** Claim C7 as stated: while the handshake is pending, a frame that the
    listener answers at once is a frame that failed to decode. *)
Definition only_decode_failures_bypass_handshake : Prop :=
  forall (this : SubscriptionServer) (m : raw_message) (s : state),
    handshake_pending s ->
    (exists frame, trace (listener this (EvMessage m) s) = trace s ++ [Send frame]) ->
    is_malformed m = true.

(** ** Sample servers, frames and connections *)

(** No hook configured; the engine hands out the given handle at once. *)
Definition server_with_handle (handle : Z) : SubscriptionServer :=
  {| subscribe := fun _ => ReturnsPromise (Some (Normal (JNum handle)));
     onSubscribe := None;
     onUnsubscribe := false;
     onConnect := None;
     onDisconnect := false |}.

(** The first handle of an engine that counts from 0. *)
Definition plain_server : SubscriptionServer := server_with_handle 0.

(** A server whose connect hook answers with the given result. *)
Definition server_with_connect (r : call_result) : SubscriptionServer :=
  {| subscribe := fun _ => ReturnsPromise (Some (Normal (JNum 7)));
     onSubscribe := None;
     onUnsubscribe := true;
     onConnect := Some (fun _ => r);
     onDisconnect := true |}.

(** A server whose connect hook returns [false]. *)
Definition prohibiting_server : SubscriptionServer :=
  server_with_connect (Returns (JBool false)).

(** A server whose before-subscribe hook answers with the given result. *)
Definition server_with_subscribe (r : call_result) : SubscriptionServer :=
  {| subscribe := fun _ => ReturnsPromise (Some (Normal (JNum 7)));
     onSubscribe := Some (fun _ _ => r);
     onUnsubscribe := true;
     onConnect := None;
     onDisconnect := true |}.

Definition init_frame : raw_message :=
  WellFormed (JObj [("type", JStr INIT); ("payload", JObj [("token", JStr "secret")])]).

Definition start_frame (id : string) : raw_message :=
  WellFormed (JObj [("type", JStr SUBSCRIPTION_START); ("id", JStr id);
                    ("query", JStr "subscription { x }")]).

Definition end_frame (id : string) : raw_message :=
  WellFormed (JObj [("type", JStr SUBSCRIPTION_END); ("id", JStr id)]).

Definition unknown_frame (id : string) : raw_message :=
  WellFormed (JObj [("type", JStr "bogus"); ("id", JStr id)]).

(** The connection after a first handshake-init, for a given server. *)
Definition established_connection (this : SubscriptionServer) : state :=
  step this 8 (EvMessage init_frame) initial.

(** The connection after a handshake-init whose connect hook threw. *)
Definition rejected_connection : state :=
  established_connection (server_with_connect (Throws (Error "forbidden"))).

(** The connection after a handshake-init and a first subscription-start
    for id "1", on a server whose engine hands out handle 0. *)
Definition zero_handle_connection : state :=
  run plain_server 8 [EvMessage init_frame; EvMessage (start_frame "1")] initial.

(** The same on a server whose engine hands out handle 7. *)
Definition nonzero_handle_connection : state :=
  run (server_with_handle 7) 8 [EvMessage init_frame; EvMessage (start_frame "1")] initial.

(** A connection with two registered subscriptions, handles 1 and 2. *)
Definition two_subscriptions : state :=
  State {[ initPromise := Fulfilled (JBool true) ]} 1 ∅ []
        (<["b" := JNum 2]> (<["a" := JNum 1]> ∅)) [] 0 [].
(** ** Vocabulary of the further properties *)

(** The call of the before-subscribe hook a start continuation makes. *)
Definition subscribe_hook_calls (this : SubscriptionServer) (m : raw_message)
  (initResult : jsval) : list effect :=
  match onSubscribe this with
  | None => []
  | Some _ => [CallOnSubscribe (message_value m) (base_params (message_value m) initResult)]
  end.

(** The value [promisedParams] is fulfilled with when the start continuation
    chains on it: the base params without a hook, otherwise what the hook
    returned (directly, or in a promise that is already fulfilled). *)
Definition promised_params (this : SubscriptionServer) (m : raw_message)
  (initResult value : jsval) : Prop :=
  match onSubscribe this with
  | None => value = base_params (message_value m) initResult
  | Some hook =>
      resolves_to (hook (message_value m) (base_params (message_value m) initResult)) value
  end.

(** What the duplicate check of a start continuation does to a truthy entry. *)
Definition replaced_effects (this : SubscriptionServer) (s : state) (subId : jsval)
  : list effect :=
  if truthy (registered s subId) then unsubscribe_effects this (registered s subId) else [].

Definition replaced_registry (s : state) (subId : jsval) : gmap string jsval :=
  if truthy (registered s subId)
  then delete (to_key subId) (connectionSubscriptions s)
  else connectionSubscriptions s.

(** The subscription-error frame the catch continuation of a start builds
    from a rejection reason: the reason's [errors] when truthy, otherwise a
    one-element list with its [message].  A reason without readable
    properties ([null], [undefined]) makes the continuation itself throw:
    no frame. *)
Definition failure_frame (subId e : jsval) : option jsval :=
  match get e "errors" with
  | Thrown _ => None
  | Normal errors =>
      if truthy errors then Some (subscription_fail_frame subId (JObj [("errors", errors)]))
      else match get e "message" with
           | Normal message => Some (subscription_fail_frame subId (errors_of_message message))
           | Thrown _ => None
           end
  end.

Definition sends (frame : option jsval) : list effect :=
  match frame with
  | Some f => [Send f]
  | None => []
  end.

(** What an end continuation does to the entry under its id. *)
Definition ended_effects (this : SubscriptionServer) (s : state) (subId : jsval)
  : list effect :=
  if String.eqb (typeof (registered s subId)) "undefined" then []
  else unsubscribe_effects this (registered s subId).

Definition ended_registry (s : state) (subId : jsval) : gmap string jsval :=
  if String.eqb (typeof (registered s subId)) "undefined" then connectionSubscriptions s
  else delete (to_key subId) (connectionSubscriptions s).

(** A server without hooks whose engine answers every subscribe call with
    the given result. *)
Definition server_with_engine (r : call_result) : SubscriptionServer :=
  {| subscribe := fun _ => r;
     onSubscribe := None;
     onUnsubscribe := false;
     onConnect := None;
     onDisconnect := false |}.

(** A settlement that is not itself a promise to adopt. *)
Definition plain (o : completion jsval) : bool :=
  match o with
  | Normal v => negb (is_promise v)
  | Thrown _ => true
  end.

(** A connection on which no handshake-init has arrived and nothing waits
    for the handshake. *)
Definition untouched_handshake (s : state) : Prop :=
  heap s !! initPromise = Some (Pending false []).

(** A server whose connect hook hands back a promise that is still pending. *)
Definition server_with_slow_connect : SubscriptionServer :=
  server_with_connect (ReturnsPromise None).

(** The call of the disconnect hook the 'close' listener makes. *)
Definition disconnect_calls (this : SubscriptionServer) : list effect :=
  if onDisconnect this then [CallOnDisconnect] else [].

(** The calls by which the 'close' listener ends every registered
    subscription, in the order in which it enumerates the registry. *)
Definition teardown_effects (this : SubscriptionServer) (s : state) : list effect :=
  flat_map (fun kv => unsubscribe_effects this kv.2)
           (map_to_list (connectionSubscriptions s)).

(** Nothing but the set of promises handed out is compared. *)
Definition same_externals (s s' : state) : Prop := externals s' = externals s.

(** A server without hooks whose engine hands back a pending promise. *)
Definition server_with_slow_engine : SubscriptionServer :=
  server_with_engine (ReturnsPromise None).

(** The promise at address [p] is allocated and holds the settlement [o],
    before and after. *)
Definition keeps_settled (p : nat) (o : completion jsval) (s s' : state) : Prop :=
  (p < next s)%nat /\ heap s !! p = Some (settled_state o) ->
  (p < next s')%nat /\ heap s' !! p = Some (settled_state o).

(** The frame a keep-alive tick sends. *)
Definition keepalive_frame : jsval := JObj [("type", JStr KEEPALIVE)].

(** The number of ticks before the first one that finds the socket not open. *)
Fixpoint leading_open (observed : list readyState) : nat :=
  match observed with
  | OPEN :: rest => S (leading_open rest)
  | _ => 0
  end.

(** The string contains the name somewhere. *)
Definition contains (s name : string) : Prop :=
  exists before after, s = before +:+ name +:+ after.

(** The engine invokes a subscription's callback. *)
Definition is_publication (ev : socket_event) : bool :=
  match ev with
  | Loop (EvPublish _ _ _) => true
  | _ => false
  end.






(** How many elements of a list pass a test. *)
Definition count {A : Type} (f : A -> bool) (l : list A) : nat := length (List.filter f l).

Definition is_close (e : effect) : bool :=
  match e with
  | Close _ => true
  | _ => false
  end.

Definition is_terminate (e : effect) : bool :=
  match e with
  | Terminate => true
  | _ => false
  end.

(** [result.type === INIT_FAIL], as the send callback tests it. *)
Definition is_failure (result : jsval) : bool :=
  match get result "type" with
  | Normal type => is_string INIT_FAIL type
  | Thrown _ => false
  end.

(** The handshake-error frames sent so far that have not been followed by
    their closure yet: those still waiting for the transport to report the
    write, and those whose 10 ms timer is running. *)
Definition closures_pending (s : state) : nat :=
  (count is_failure (sendCallbacks s) + timers s)%nat.

(** Every handshake-error frame sent is matched by one closure, done or
    pending; every close is followed by its terminate. *)
Definition closures_balanced (s : state) : Prop :=
  (count is_close (trace s) + closures_pending s)%nat = count (is_send_of INIT_FAIL) (trace s)
  /\ count is_terminate (trace s) = count is_close (trace s).

Definition balancing (s s' : state) : Prop := closures_balanced s -> closures_balanced s'.


(** The handshake value is fulfilled. *)
Definition established (s : state) : bool :=
  match heap s !! initPromise with
  | Some (Fulfilled _) => true
  | _ => false
  end.

(** What a subscription does to the engine and to the application's
    subscription hooks. *)
Definition is_subscription_activity (e : effect) : bool :=
  match e with
  | EngineSubscribe _ | EngineUnsubscribe _ | CallOnSubscribe _ _ | CallOnUnsubscribe => true
  | _ => false
  end.

Definition no_activity (e : effect) : bool := negb (is_subscription_activity e).

(** The continuations of the handshake itself, and the resolving functions
    of promise adoption: the handlers that belong to no subscription. *)
Definition handler_preliminary (h : handler) : bool :=
  match h with
  | InitThen | InitCatch | InitSend | ResolveFunction _ | RejectFunction _ => true
  | _ => false
  end.

Definition reaction_preliminary (r : reaction) : bool :=
  from_option handler_preliminary true (on_fulfilled r)
  && from_option handler_preliminary true (on_rejected r).

(** A reaction that waits on the handshake value may do anything on
    fulfilment, but nothing of a subscription on rejection. *)
Definition reaction_gate (r : reaction) : bool :=
  from_option handler_preliminary true (on_rejected r).

Definition job_preliminary (j : job) : bool :=
  match j with
  | ReactionJob r o => from_option handler_preliminary true (selected_handler r o)
  | ThenableJob _ _ => true
  end.

Definition pstate_dormant (p : nat) (st : pstate) : bool :=
  match st with
  | Pending _ rs =>
      forallb (if bool_decide (p = initPromise) then reaction_gate else reaction_preliminary) rs
  | _ => true
  end.

(** A connection on which no subscription has started, nor can start
    before the handshake value is fulfilled: the registry is empty, the
    trace shows no subscription activity, and no continuation of a
    subscription is queued or waits anywhere but on the handshake value. *)
Definition dormant (s : state) : Prop :=
  (initPromise < next s)%nat /\
  connectionSubscriptions s = ∅ /\
  forallb no_activity (trace s) = true /\
  forallb job_preliminary (queue s) = true /\
  map_Forall (fun p st => pstate_dormant p st = true) (heap s).

(** The invariant: a connection is dormant until its handshake value is
    fulfilled. *)
Definition guarded (s : state) : Prop :=
  if established s then (initPromise < next s)%nat else dormant s.

Definition guarding (s s' : state) : Prop := guarded s -> guarded s'.

(** A server whose connect hook is slow for a handshake-init that carries a
    payload object and refuses at once any other. *)
Definition server_with_uneven_connect : SubscriptionServer :=
  {| subscribe := fun _ => ReturnsPromise (Some (Normal (JNum 7)));
     onSubscribe := None;
     onUnsubscribe := false;
     onConnect := Some (fun payload => match payload with
                                      | JObj _ => ReturnsPromise None
                                      | _ => Returns (JBool false)
                                      end);
     onDisconnect := false |}.

(** A handshake-init without payload. *)
Definition bare_init_frame : raw_message := WellFormed (JObj [("type", JStr INIT)]).
(** ** Basic facts about the model *)

Lemma is_string_true (s : string) (v : jsval) : is_string s v = true -> v = JStr s.
Proof.
  destruct v; simpl; try discriminate.
  intros H. apply String.eqb_eq in H. by subst.
Qed.

Lemma message_has_type_inv (type : string) (m : raw_message) :
  message_has_type type m = true ->
  exists pm, m = WellFormed pm /\ get pm "id" = Normal (message_id m)
             /\ get pm "type" = Normal (JStr type).
Proof.
  destruct m as [|pm]; simpl; [done|].
  destruct (get pm "type") as [t|] eqn:E; [|done].
  intros H%is_string_true. subst. exists pm. split; [done|]. split; [|done].
  by destruct pm.
Qed.

Lemma run_microtasks_nil (this : SubscriptionServer) (fuel : nat) (s : state) :
  queue s = [] -> run_microtasks this fuel s = s.
Proof. intros H. destruct fuel; simpl; [done|]. by rewrite H. Qed.

(** Once the queue has drained, more fuel changes nothing. *)
Lemma run_microtasks_more (this : SubscriptionServer) (n k : nat) (s : state) :
  queue (run_microtasks this n s) = [] ->
  run_microtasks this (n + k) s = run_microtasks this n s.
Proof.
  revert s. induction n as [|n IH]; intros s H; simpl in *.
  - by apply run_microtasks_nil.
  - destruct (queue s) as [|j rest]; [done|]. by apply IH.
Qed.

Lemma run_microtasks_ge (this : SubscriptionServer) (n fuel : nat) (s : state) :
  (n <= fuel)%nat ->
  queue (run_microtasks this n s) = [] ->
  run_microtasks this fuel s = run_microtasks this n s.
Proof.
  intros Hle H. replace fuel with (n + (fuel - n))%nat by lia.
  by apply run_microtasks_more.
Qed.

Lemma run_microtasks_cons (this : SubscriptionServer) (fuel : nat) (s : state) (j : job)
  (rest : list job) :
  queue s = j :: rest ->
  run_microtasks this (S fuel) s = run_microtasks this fuel (run_job this j (set_queue rest s)).
Proof. intros H. simpl. by rewrite H. Qed.

(** How the listener dispatches a well-formed frame. *)
Lemma onMessage_WellFormed (this : SubscriptionServer) (pm subId type : jsval) (s : state) :
  get pm "id" = Normal subId -> get pm "type" = Normal type ->
  onMessage this (WellFormed pm) s =
    (if is_string INIT type then case_INIT this pm
     else if is_string SUBSCRIPTION_START type then case_SUBSCRIPTION_START pm subId
     else if is_string SUBSCRIPTION_END type then case_SUBSCRIPTION_END subId
     else case_default subId) s.
Proof.
  intros H1 H2. unfold onMessage, JSON_parse.
  unfold mbind at 1 2. unfold M_bind at 1 2. unfold lift. by rewrite H1, H2.
Qed.

Lemma onMessage_START (this : SubscriptionServer) (m : raw_message) (s : state) :
  message_has_type SUBSCRIPTION_START m = true ->
  onMessage this m s = case_SUBSCRIPTION_START (message_value m) (message_id m) s.
Proof.
  intros (pm & -> & Hid & Ht)%message_has_type_inv.
  by rewrite (onMessage_WellFormed _ _ _ _ _ Hid Ht).
Qed.

Lemma onMessage_END (this : SubscriptionServer) (m : raw_message) (s : state) :
  message_has_type SUBSCRIPTION_END m = true ->
  onMessage this m s = case_SUBSCRIPTION_END (message_id m) s.
Proof.
  intros (pm & -> & Hid & Ht)%message_has_type_inv.
  by rewrite (onMessage_WellFormed _ _ _ _ _ Hid Ht).
Qed.

Lemma onMessage_INIT (this : SubscriptionServer) (m : raw_message) (s : state) :
  message_has_type INIT m = true ->
  onMessage this m s = case_INIT this (message_value m) s.
Proof.
  intros (pm & -> & Hid & Ht)%message_has_type_inv.
  by rewrite (onMessage_WellFormed _ _ _ _ _ Hid Ht).
Qed.

Lemma no_effect_refl (s : state) : no_effect s s.
Proof. by repeat split. Qed.

Lemma no_effect_trans (s1 s2 s3 : state) :
  no_effect s1 s2 -> no_effect s2 s3 -> no_effect s1 s3.
Proof. intros (?&?&?&?) (?&?&?&?). repeat split; congruence. Qed.

(** ** Computations and the relations they respect *)

Section Respects.

Context (R : state -> state -> Prop) `{!Reflexive R} `{!Transitive R}.

Lemma respects_ret {A : Type} (a : A) : respects R (mret a : M A).
Proof. intros s. simpl. reflexivity. Qed.

Lemma respects_throw {A : Type} (e : jsval) : respects R (throw e : M A).
Proof. intros s. simpl. reflexivity. Qed.

Lemma respects_lift {A : Type} (c : completion A) : respects R (lift c).
Proof. intros s. simpl. reflexivity. Qed.

Lemma respects_bind {A B : Type} (m : M A) (f : A -> M B) :
  respects R m -> (forall a, respects R (f a)) -> respects R (m ≫= f).
Proof.
  intros Hm Hf s. unfold mbind, M_bind. specialize (Hm s).
  destruct (m s) as [[a|e] s']; simpl in *; [|done].
  etransitivity; [exact Hm|apply Hf].
Qed.

Lemma respects_try_catch {A : Type} (body : M A) (handler : jsval -> M A) :
  respects R body -> (forall e, respects R (handler e)) -> respects R (try_catch body handler).
Proof.
  intros Hm Hf s. unfold try_catch. specialize (Hm s).
  destruct (body s) as [[a|e] s']; simpl in *; [done|].
  etransitivity; [exact Hm|apply Hf].
Qed.

Lemma respects_modify (f : state -> state) : (forall s, R s (f s)) -> respects R (modify f).
Proof. intros Hf s. apply Hf. Qed.

Lemma respects_when (b : bool) (m : M unit) : respects R m -> respects R (when b m).
Proof. intros Hm. destruct b; [done|apply respects_ret]. Qed.

Lemma respects_forEach {A : Type} (l : list A) (f : A -> M unit) :
  (forall a, respects R (f a)) -> respects R (forEach l f).
Proof.
  intros Hf. induction l as [|a l IH]; simpl.
  - apply respects_ret.
  - apply respects_bind; [apply Hf|done].
Qed.

Lemma respects_exec (m : M unit) :
  respects R m -> (forall e s, R s (set_trace (trace s ++ [Uncaught e]) s)) ->
  forall s, R s (exec m s).
Proof.
  intros Hm Hu s. unfold exec. specialize (Hm s).
  destruct (m s) as [[a|e] s']; simpl in *; [done|].
  etransitivity; [exact Hm|apply Hu].
Qed.

End Respects.

#[global] Instance no_effect_reflexive : Reflexive no_effect.
Proof. intros s. apply no_effect_refl. Qed.

#[global] Instance no_effect_transitive : Transitive no_effect.
Proof. intros s1 s2 s3. apply no_effect_trans. Qed.

#[global] Instance only_adds_reflexive (ok : effect -> bool) : Reflexive (only_adds ok).
Proof. intros s. exists []. by rewrite app_nil_r. Qed.

#[global] Instance only_adds_transitive (ok : effect -> bool) : Transitive (only_adds ok).
Proof.
  intros s1 s2 s3 (a1 & H1 & Ok1) (a2 & H2 & Ok2). exists (a1 ++ a2). split.
  - by rewrite H2, H1, app_assoc.
  - by rewrite forallb_app, Ok1, Ok2.
Qed.

Lemma no_effect_only_adds (ok : effect -> bool) (s s' : state) :
  no_effect s s' -> only_adds ok s s'.
Proof. intros (H & _). exists []. by rewrite app_nil_r. Qed.

Lemma only_adds_emit (ok : effect -> bool) (e : effect) :
  ok e = true -> respects (only_adds ok) (emit e).
Proof. intros H s. exists [e]. simpl. by rewrite H. Qed.

(** The promise operations have no observable effect. *)

Lemma no_effect_settle (p : nat) (o : completion jsval) (s : state) :
  no_effect s (settle p o s).
Proof. unfold settle. by destruct (heap s !! p) as [[]|]. Qed.

Lemma no_effect_resolve_with (p : nat) (v : jsval) (s : state) :
  no_effect s (resolve_with p v s).
Proof.
  destruct v; try apply no_effect_settle.
  unfold resolve_with. by destruct (heap s !! p) as [[]|].
Qed.

Lemma no_effect_resolve_function (p : nat) (v : jsval) (s : state) :
  no_effect s (resolve_function p v s).
Proof.
  unfold resolve_function.
  destruct (heap s !! p) as [[[] ?| |]|]; try done. apply no_effect_resolve_with.
Qed.

Lemma no_effect_reject_function (p : nat) (e : jsval) (s : state) :
  no_effect s (reject_function p e s).
Proof.
  unfold reject_function.
  destruct (heap s !! p) as [[[] ?| |]|]; try done. apply no_effect_settle.
Qed.

Lemma no_effect_then (p : nat) (f g : option handler) : respects no_effect (then_ p f g).
Proof. intros s. unfold then_. simpl. by destruct (heap s !! p) as [[]|]. Qed.

Lemma no_effect_new_promise (st : pstate) : respects no_effect (new_promise st).
Proof. by intros s. Qed.

Lemma no_effect_Promise_resolve (v : jsval) : respects no_effect (Promise_resolve v).
Proof. destruct v; try apply no_effect_new_promise; by intros s. Qed.

Lemma no_effect_call (r : call_result) : respects no_effect (call r).
Proof. destruct r as [v|e|[o|]]; by intros s. Qed.

Lemma respects_weaken {A : Type} (R R' : state -> state -> Prop) (m : M A) :
  (forall s s', R s s' -> R' s s') -> respects R m -> respects R' m.
Proof. intros H Hm s. apply H, Hm. Qed.

(** Decompose a computation along its binds, leaving the primitive steps. *)
Ltac respects_structure :=
  repeat first
    [ apply respects_ret; typeclasses eauto
    | apply respects_throw; typeclasses eauto
    | apply respects_lift; typeclasses eauto
    | apply respects_when; [typeclasses eauto|]
    | apply respects_bind; [typeclasses eauto| |intros ?]
    | apply respects_try_catch; [typeclasses eauto| |intros ?]
    | match goal with |- respects _ (match ?x with _ => _ end) => destruct x end
    | match goal with |- respects _ (if ?x then _ else _) => destruct x end ].

(** ** An invariant of reachable states: subscriptions wait on the handshake only *)

#[global] Instance gating_reflexive : Reflexive gating.
Proof. intros s H. exact H. Qed.

#[global] Instance gating_transitive : Transitive gating.
Proof. intros s1 s2 s3 H1 H2 H. apply H2, H1, H. Qed.

Section Gate.

Context (this : SubscriptionServer).

Lemma gating_same_heap (s s' : state) :
  heap s' = heap s -> next s' = next s -> gating s s'.
Proof. intros Hh Hn [H1 H2]. split; [by rewrite Hn|]. intros p st. rewrite Hh. apply H2. Qed.

Lemma gating_insert (p : nat) (st : pstate) (s : state) :
  p = initPromise \/ pstate_quiet st = true ->
  gating s (set_heap (insert p st) s).
Proof.
  intros Hp [H1 H2]. split; [done|]. intros p' st'. simpl.
  destruct (decide (p = p')) as [<-|Hne].
  - rewrite lookup_insert_eq. intros [= <-] Hp'. by destruct Hp.
  - rewrite lookup_insert_ne by done. apply H2.
Qed.

Lemma gating_enqueue (js : list job) (s : state) : gating s (enqueue js s).
Proof. by apply gating_same_heap. Qed.

Lemma gated_reactions (p : nat) (b : bool) (rs : list reaction) (s : state) :
  subscriptions_gated s -> heap s !! p = Some (Pending b rs) ->
  p = initPromise \/ forallb reaction_quiet rs = true.
Proof.
  intros [_ H] Hp. destruct (decide (p = initPromise)) as [->|Hne]; [by left|].
  right. exact (H p _ Hp Hne).
Qed.

Lemma gating_settle (p : nat) (o : completion jsval) (s : state) : gating s (settle p o s).
Proof.
  unfold settle. destruct (heap s !! p) as [[b rs| |]|] eqn:Hp; try (by intros ?).
  intros Hg. apply gating_enqueue. revert Hg. apply gating_insert. right. by destruct o.
Qed.

Lemma gating_resolve_with (p : nat) (v : jsval) (s : state) : gating s (resolve_with p v s).
Proof.
  destruct v; try apply gating_settle.
  unfold resolve_with. destruct (heap s !! p) as [[b rs| |]|] eqn:Hp; try (by intros ?).
  intros Hg. pose proof (gated_reactions p b rs s Hg Hp) as Hrs.
  apply gating_enqueue. revert Hg. apply gating_insert.
  destruct Hrs; [by left|by right].
Qed.

Lemma gating_resolve_function (p : nat) (v : jsval) (s : state) :
  gating s (resolve_function p v s).
Proof.
  unfold resolve_function.
  destruct (heap s !! p) as [[[] ?| |]|]; try (by intros ?). apply gating_resolve_with.
Qed.

Lemma gating_reject_function (p : nat) (e : jsval) (s : state) :
  gating s (reject_function p e s).
Proof.
  unfold reject_function.
  destruct (heap s !! p) as [[[] ?| |]|]; try (by intros ?). apply gating_settle.
Qed.

Lemma gating_alloc (st : pstate) (s : state) :
  pstate_quiet st = true ->
  gating s (set_next (S (next s)) (set_heap (insert (next s) st) s)).
Proof.
  intros Hst Hg. destruct (gating_insert (next s) st s (or_intror Hst) Hg) as [H1 H2].
  split; [simpl in *; lia|exact H2].
Qed.

Lemma gating_new_promise (st : pstate) :
  pstate_quiet st = true -> respects gating (new_promise st).
Proof. intros Hst s. by apply gating_alloc. Qed.

(** A reaction may be registered on [initPromise], or be quiet. *)
Lemma gating_then (p : nat) (f g : option handler) :
  p = initPromise \/
  (from_option handler_quiet true f = true /\ from_option handler_quiet true g = true) ->
  respects gating (then_ p f g).
Proof.
  intros Hp s Hg. unfold then_. simpl.
  pose proof (gating_alloc (Pending false []) s eq_refl Hg) as Hg1.
  destruct (heap s !! p) as [[b rs| |]|] eqn:Hlookup; try done.
  revert Hg1. apply gating_insert.
  destruct (gated_reactions p b rs s Hg Hlookup) as [->|Hrs]; [by left|].
  destruct Hp as [->|[Hf Hq]]; [by left|]. right. simpl.
  rewrite forallb_app, Hrs. unfold reaction_quiet. simpl. by rewrite Hf, Hq.
Qed.

Lemma gating_Promise_resolve (v : jsval) : respects gating (Promise_resolve v).
Proof. destruct v; try (by apply gating_new_promise); by intros s. Qed.

Lemma gating_call (r : call_result) : respects gating (call r).
Proof.
  destruct r as [v|e|[o|]]; simpl; try (by intros s).
  - apply respects_bind; [apply _| |intros p; apply respects_ret; apply _].
    apply gating_new_promise. by destruct o.
  - apply respects_bind; [apply _|by apply gating_new_promise|intros p].
    apply respects_bind; [apply _| |intros ?; apply respects_ret; apply _].
    apply respects_modify. intros s. by apply gating_same_heap.
Qed.

Lemma gating_emit (e : effect) : respects gating (emit e).
Proof. intros s. by apply gating_same_heap. Qed.

Lemma gating_unsubscribe (handleId : jsval) : respects gating (unsubscribe this handleId).
Proof. unfold unsubscribe. respects_structure; apply gating_emit. Qed.

(** A step that leaves the promise heap alone. *)
Lemma gating_modify (f : state -> state) :
  (forall s, heap (f s) = heap s) -> (forall s, next (f s) = next s) ->
  respects gating (modify f).
Proof. intros Hh Hn. apply respects_modify. intros s. by apply gating_same_heap. Qed.

Ltac gating_step :=
  first
    [ apply gating_emit
    | apply gating_unsubscribe
    | apply gating_call
    | apply gating_Promise_resolve
    | apply gating_new_promise; reflexivity
    | apply gating_then; first [by left | by right]
    | apply gating_modify; [by intros ?|by intros ?]
    | apply respects_modify; intros ?;
      first [apply gating_resolve_function | apply gating_reject_function
            | apply gating_resolve_with | apply gating_settle] ].

Lemma gating_run_handler (h : handler) (arg : jsval) :
  respects gating (run_handler this h arg).
Proof.
  destruct h; simpl;
    unfold init_then, init_catch, init_send, sendInitResult, start_then, params_then,
      subscribed_then, start_catch, end_then, sendSubscriptionFail, sendSubscriptionSuccess,
      subscriptions_get, subscriptions_set, subscriptions_delete, catch_;
    respects_structure; try gating_step; by intros ?.
Qed.

Lemma gating_run_job (j : job) (s : state) : gating s (run_job this j s).
Proof.
  destruct j as [r o|target thenable]; simpl.
  - destruct (selected_handler r o) as [h|]; [|apply gating_settle].
    pose proof (gating_run_handler h (settled_value o) s) as Hh.
    destruct (run_handler this h (settled_value o) s) as [[v|e] s']; simpl in Hh;
      intros Hg; [apply gating_resolve_function|apply gating_reject_function]; by apply Hh.
  - apply (gating_then thenable). by right.
Qed.

Lemma gating_run_microtasks (fuel : nat) (s : state) : gating s (run_microtasks this fuel s).
Proof.
  revert s. induction fuel as [|fuel IH]; intros s; [by intros ?|].
  simpl. destruct (queue s) as [|j rest]; [by intros ?|].
  intros Hg. apply IH, gating_run_job. revert Hg. by apply gating_same_heap.
Qed.

Lemma gating_exec (m : M unit) : respects gating m -> forall s, gating s (exec m s).
Proof.
  intros Hm. apply (respects_exec gating _ Hm).
  intros e s. by apply gating_same_heap.
Qed.

Lemma gating_onMessage (message : raw_message) : respects gating (onMessage this message).
Proof.
  unfold onMessage, case_INIT, case_SUBSCRIPTION_START, case_SUBSCRIPTION_END, case_default,
    sendSubscriptionFail, catch_.
  respects_structure; try gating_step.
Qed.

Lemma gating_listener (ev : event) (s : state) : gating s (listener this ev s).
Proof.
  destruct ev as [message| |p o|subId error result| |]; simpl.
  - apply gating_exec, gating_onMessage.
  - apply gating_exec. unfold onClose, subscriptions_keys, subscriptions_get,
      subscriptions_delete.
    respects_structure; try gating_step; try (by intros ?).
    apply respects_forEach; try apply _. intros subId.
    respects_structure; try gating_step; by intros ?.
  - destruct (bool_decide _); [|by intros ?].
    destruct o; [apply gating_resolve_function|apply gating_reject_function].
  - apply gating_exec. unfold callback, sendSubscriptionData.
    respects_structure; gating_step.
  - destruct (sendCallbacks s) as [|result rest]; [by intros ?|].
    intros Hg. apply gating_exec.
    + unfold sendInitResult_sent. respects_structure; gating_step.
    + revert Hg. by apply gating_same_heap.
  - destruct (timers s) as [|n]; [by intros ?|].
    intros Hg. apply gating_exec.
    + unfold sendInitResult_timeout. respects_structure; gating_step.
    + revert Hg. by apply gating_same_heap.
Qed.

(** In every reachable state, start and end continuations wait on
    [initPromise] only. *)
Lemma reachable_gated (s : state) : reachable this s -> subscriptions_gated s.
Proof.
  induction 1 as [|fuel ev s _ IH].
  - split; [unfold initPromise; simpl; lia|].
    intros p st. unfold initial. simpl. intros Hp Hne.
    rewrite lookup_singleton_ne in Hp by done. discriminate.
  - by apply gating_run_microtasks, gating_listener.
Qed.

Lemma reachable_run (fuel : nat) (evs : list event) (s : state) :
  reachable this s -> reachable this (run this fuel evs s).
Proof.
  revert s. induction evs as [|ev evs IH]; intros s Hr; [done|].
  simpl. by apply IH, reachable_step.
Qed.

(** Once the handshake value is settled and the queue has drained, no start
    or end continuation is left waiting. *)
Lemma settled_nothing_waiting (s : state) :
  subscriptions_gated s -> quiescent s ->
  (exists o, heap s !! initPromise = Some (settled_state o)) ->
  no_subscription_waiting s.
Proof.
  intros [_ Hg] Hq [o Ho]. split; [|by rewrite Hq].
  intros p st Hp. destruct (decide (p = initPromise)) as [->|Hne]; [|by eapply Hg].
  rewrite Ho in Hp. injection Hp as <-. by destruct o.
Qed.

End Gate.

(** ** Symbolic execution of the promise operations

    Each operation is characterised on an explicit state record, given what
    the heap holds at the promise it inspects; a turn of the event loop is
    then replayed operation by operation. *)

Section Symbolic.

Context (this : SubscriptionServer).

Implicit Types (h : gmap nat pstate) (n : nat) (ex : gset nat) (q : list job).
Implicit Types (subs : gmap string jsval) (cbs : list jsval) (tm : nat) (tr : list effect).

Lemma then__pending h n ex q subs cbs tm tr p f g b rs :
  h !! p = Some (Pending b rs) ->
  then_ p f g (State h n ex q subs cbs tm tr) =
    (Normal n,
     State (<[p := Pending b (rs ++ [Reaction f g n])]> (<[n := Pending false []]> h))
           (S n) ex q subs cbs tm tr).
Proof. intros H. unfold then_. simpl. by rewrite H. Qed.

Lemma then__fulfilled h n ex q subs cbs tm tr p f g v :
  h !! p = Some (Fulfilled v) ->
  then_ p f g (State h n ex q subs cbs tm tr) =
    (Normal n,
     State (<[n := Pending false []]> h) (S n) ex
           (q ++ [ReactionJob (Reaction f g n) (Normal v)]) subs cbs tm tr).
Proof. intros H. unfold then_. simpl. by rewrite H. Qed.

Lemma then__rejected h n ex q subs cbs tm tr p f g e :
  h !! p = Some (Rejected e) ->
  then_ p f g (State h n ex q subs cbs tm tr) =
    (Normal n,
     State (<[n := Pending false []]> h) (S n) ex
           (q ++ [ReactionJob (Reaction f g n) (Thrown e)]) subs cbs tm tr).
Proof. intros H. unfold then_. simpl. by rewrite H. Qed.

Lemma settle_pending h n ex q subs cbs tm tr p o b rs :
  h !! p = Some (Pending b rs) ->
  settle p o (State h n ex q subs cbs tm tr) =
    State (<[p := settled_state o]> h) n ex
          (q ++ map (fun r => ReactionJob r o) rs) subs cbs tm tr.
Proof. intros H. unfold settle. simpl. by rewrite H. Qed.

Lemma resolve_with_value h n ex q subs cbs tm tr p v b rs :
  h !! p = Some (Pending b rs) -> is_promise v = false ->
  resolve_with p v (State h n ex q subs cbs tm tr) =
    State (<[p := Fulfilled v]> h) n ex
          (q ++ map (fun r => ReactionJob r (Normal v)) rs) subs cbs tm tr.
Proof.
  intros H Hv. destruct v; try discriminate; unfold resolve_with; by erewrite settle_pending.
Qed.

Lemma resolve_function_value h n ex q subs cbs tm tr p v rs :
  h !! p = Some (Pending false rs) -> is_promise v = false ->
  resolve_function p v (State h n ex q subs cbs tm tr) =
    State (<[p := Fulfilled v]> h) n ex
          (q ++ map (fun r => ReactionJob r (Normal v)) rs) subs cbs tm tr.
Proof.
  intros H Hv. unfold resolve_function. simpl. rewrite H. by eapply resolve_with_value.
Qed.

Lemma resolve_function_promise h n ex q subs cbs tm tr p p' rs :
  h !! p = Some (Pending false rs) ->
  resolve_function p (JPromise p') (State h n ex q subs cbs tm tr) =
    State (<[p := Pending true rs]> h) n ex (q ++ [ThenableJob p p']) subs cbs tm tr.
Proof. intros H. unfold resolve_function, resolve_with. simpl. by rewrite H. Qed.

Lemma resolve_function_fulfilled h n ex q subs cbs tm tr p v v' :
  h !! p = Some (Fulfilled v') ->
  resolve_function p v (State h n ex q subs cbs tm tr) = State h n ex q subs cbs tm tr.
Proof. intros H. unfold resolve_function. simpl. by rewrite H. Qed.

Lemma resolve_function_rejected h n ex q subs cbs tm tr p v e :
  h !! p = Some (Rejected e) ->
  resolve_function p v (State h n ex q subs cbs tm tr) = State h n ex q subs cbs tm tr.
Proof. intros H. unfold resolve_function. simpl. by rewrite H. Qed.

Lemma resolve_function_resolved h n ex q subs cbs tm tr p v rs :
  h !! p = Some (Pending true rs) ->
  resolve_function p v (State h n ex q subs cbs tm tr) = State h n ex q subs cbs tm tr.
Proof. intros H. unfold resolve_function. simpl. by rewrite H. Qed.

Lemma reject_function_pending h n ex q subs cbs tm tr p e rs :
  h !! p = Some (Pending false rs) ->
  reject_function p e (State h n ex q subs cbs tm tr) =
    State (<[p := Rejected e]> h) n ex
          (q ++ map (fun r => ReactionJob r (Thrown e)) rs) subs cbs tm tr.
Proof. intros H. unfold reject_function. simpl. rewrite H. by erewrite settle_pending. Qed.

Lemma Promise_resolve_value h n ex q subs cbs tm tr v :
  is_promise v = false ->
  Promise_resolve v (State h n ex q subs cbs tm tr) =
    (Normal n, State (<[n := Fulfilled v]> h) (S n) ex q subs cbs tm tr).
Proof. by destruct v. Qed.

Lemma Promise_resolve_promise (p : nat) (s : state) :
  Promise_resolve (JPromise p) s = (Normal p, s).
Proof. done. Qed.

Lemma run_microtasks_step fuel h n ex j q subs cbs tm tr :
  run_microtasks this (S fuel) (State h n ex (j :: q) subs cbs tm tr) =
  run_microtasks this fuel (run_job this j (State h n ex q subs cbs tm tr)).
Proof. done. Qed.

Lemma run_microtasks_done fuel h n ex subs cbs tm tr :
  run_microtasks this fuel (State h n ex [] subs cbs tm tr) = State h n ex [] subs cbs tm tr.
Proof. by destruct fuel. Qed.

(** A drain that has been replayed with [k] units of fuel is the drain for
    any larger amount. *)
Lemma run_microtasks_enough (k fuel : nat) (s s' : state) :
  run_microtasks this k s = s' -> queue s' = [] -> (k <= fuel)%nat ->
  run_microtasks this fuel s = s'.
Proof. intros <- Hq Hle. by apply run_microtasks_ge. Qed.

End Symbolic.

Lemma get_Error_errors (text : string) : get (Error text) "errors" = Normal JUndefined.
Proof. done. Qed.

Lemma get_Error_message (text : string) : get (Error text) "message" = Normal (JStr text).
Proof. done. Qed.

Lemma truthy_undefined : truthy JUndefined = false.
Proof. done. Qed.

(** Look a promise up in a heap built by successive inserts. *)
Ltac lookup_solve :=
  repeat first
    [ rewrite lookup_insert_eq
    | rewrite lookup_insert_ne by (unfold initPromise in *; lia) ];
  first [ reflexivity | eassumption ].

(** Unfold the monad, the state accessors and the bodies of the listener and
    of the continuations, leaving the promise operations in place. *)
Ltac normalize :=
  cbv beta iota zeta delta
    [mbind M_bind mret M_ret lift modify emit throw try_catch when exec catch_
     new_promise call
     set_heap set_next set_externals set_queue set_connectionSubscriptions set_sendCallbacks
     set_timers set_trace heap next externals queue connectionSubscriptions sendCallbacks
     timers trace enqueue
     run_job selected_handler settled_value run_handler on_fulfilled on_rejected derived
     init_then init_catch init_send sendInitResult
     start_then params_then subscribed_then start_catch end_then
     subscriptions_get subscriptions_set subscriptions_delete unsubscribe
     sendSubscriptionData sendSubscriptionFail sendSubscriptionSuccess
     case_INIT case_SUBSCRIPTION_START case_SUBSCRIPTION_END case_default
     fst snd negb settled_state is_promise];
  cbn [app map].

(** Replay the promise operation at the head of the computation: look up
    the promise it inspects, then rewrite with the matching equation. *)
Ltac with_lookup h p k :=
  let H := fresh "Hlookup" in
  let st := fresh "st" in
  evar (st : pstate);
  assert (h !! p = Some st) as H by (subst st; lookup_solve);
  subst st; k H; clear H.

Ltac operation :=
  first
    [ lazymatch goal with
      | |- context [then_ ?p _ _ (State ?h _ _ _ _ _ _ _)] =>
          with_lookup h p ltac:(fun H =>
            first [ rewrite (then__pending _ _ _ _ _ _ _ _ _ _ _ _ _ H)
                  | rewrite (then__fulfilled _ _ _ _ _ _ _ _ _ _ _ _ H)
                  | rewrite (then__rejected _ _ _ _ _ _ _ _ _ _ _ _ H) ])
      | |- context [resolve_function ?p ?v (State ?h _ _ _ _ _ _ _)] =>
          with_lookup h p ltac:(fun H =>
            first [ rewrite (resolve_function_promise _ _ _ _ _ _ _ _ _ _ _ H)
                  | rewrite (resolve_function_value _ _ _ _ _ _ _ _ _ _ _ H)
                      by (first [reflexivity | eassumption])
                  | rewrite (resolve_function_fulfilled _ _ _ _ _ _ _ _ _ _ _ H)
                  | rewrite (resolve_function_rejected _ _ _ _ _ _ _ _ _ _ _ H)
                  | rewrite (resolve_function_resolved _ _ _ _ _ _ _ _ _ _ _ H) ])
      | |- context [reject_function ?p _ (State ?h _ _ _ _ _ _ _)] =>
          with_lookup h p ltac:(fun H =>
            rewrite (reject_function_pending _ _ _ _ _ _ _ _ _ _ _ H))
      | |- context [resolve_with ?p _ (State ?h _ _ _ _ _ _ _)] =>
          with_lookup h p ltac:(fun H =>
            rewrite (resolve_with_value _ _ _ _ _ _ _ _ _ _ _ _ H)
              by (first [reflexivity | eassumption]))
      | |- context [settle ?p _ (State ?h _ _ _ _ _ _ _)] =>
          with_lookup h p ltac:(fun H =>
            rewrite (settle_pending _ _ _ _ _ _ _ _ _ _ _ _ H))
      end
    | rewrite Promise_resolve_promise
    | rewrite Promise_resolve_value by (first [reflexivity | eassumption])
    | rewrite run_microtasks_step
    | rewrite run_microtasks_done ].

(** Reads of the error objects the server itself creates. *)
Ltac ground := rewrite ?get_Error_errors, ?get_Error_message, ?truthy_undefined.

(** Read the fields of an explicit state record. *)
Ltac project :=
  cbn [heap next externals queue connectionSubscriptions sendCallbacks timers trace].

Ltac replay := repeat (normalize; first [operation | progress ground]); normalize.

(** The same, with a tactic that rewrites the facts known about the inputs. *)
Tactic Notation "replay" "using" tactic3(facts) :=
  repeat (normalize; first [operation | progress ground | progress facts]); normalize.

(** ** The handshake gate (claims C2 and C10) *)

Section Handshake.

Context (this : SubscriptionServer).

Lemma then_initPromise_pending (s : state) (b : bool) (rs : list reaction) (h : handler) :
  heap s !! initPromise = Some (Pending b rs) ->
  then_ initPromise (Some h) None s =
    (Normal (next s),
     set_heap (insert initPromise (Pending b (rs ++ [Reaction (Some h) None (next s)])))
       (set_next (S (next s)) (set_heap (insert (next s) (Pending false [])) s))).
Proof. intros H. unfold then_. by rewrite H. Qed.

Lemma then_initPromise_rejected (s : state) (e : jsval) (h : handler) :
  heap s !! initPromise = Some (Rejected e) ->
  then_ initPromise (Some h) None s =
    (Normal (next s),
     enqueue [ReactionJob (Reaction (Some h) None (next s)) (Thrown e)]
       (set_next (S (next s)) (set_heap (insert (next s) (Pending false [])) s))).
Proof. intros H. unfold then_. by rewrite H. Qed.

(** Both subscription cases only register a continuation on [initPromise]. *)
Lemma onMessage_subscription (m : raw_message) (s : state) :
  is_subscription_message m = true ->
  exists h, onMessage this m s = (_ ← then_ initPromise (Some h) None; mret tt) s.
Proof.
  intros [Hm|Hm]%orb_true_iff.
  - rewrite (onMessage_START _ _ _ Hm). by eexists.
  - rewrite (onMessage_END _ _ _ Hm). by eexists.
Qed.

Lemma step_subscription_pending (fuel : nat) (m : raw_message) (s : state) :
  handshake_pending s -> quiescent s -> is_subscription_message m = true ->
  no_effect s (step this fuel (EvMessage m) s) /\
  handshake_pending (step this fuel (EvMessage m) s) /\
  quiescent (step this fuel (EvMessage m) s).
Proof.
  intros (b & rs & Hp) Hq Hm. unfold step, listener, exec.
  destruct (onMessage_subscription m s Hm) as [h ->].
  unfold mbind, M_bind. rewrite (then_initPromise_pending _ _ _ _ Hp). cbn [mret M_ret].
  rewrite run_microtasks_nil by done.
  split; [by repeat split|]. split; [|done].
  eexists _, _. simpl. apply lookup_insert_eq.
Qed.

Lemma step_subscription_rejected (fuel : nat) (m : raw_message) (s : state) :
  handshake_rejected s -> quiescent s -> (initPromise < next s)%nat -> (1 <= fuel)%nat ->
  is_subscription_message m = true ->
  no_effect s (step this fuel (EvMessage m) s) /\
  handshake_rejected (step this fuel (EvMessage m) s) /\
  quiescent (step this fuel (EvMessage m) s) /\
  (initPromise < next (step this fuel (EvMessage m) s))%nat.
Proof.
  intros (e & Hp) Hq Hn Hf Hm. unfold step, listener, exec.
  destruct fuel as [|fuel]; [lia|].
  destruct (onMessage_subscription m s Hm) as [h ->].
  unfold mbind, M_bind. rewrite (then_initPromise_rejected _ _ _ Hp). cbn [mret M_ret].
  erewrite run_microtasks_cons; last first.
  { unfold enqueue. simpl. by rewrite Hq. }
  unfold run_job. cbn [selected_handler on_rejected derived]. unfold settle. simpl.
  rewrite lookup_insert_eq. simpl.
  rewrite run_microtasks_nil by done. simpl.
  split; [by repeat split|]. split; [|split; [done|lia]].
  exists e. simpl. by rewrite !lookup_insert_ne by (unfold initPromise in *; lia).
Qed.

(** C2.  While the handshake's settled value is pending (whether or not a
    handshake-init has already resolved it to a still-pending hook promise),
    any burst of subscription-start and subscription-end frames leaves the
    trace untouched (no hook call, no engine subscribe or unsubscribe, no
    frame sent) and the registry as it was; the frames only queue behind the
    handshake, which is still pending afterwards. *)
Theorem subscription_messages_wait_for_handshake
  (fuel : nat) (ms : list raw_message) (s : state) :
  handshake_pending s -> quiescent s ->
  forallb is_subscription_message ms = true ->
  no_effect s (run this fuel (map EvMessage ms) s) /\
  handshake_pending (run this fuel (map EvMessage ms) s) /\
  quiescent (run this fuel (map EvMessage ms) s).
Proof.
  revert s. induction ms as [|m ms IH]; intros s Hp Hq Hms; simpl.
  - split; [apply no_effect_refl|done].
  - apply andb_true_iff in Hms as [Hm Hms].
    destruct (step_subscription_pending fuel m s Hp Hq Hm) as (He & Hp' & Hq').
    destruct (IH _ Hp' Hq' Hms) as (He2 & ? & ?).
    split; [|done]. by eapply no_effect_trans.
Qed.

(** C10.  In a reachable state whose handshake value is rejected,
    subscription-start and subscription-end frames are processed to
    completion (the microtask queue drains) without any effect: their only continuation is a
    fulfilment callback, so the rejection passes through to a promise nobody
    observes.  No frame is sent, no hook or engine call is made, the
    registry is unchanged. *)
Theorem rejected_handshake_silences_subscriptions
  (fuel : nat) (ms : list raw_message) (s : state) :
  reachable this s -> handshake_rejected s -> quiescent s -> (1 <= fuel)%nat ->
  forallb is_subscription_message ms = true ->
  no_effect s (run this fuel (map EvMessage ms) s) /\
  handshake_rejected (run this fuel (map EvMessage ms) s) /\
  quiescent (run this fuel (map EvMessage ms) s).
Proof.
  intros Hr Hp Hq Hf. pose proof (proj1 (reachable_gated this s Hr)) as Hn. clear Hr.
  revert s Hp Hq Hn.
  induction ms as [|m ms IH]; intros s Hp Hq Hn Hms; simpl.
  - split; [apply no_effect_refl|done].
  - apply andb_true_iff in Hms as [Hm Hms].
    destruct (step_subscription_rejected fuel m s Hp Hq Hn Hf Hm) as (He & Hp' & Hq' & Hn').
    destruct (IH _ Hp' Hq' Hn' Hms) as (He2 & ? & ?).
    split; [|done]. by eapply no_effect_trans.
Qed.

End Handshake.

Lemma subscription_messages_wait_for_handshake_witness :
  no_effect initial
    (run plain_server 8 (map EvMessage [start_frame "1"; end_frame "1"; start_frame "2"]) initial).
Proof.
  apply (subscription_messages_wait_for_handshake plain_server 8
           [start_frame "1"; end_frame "1"; start_frame "2"] initial).
  - by exists false, [].
  - reflexivity.
  - reflexivity.
Defined.

Lemma rejected_handshake_silences_subscriptions_witness :
  no_effect rejected_connection
    (run (server_with_connect (Throws (Error "forbidden"))) 8
       (map EvMessage [start_frame "1"; end_frame "1"]) rejected_connection).
Proof.
  apply (rejected_handshake_silences_subscriptions
           (server_with_connect (Throws (Error "forbidden"))) 8
           [start_frame "1"; end_frame "1"] rejected_connection).
  - apply reachable_step, reachable_initial.
  - exists (Error "forbidden"). by vm_compute.
  - by vm_compute.
  - lia.
  - reflexivity.
Defined.

(** ** Frames answered without waiting for the handshake (claim C7) *)

Section Bypass.

Context (this : SubscriptionServer).

Lemma silent_step {A : Type} (m : M A) : respects no_effect m -> respects (only_adds not_a_send) m.
Proof. apply respects_weaken, no_effect_only_adds. Qed.

Lemma case_INIT_sends_nothing (parsedMessage : jsval) :
  respects (only_adds not_a_send) (case_INIT this parsedMessage).
Proof.
  unfold case_INIT, catch_. respects_structure;
    try (apply silent_step;
         first [apply no_effect_then | apply no_effect_new_promise
               | apply no_effect_Promise_resolve | apply no_effect_call]);
    try (apply respects_modify; intros s; apply no_effect_only_adds;
         first [apply no_effect_resolve_function | apply no_effect_reject_function]).
  by apply only_adds_emit.
Qed.

Lemma case_SUBSCRIPTION_START_sends_nothing (parsedMessage subId : jsval) :
  respects (only_adds not_a_send) (case_SUBSCRIPTION_START parsedMessage subId).
Proof.
  unfold case_SUBSCRIPTION_START. respects_structure. apply silent_step, no_effect_then.
Qed.

Lemma case_SUBSCRIPTION_END_sends_nothing (subId : jsval) :
  respects (only_adds not_a_send) (case_SUBSCRIPTION_END subId).
Proof.
  unfold case_SUBSCRIPTION_END. respects_structure. apply silent_step, no_effect_then.
Qed.

Lemma only_adds_filter (ok : effect -> bool) (keep : effect -> bool) (s s' : state) :
  (forall e, ok e = true -> keep e = false) ->
  only_adds ok s s' -> filter keep (trace s') = filter keep (trace s).
Proof.
  intros Hk (added & -> & Hok). rewrite filter_app.
  replace (filter keep added) with (@nil effect); [by rewrite app_nil_r|].
  symmetry. induction added as [|e added IH]; [done|].
  simpl in Hok. apply andb_true_iff in Hok as [He Hok].
  rewrite filter_cons. rewrite (Hk _ He). simpl. by apply IH.
Qed.

(** C7, as amended.  A frame that fails to decode is answered in the
    listener itself, whatever the state of the handshake: one
    subscription-error frame with a null id and the decoder's message text
    is sent, and nothing else changes (nothing is closed, terminated or
    scheduled).  A well-formed frame of unrecognized type is answered in the
    listener too, under the frame's own id.  For every other frame the
    listener sends nothing. *)
Theorem decode_failure_answered_without_handshake (s : state) :
  (forall text,
     listener this (EvMessage (Malformed text)) s =
     set_trace (trace s ++ [Send (subscription_fail_frame JNull (errors_of_message (JStr text)))]) s)
  /\
  (forall m, has_unrecognized_type m = true ->
     listener this (EvMessage m) s =
     set_trace (trace s ++ [Send (subscription_fail_frame (message_id m)
                                    (errors_of_message (JStr "Invalid message type!")))]) s)
  /\
  (forall m, is_malformed m = false -> has_unrecognized_type m = false ->
     filter is_send (trace (listener this (EvMessage m) s)) = filter is_send (trace s)).
Proof.
  split; [done|]. split.
  - intros [text|pm] Hm; [done|]. simpl in Hm |- *.
    destruct (get pm "type") as [type|] eqn:Ht; [|done].
    assert (get pm "id" = Normal (message_id (WellFormed pm))) as Hid.
    { destruct pm; try done. }
    unfold exec. rewrite (onMessage_WellFormed _ _ _ _ _ Hid Ht).
    apply negb_true_iff, orb_false_iff in Hm as [[-> ->]%orb_false_iff ->]. done.
  - intros [text|pm] Hmal Hm; [done|]. clear Hmal. simpl in Hm |- *.
    apply (only_adds_filter not_a_send); [by intros []|].
    apply (respects_exec (only_adds not_a_send) _); [|by intros e s'; exists [Uncaught e]].
    destruct (get pm "type") as [type|] eqn:Ht.
    + assert (get pm "id" = Normal (message_id (WellFormed pm))) as Hid.
      { destruct pm; try done. }
      intros s'. rewrite (onMessage_WellFormed _ _ _ _ _ Hid Ht).
      apply negb_false_iff in Hm.
      destruct (is_string INIT type); [apply case_INIT_sends_nothing|].
      destruct (is_string SUBSCRIPTION_START type); [apply case_SUBSCRIPTION_START_sends_nothing|].
      destruct (is_string SUBSCRIPTION_END type); [apply case_SUBSCRIPTION_END_sends_nothing|].
      done.
    + intros s'. unfold onMessage, JSON_parse. unfold mbind at 1. unfold M_bind at 1.
      unfold lift. destruct pm; try done; by exists [].
Qed.

End Bypass.

(** C7, as stated, fails: with the handshake still pending, a well-formed
    frame of unknown type is answered at once as well. *)
Lemma unrecognized_type_also_bypasses_handshake : ~ only_decode_failures_bypass_handshake.
Proof.
  intros H.
  specialize (H plain_server (unknown_frame "7") initial).
  discriminate H.
  - by exists false, [].
  - by eexists.
Qed.

Lemma decode_failure_answered_without_handshake_witness :
  listener plain_server (EvMessage (unknown_frame "7")) initial =
  set_trace [Send (subscription_fail_frame (JStr "7")
                     (errors_of_message (JStr "Invalid message type!")))] initial
  /\ filter is_send (trace (listener plain_server (EvMessage init_frame) initial)) = [].
Proof.
  destruct (decode_failure_answered_without_handshake plain_server initial) as (_ & H2 & H3).
  split.
  - apply (H2 (unknown_frame "7")). reflexivity.
  - apply (H3 init_frame); reflexivity.
Defined.

(** ** The per-event callback (claim C6) *)

Lemma get_truthy (v : jsval) (k : string) : truthy v = true -> exists x, get v k = Normal x.
Proof. destruct v; simpl; try done; by eexists. Qed.

(** C6.  Whatever [(error, result)] pair the engine delivers, the callback
    sends exactly one frame, a subscription-data frame under the
    subscription's id, and changes nothing else: the registry keeps the
    subscription and no error frame is produced.  Its payload is the result
    itself when there is no error, the error's own [errors] list when it has
    one, and otherwise a one-element list with the error's [message]. *)
Theorem callback_forwards_every_event
  (this : SubscriptionServer) (subId error result : jsval) (s : state) :
  exists payload,
    forwarded error result payload /\
    listener this (EvPublish subId error result) s =
    set_trace (trace s ++ [Send (subscription_data_frame subId payload)]) s.
Proof.
  simpl. unfold exec, callback.
  destruct (truthy error) eqn:He; simpl.
  - destruct (get_truthy error "errors" He) as [errors Herrors].
    destruct (get_truthy error "message" He) as [message Hmessage].
    unfold mbind, M_bind, lift. rewrite Herrors.
    destruct (truthy errors) eqn:Hs.
    + exists (JObj [("errors", errors)]). split; [|done]. by eapply forwarded_errors.
    + rewrite Hmessage. exists (errors_of_message message). split; [|done].
      by eapply forwarded_message.
  - exists result. split; [|done]. by apply forwarded_result.
Qed.

(** ** Closing a connection (claim C5) *)

Section Close.

Context (this : SubscriptionServer).

(** The loop of [onClose] over a list of distinct keys that are all present. *)
Lemma onClose_loop (entries : list (string * jsval)) (s : state) :
  NoDup entries.*1 ->
  (forall k v, (k, v) ∈ entries -> connectionSubscriptions s !! k = Some v) ->
  let body := fun subId =>
    handleId ← subscriptions_get subId;
    unsubscribe this handleId;;
    subscriptions_delete subId in
  exists s',
    forEach entries.*1 body s = (Normal tt, s') /\
    trace s' = trace s ++ flat_map (fun kv => unsubscribe_effects this kv.2) entries /\
    (forall k, connectionSubscriptions s' !! k =
               if bool_decide (k ∈ entries.*1) then None else connectionSubscriptions s !! k) /\
    heap s' = heap s /\ next s' = next s /\ queue s' = queue s /\
    sendCallbacks s' = sendCallbacks s /\ timers s' = timers s.
Proof.
  intros Hnd Hin body. revert s Hin.
  induction entries as [|[k v] entries IH]; intros s Hin.
  - exists s. simpl. rewrite app_nil_r. repeat split; done.
  - simpl in Hnd. apply NoDup_cons in Hnd as [Hk Hnd].
    set (s1 := set_connectionSubscriptions (delete k)
                 (set_trace (trace s ++ unsubscribe_effects this v) s)).
    destruct (IH Hnd s1) as (s' & Hrun & Htr & Hsubs & Hrest).
    { intros k' v' Hin'. simpl. rewrite lookup_delete_ne.
      - apply Hin. by right.
      - intros ->. apply Hk. apply list_elem_of_fmap. by exists (k', v'). }
    exists s'. split; [|split; [|split]].
    + simpl. unfold mbind at 1. unfold M_bind at 1.
      assert (body k s = (Normal tt, s1)) as ->; [|exact Hrun].
      unfold body, subscriptions_get, mbind, M_bind. rewrite (Hin k v) by left.
      unfold s1, unsubscribe, unsubscribe_effects, subscriptions_delete, mbind, M_bind, emit,
        modify, when.
      destruct s; simpl. destruct (onUnsubscribe this); simpl; [|done].
      by rewrite <- app_assoc.
    + rewrite Htr. simpl. by rewrite <- app_assoc.
    + intros k'. rewrite Hsubs, fmap_cons. simpl.
      destruct (decide (k' = k)) as [->|Hne].
      * rewrite lookup_delete_eq, (bool_decide_eq_true_2 (k ∈ k :: entries.*1)); [|by left].
        by destruct (bool_decide _).
      * rewrite lookup_delete_ne by done.
        rewrite (bool_decide_ext (k' ∈ k :: entries.*1) (k' ∈ entries.*1)); [done|].
        rewrite elem_of_cons. split; [by intros [?|?]|by right].
    + exact Hrest.
Qed.

Lemma onClose_spec (s : state) :
  exists s',
    onClose this s = (Normal tt, s') /\
    trace s' = trace s ++ flat_map (fun kv => unsubscribe_effects this kv.2)
                            (map_to_list (connectionSubscriptions s)) /\
    connectionSubscriptions s' = ∅ /\
    heap s' = heap s /\ next s' = next s /\ queue s' = queue s /\
    sendCallbacks s' = sendCallbacks s /\ timers s' = timers s.
Proof.
  destruct (onClose_loop (map_to_list (connectionSubscriptions s)) s)
    as (s' & Hrun & Htr & Hsubs & Hrest).
  - apply NoDup_fst_map_to_list.
  - intros k v. apply elem_of_map_to_list.
  - exists s'. split; [exact Hrun|]. split; [exact Htr|]. split; [|exact Hrest].
    apply map_empty. intros k. rewrite Hsubs. case_bool_decide; [done|].
    destruct (connectionSubscriptions s !! k) as [v|] eqn:Hk; [|done].
    exfalso. apply H. apply list_elem_of_fmap. exists (k, v). split; [done|].
    by apply elem_of_map_to_list.
Qed.

Lemma unsubscribed_handles_app (t1 t2 : list effect) :
  unsubscribed_handles (t1 ++ t2) = unsubscribed_handles t1 ++ unsubscribed_handles t2.
Proof. apply omap_app. Qed.

Lemma unsubscribed_handles_entries (entries : list (string * jsval)) :
  unsubscribed_handles (flat_map (fun kv => unsubscribe_effects this kv.2) entries)
  = entries.*2.
Proof.
  induction entries as [|[k v] entries IH]; [done|].
  change (flat_map _ ((k, v) :: entries))
    with (unsubscribe_effects this v
          ++ flat_map (fun kv => unsubscribe_effects this kv.2) entries).
  rewrite unsubscribed_handles_app, IH.
  unfold unsubscribe_effects. by destruct (onUnsubscribe this).
Qed.

(** C5.  When a connection holding [N] registry entries closes, the trace
    grows by the engine calls of the close listener: the handles passed to
    the engine's unsubscribe are exactly the handles of the [N] entries, one
    call per entry (so [N] calls, pairwise distinct whenever the entries'
    handles are), and the registry is empty afterwards. *)
Theorem close_unsubscribes_every_subscription (fuel N : nat) (s : state) :
  quiescent s ->
  size (connectionSubscriptions s) = N ->
  exists added,
    trace (step this fuel EvClose s) = trace s ++ added /\
    unsubscribed_handles added = (map_to_list (connectionSubscriptions s)).*2 /\
    length (unsubscribed_handles added) = N /\
    (NoDup (map_to_list (connectionSubscriptions s)).*2 -> NoDup (unsubscribed_handles added)) /\
    connectionSubscriptions (step this fuel EvClose s) = ∅.
Proof.
  intros Hq HN.
  destruct (onClose_spec s) as (s' & Hrun & Htr & Hsubs & _ & _ & Hq' & _).
  assert (exists tail, listener this EvClose s = set_trace (trace s' ++ tail) s'
                       /\ unsubscribed_handles tail = []) as (tail & Hl & Htail).
  { simpl. unfold exec, mbind, M_bind. rewrite Hrun. unfold when, emit, modify.
    destruct (onDisconnect this); simpl.
    - by exists [CallOnDisconnect].
    - exists []. by rewrite app_nil_r; destruct s'. }
  unfold step. rewrite Hl, run_microtasks_nil by (simpl; congruence). simpl.
  exists (flat_map (fun kv => unsubscribe_effects this kv.2)
            (map_to_list (connectionSubscriptions s)) ++ tail).
  rewrite unsubscribed_handles_app, Htail, app_nil_r, unsubscribed_handles_entries.
  split; [by rewrite Htr, app_assoc|]. split; [done|].
  split; [by rewrite length_fmap, length_map_to_list|]. done.
Qed.

End Close.

Lemma close_unsubscribes_every_subscription_witness :
  exists added,
    trace (step plain_server 4 EvClose two_subscriptions) = added /\
    length (unsubscribed_handles added) = 2%nat /\
    NoDup (unsubscribed_handles added) /\
    connectionSubscriptions (step plain_server 4 EvClose two_subscriptions) = ∅.
Proof.
  destruct (close_unsubscribes_every_subscription plain_server 4 2 two_subscriptions)
    as (added & Htr & Hh & Hlen & Hnd & Hsubs).
  - reflexivity.
  - by vm_compute.
  - exists added. split; [exact Htr|]. split; [exact Hlen|]. split; [|exact Hsubs].
    apply Hnd. vm_compute. apply NoDup_cons. split; [|apply NoDup_singleton].
    rewrite list_elem_of_singleton. discriminate.
Defined.

(** ** Invalid result of the before-subscribe hook (claim C9) *)

Lemma get_property (v : jsval) (k k' : string) (x : jsval) :
  get v k = Normal x -> get v k' = Normal (property v k').
Proof. unfold property. by destruct v. Qed.

Lemma typeof_not_object_not_promise (v : jsval) :
  String.eqb (typeof v) "object" = false -> is_promise v = false.
Proof. by destruct v. Qed.

(** C9.  In a reachable state with the handshake fulfilled and the queue
    drained, a subscription-start whose
    before-subscribe hook resolves to a value that is not of type object is
    answered by two identical subscription-error frames for that id: the
    first from the inline check of the params continuation, the second from
    the catch continuation that receives the error thrown right after.  The
    engine's subscribe is not called and no handle is installed: the
    registry only loses the entry the start replaced, if there was one. *)
Theorem invalid_params_reported_twice
  (this : SubscriptionServer) (hook : jsval -> jsval -> call_result)
  (fuel : nat) (m : raw_message) (s : state) (initResult value : jsval) :
  onSubscribe this = Some hook ->
  message_has_type SUBSCRIPTION_START m = true ->
  resolves_to (hook (message_value m) (base_params (message_value m) initResult)) value ->
  String.eqb (typeof value) "object" = false ->
  reachable this s -> handshake_fulfilled s initResult -> quiescent s ->
  (4 <= fuel)%nat ->
  let subId := message_id m in
  let replaced := if truthy (registered s subId)
                  then unsubscribe_effects this (registered s subId) else [] in
  trace (step this fuel (EvMessage m) s) =
    trace s ++ [CallOnSubscribe (message_value m) (base_params (message_value m) initResult)]
            ++ replaced
            ++ [Send (invalid_params_frame subId); Send (invalid_params_frame subId)] /\
  connectionSubscriptions (step this fuel (EvMessage m) s) =
    (if truthy (registered s subId)
     then delete (to_key subId) (connectionSubscriptions s)
     else connectionSubscriptions s) /\
  quiescent (step this fuel (EvMessage m) s).
Proof.
  intros Hhook Hm Hres Htype Hr Hinit Hq Hfuel subId replaced.
  pose proof (proj1 (reachable_gated this s Hr)) as Hn. clear Hr.
  pose proof (typeof_not_object_not_promise _ Htype) as Hnp.
  destruct (message_has_type_inv _ _ Hm) as (pm & -> & Hid & Ht).
  pose proof (get_property _ _ "query" _ Ht) as Hquery.
  pose proof (get_property _ _ "variables" _ Ht) as Hvariables.
  pose proof (get_property _ _ "operationName" _ Ht) as HoperationName.
  destruct s as [h n ex q subs cbs tm tr]. unfold handshake_fulfilled, quiescent in *.
  simpl in Hinit, Hq, Hn. subst q.
  subst subId replaced. unfold registered, unsubscribe_effects. simpl connectionSubscriptions.
  simpl message_value in *. simpl trace.
  unfold step, listener, exec. rewrite (onMessage_START _ _ _ Hm). simpl message_value in *.
  unfold base_params in *.
  destruct Hres as [Hr|Hr];
    destruct (truthy (default JUndefined (subs !! to_key (message_id (WellFormed pm))))) eqn:Hex;
    destruct (onUnsubscribe this) eqn:Hun;
    (erewrite (run_microtasks_enough this 4 fuel);
     [ 
     | replay using (rewrite ?Hquery, ?Hvariables, ?HoperationName, ?Hhook, ?Hr, ?Hex, ?Hun, ?Htype);
       reflexivity
     | reflexivity
     | exact Hfuel ]);
    project; rewrite <- ?app_assoc; done.
Qed.

Lemma invalid_params_reported_twice_witness :
  let this := server_with_subscribe (Returns (JNum 3)) in
  let s := established_connection this in
  trace (step this 8 (EvMessage (start_frame "1")) s) =
    trace s
    ++ [CallOnSubscribe (message_value (start_frame "1"))
          (base_params (message_value (start_frame "1")) (JBool true))]
    ++ [Send (invalid_params_frame (JStr "1")); Send (invalid_params_frame (JStr "1"))]
  /\ connectionSubscriptions (step this 8 (EvMessage (start_frame "1")) s) = ∅.
Proof.
  intros this s.
  destruct (invalid_params_reported_twice this (fun _ _ => Returns (JNum 3)) 8
              (start_frame "1") s (JBool true) (JNum 3)) as (Htrace & Hsubs & _).
  - reflexivity.
  - reflexivity.
  - by left.
  - reflexivity.
  - apply reachable_step, reachable_initial.
  - by vm_compute.
  - by vm_compute.
  - lia.
  - split; [exact Htrace|]. rewrite Hsubs. by vm_compute.
Defined.


(** X19.  A before-subscribe hook whose promise is still pending when the
    hook returns, and is fulfilled in a later turn with a value that is not
    of type object: the start turn only calls the hook (and replaces a truthy
    handle); the two identical subscription-error frames follow in the turn
    in which the promise settles, and nothing is registered. *)
Lemma invalid_params_reported_twice_later
  (this : SubscriptionServer) (hook : jsval -> jsval -> call_result)
  (fuel : nat) (m : raw_message) (s : state) (initResult value : jsval) :
  onSubscribe this = Some hook ->
  message_has_type SUBSCRIPTION_START m = true ->
  hook (message_value m) (base_params (message_value m) initResult) = ReturnsPromise None ->
  String.eqb (typeof value) "object" = false ->
  reachable this s -> handshake_fulfilled s initResult -> quiescent s ->
  (4 <= fuel)%nat ->
  let subId := message_id m in
  let replaced := if truthy (registered s subId)
                  then unsubscribe_effects this (registered s subId) else [] in
  let s1 := step this fuel (EvMessage m) s in
  let p := S (S (next s)) in
  p ∈ externals s1 /\
  trace s1 =
    trace s ++ [CallOnSubscribe (message_value m) (base_params (message_value m) initResult)]
            ++ replaced /\
  trace (step this fuel (EvSettle p (Normal value)) s1) =
    trace s1 ++ [Send (invalid_params_frame subId); Send (invalid_params_frame subId)] /\
  connectionSubscriptions (step this fuel (EvSettle p (Normal value)) s1) =
    connectionSubscriptions s1 /\
  quiescent (step this fuel (EvSettle p (Normal value)) s1).
Proof.
  intros Hhook Hm Hr Htype Hreach Hinit Hq Hfuel subId replaced s1 p.
  pose proof (proj1 (reachable_gated this s Hreach)) as Hn. clear Hreach.
  pose proof (typeof_not_object_not_promise _ Htype) as Hnp.
  destruct (message_has_type_inv _ _ Hm) as (pm & -> & Hid & Ht).
  pose proof (get_property _ _ "query" _ Ht) as Hquery.
  pose proof (get_property _ _ "variables" _ Ht) as Hvariables.
  pose proof (get_property _ _ "operationName" _ Ht) as HoperationName.
  destruct s as [h n ex q subs cbs tm tr]. unfold handshake_fulfilled, quiescent in *.
  simpl in Hinit, Hq, Hn. subst q.
  subst subId replaced p. unfold registered, unsubscribe_effects. simpl connectionSubscriptions.
  simpl message_value in *. simpl trace. simpl next. unfold base_params in *.
  assert (forall ex', bool_decide (S (S n) ∈ ({[S (S n)]} ∪ ex' : gset nat)) = true) as Hin.
  { intros ex'. apply bool_decide_eq_true_2. set_solver. }
  destruct (truthy (default JUndefined (subs !! to_key (message_id (WellFormed pm))))) eqn:Hex;
    destruct (onUnsubscribe this) eqn:Hun;
    (eassert (s1 = _) as Hs1;
     [ subst s1; unfold step, listener, exec; rewrite (onMessage_START _ _ _ Hm);
       simpl message_value;
       erewrite (run_microtasks_enough this 4 fuel);
       [ reflexivity
       | replay using (rewrite ?Hquery, ?Hvariables, ?HoperationName, ?Hhook, ?Hr, ?Hex, ?Hun);
         reflexivity
       | reflexivity
       | exact Hfuel ]
     | ]);
    rewrite Hs1; clear Hs1 s1;
    unfold step, listener; project; rewrite Hin;
    (erewrite (run_microtasks_enough this 4 fuel);
     [ 
     | replay using (rewrite ?Htype); reflexivity
     | reflexivity
     | exact Hfuel ]);
    project; rewrite <- ?app_assoc; (split; [set_solver|done]).
Qed.
(** ** Repeated handshake-init frames (claim C1) *)

Section Init.

Context (this : SubscriptionServer).

Lemma message_payload (m : raw_message) :
  message_has_type INIT m = true ->
  get (message_value m) "payload" = Normal (property (message_value m) "payload").
Proof.
  intros (pm & -> & _ & Ht)%message_has_type_inv. simpl. by eapply get_property.
Qed.

Lemma immediate_outcome_inv (r : call_result) (o : completion jsval) :
  immediate_outcome r = Some o ->
  (exists v, r = Returns v /\ is_promise v = false /\ o = Normal v) \/
  (exists e, r = Throws e /\ o = Thrown e) \/
  (exists v, r = ReturnsPromise (Some (Normal v)) /\ is_promise v = false /\ o = Normal v) \/
  (exists e, r = ReturnsPromise (Some (Thrown e)) /\ o = Thrown e).
Proof.
  destruct r as [v|e|[[v|e]|]]; simpl; try done.
  - destruct (is_promise v) eqn:?; [done|]. intros [= <-]. left. by exists v.
  - intros [= <-]. right. left. by exists e.
  - destruct (is_promise v) eqn:?; [done|]. intros [= <-]. right. right. left. by exists v.
  - intros [= <-]. right. right. right. by exists e.
Qed.

Lemma init_response_inv (o : completion jsval) (frame : jsval) :
  init_response o = Some frame ->
  (exists v, o = Normal v /\ is_false v = true
             /\ frame = init_fail_frame (JStr "Prohibited connection!")) \/
  (exists v, o = Normal v /\ is_false v = false /\ frame = init_success_frame) \/
  (exists e text, o = Thrown e /\ get e "message" = Normal text /\ frame = init_fail_frame text).
Proof.
  destruct o as [v|e]; simpl.
  - intros [= <-]. destruct (is_false v) eqn:Hv; [left|right; left]; by exists v.
  - destruct (get e "message") as [text|] eqn:He; [|done].
    intros [= <-]. right. right. by exists e, text.
Qed.

(** A handshake-init on a connection whose handshake value is already
    settled: the hook runs again, its result is dropped, and the settled
    value is answered once more. *)
Lemma init_step_settled (fuel : nat) (m : raw_message) (s : state)
  (o : completion jsval) (frame : jsval) :
  message_has_type INIT m = true ->
  is_Some (connect_outcome this m) ->
  heap s !! initPromise = Some (settled_state o) ->
  quiescent s -> (initPromise < next s)%nat ->
  init_response o = Some frame ->
  (8 <= fuel)%nat ->
  trace (step this fuel (EvMessage m) s) = trace s ++ connect_calls this m ++ [Send frame] /\
  sendCallbacks (step this fuel (EvMessage m) s) = sendCallbacks s ++ [frame] /\
  heap (step this fuel (EvMessage m) s) !! initPromise = Some (settled_state o) /\
  quiescent (step this fuel (EvMessage m) s) /\
  (initPromise < next (step this fuel (EvMessage m) s))%nat.
Proof.
  intros Hm [o' Ho'] Hinit Hq Hn Hframe Hfuel.
  pose proof (message_payload m Hm) as Hpayload.
  unfold step, listener, exec. rewrite (onMessage_INIT _ _ _ Hm).
  unfold connect_outcome, connect_calls in *.
  destruct s as [h n ex q subs cbs tm tr]. unfold quiescent in *.
  simpl in Hinit, Hq, Hn. subst q. simpl trace. simpl sendCallbacks.
  destruct (onConnect this) as [hook|] eqn:Hhook.
  - apply immediate_outcome_inv in Ho'
      as [(v' & Hr & Hv' & _)|[(e' & Hr & _)|[(v' & Hr & Hv' & _)|(e' & Hr & _)]]];
    apply init_response_inv in Hframe
      as [(v & -> & Hv & ->)|[(v & -> & Hv & ->)|(e & text & -> & He & ->)]];
    simpl in Hinit;
    (erewrite (run_microtasks_enough this 8 fuel);
     [ | replay using (rewrite ?Hpayload, ?Hhook, ?Hr, ?Hv, ?He); reflexivity
       | reflexivity | exact Hfuel ]);
    project; rewrite <- ?app_assoc; (split; [done|]); (split; [done|]); (split; [lookup_solve|]);
    (split; [done|lia]).
  - apply init_response_inv in Hframe
      as [(v & -> & Hv & ->)|[(v & -> & Hv & ->)|(e & text & -> & He & ->)]];
    simpl in Hinit;
    (erewrite (run_microtasks_enough this 8 fuel);
     [ | replay using (rewrite ?Hpayload, ?Hhook, ?Hv, ?He); reflexivity
       | reflexivity | exact Hfuel ]);
    project; rewrite <- ?app_assoc; (split; [done|]); (split; [done|]); (split; [lookup_solve|]);
    (split; [done|lia]).
Qed.

(** The first handshake-init: the hook's outcome settles the handshake
    value, and the value is answered. *)
Lemma init_step_first (fuel : nat) (m : raw_message) (s : state)
  (o : completion jsval) (frame : jsval) :
  message_has_type INIT m = true ->
  connect_outcome this m = Some o ->
  heap s !! initPromise = Some (Pending false []) ->
  quiescent s -> (initPromise < next s)%nat ->
  init_response o = Some frame ->
  (8 <= fuel)%nat ->
  trace (step this fuel (EvMessage m) s) = trace s ++ connect_calls this m ++ [Send frame] /\
  sendCallbacks (step this fuel (EvMessage m) s) = sendCallbacks s ++ [frame] /\
  heap (step this fuel (EvMessage m) s) !! initPromise = Some (settled_state o) /\
  quiescent (step this fuel (EvMessage m) s) /\
  (initPromise < next (step this fuel (EvMessage m) s))%nat.
Proof.
  intros Hm Ho Hinit Hq Hn Hframe Hfuel.
  pose proof (message_payload m Hm) as Hpayload.
  unfold step, listener, exec. rewrite (onMessage_INIT _ _ _ Hm).
  unfold connect_outcome, connect_calls in *.
  destruct s as [h n ex q subs cbs tm tr]. unfold quiescent in *.
  simpl in Hinit, Hq, Hn. subst q. simpl trace. simpl sendCallbacks.
  destruct (onConnect this) as [hook|] eqn:Hhook.
  - apply immediate_outcome_inv in Ho
      as [(v' & Hr & Hv' & ->)|[(e' & Hr & ->)|[(v' & Hr & Hv' & ->)|(e' & Hr & ->)]]];
    apply init_response_inv in Hframe
      as [(v & [= <-] & Hv & ->)|[(v & [= <-] & Hv & ->)|(e & text & [= <-] & He & ->)]];
    (erewrite (run_microtasks_enough this 8 fuel);
     [ | replay using (rewrite ?Hpayload, ?Hhook, ?Hr, ?Hv, ?He); reflexivity
       | reflexivity | exact Hfuel ]);
    project; rewrite <- ?app_assoc; (split; [done|]); (split; [done|]); (split; [lookup_solve|]);
    (split; [done|lia]).
  - injection Ho as <-.
    apply init_response_inv in Hframe
      as [(v & [= <-] & Hv & ->)|[(v & [= <-] & Hv & ->)|(e & text & [=] & He & ->)]];
    try discriminate Hv;
    (erewrite (run_microtasks_enough this 8 fuel);
     [ | replay using (rewrite ?Hpayload, ?Hhook, ?Hv); reflexivity
       | reflexivity | exact Hfuel ]);
    project; rewrite <- ?app_assoc; (split; [done|]); (split; [done|]); (split; [lookup_solve|]);
    (split; [done|lia]).
Qed.

Lemma run_inits_settled (fuel : nat) (ms : list raw_message) (s : state)
  (o : completion jsval) (frame : jsval) :
  forallb (message_has_type INIT) ms = true ->
  Forall (fun m => is_Some (connect_outcome this m)) ms ->
  heap s !! initPromise = Some (settled_state o) ->
  quiescent s -> (initPromise < next s)%nat ->
  init_response o = Some frame ->
  (8 <= fuel)%nat ->
  trace (run this fuel (map EvMessage ms) s) =
    trace s ++ flat_map (fun m => connect_calls this m ++ [Send frame]) ms /\
  heap (run this fuel (map EvMessage ms) s) !! initPromise = Some (settled_state o) /\
  quiescent (run this fuel (map EvMessage ms) s).
Proof.
  intros Hms Hos Hinit Hq Hn Hframe Hfuel. revert s Hms Hos Hinit Hq Hn.
  induction ms as [|m ms IH]; intros s Hms Hos Hinit Hq Hn.
  - simpl. by rewrite app_nil_r.
  - apply andb_true_iff in Hms as [Hm Hms]. apply Forall_cons in Hos as [Ho Hos].
    destruct (init_step_settled fuel m s o frame Hm Ho Hinit Hq Hn Hframe Hfuel)
      as (Htr & _ & Hinit' & Hq' & Hn').
    destruct (IH _ Hms Hos Hinit' Hq' Hn') as (Htr2 & ? & ?).
    split; [|done]. simpl. rewrite Htr2, Htr. by rewrite <- !app_assoc.
Qed.

Lemma init_response_is_response (o : completion jsval) (frame : jsval) :
  init_response o = Some frame -> is_init_response (Send frame) = true.
Proof.
  intros [(v & _ & _ & ->)|[(v & _ & _ & ->)|(e & text & _ & _ & ->)]]%init_response_inv;
    reflexivity.
Qed.

Lemma count_init_responses (frame : jsval) (ms : list raw_message) :
  is_init_response (Send frame) = true ->
  length (filter is_init_response
            (flat_map (fun m => connect_calls this m ++ [Send frame]) ms)) = length ms.
Proof.
  intros Hf. induction ms as [|m ms IH]; [done|].
  cbn [flat_map length]. rewrite <- app_assoc, !filter_app, !length_app, IH.
  rewrite (filter_cons_True _ (Send frame)) by (by rewrite Hf).
  unfold connect_calls. destruct (onConnect this); [|done].
  by rewrite filter_cons_False by (by intros []).
Qed.

Lemma count_connect_calls (frame : jsval) (ms : list raw_message) :
  is_Some (onConnect this) ->
  length (filter is_connect_call
            (flat_map (fun m => connect_calls this m ++ [Send frame]) ms)) = length ms.
Proof.
  intros [hook Hhook]. induction ms as [|m ms IH]; [done|].
  cbn [flat_map length]. rewrite <- app_assoc, !filter_app, !length_app, IH.
  rewrite (filter_cons_False _ (Send frame)) by (by intros []).
  unfold connect_calls. rewrite Hhook. by rewrite filter_cons_True.
Qed.

(** C1, as amended.  The handshake value is settled once, by the outcome of
    the connect hook for the first handshake-init frame (later resolutions
    are ignored).  But every handshake-init frame runs the connect hook
    again and is answered by its own response to that one settled value: a
    burst of [k] handshake-init frames yields [k] hook calls and [k]
    identical handshake-acknowledged or handshake-error frames.  (The hook
    is taken to settle at once, and a rejection reason to have readable
    properties.) *)
Theorem every_handshake_init_is_answered
  (fuel : nat) (m : raw_message) (ms : list raw_message)
  (o : completion jsval) (frame : jsval) :
  forallb (message_has_type INIT) (m :: ms) = true ->
  connect_outcome this m = Some o ->
  Forall (fun m' => is_Some (connect_outcome this m')) ms ->
  init_response o = Some frame ->
  (8 <= fuel)%nat ->
  let s := run this fuel (map EvMessage (m :: ms)) initial in
  heap s !! initPromise = Some (settled_state o) /\
  trace s = flat_map (fun m' => connect_calls this m' ++ [Send frame]) (m :: ms) /\
  length (filter is_init_response (trace s)) = length (m :: ms) /\
  (is_Some (onConnect this) ->
   length (filter is_connect_call (trace s)) = length (m :: ms)) /\
  quiescent s.
Proof.
  intros Hms Ho Hos Hframe Hfuel s.
  apply andb_true_iff in Hms as [Hm Hms].
  destruct (init_step_first fuel m initial o frame Hm Ho) as (Htr & _ & Hinit & Hq & Hn);
    [done|done|unfold initPromise; simpl; lia|done|done|].
  destruct (run_inits_settled fuel ms _ o frame Hms Hos Hinit Hq Hn Hframe Hfuel)
    as (Htr2 & Hinit2 & Hq2).
  assert (trace s = flat_map (fun m' => connect_calls this m' ++ [Send frame]) (m :: ms))
    as Htrace.
  { subst s. simpl. rewrite Htr2, Htr. simpl. by rewrite <- app_assoc. }
  split; [done|]. split; [done|]. rewrite Htrace.
  split; [apply count_init_responses; by eapply init_response_is_response|].
  split; [apply count_connect_calls|done].
Qed.

End Init.

(** C1, as stated, fails: two handshake-init frames are answered twice, and
    the connect hook runs for each of them. *)
Lemma repeated_init_is_answered_again : ~ one_handshake_response_per_connection.
Proof.
  intros H.
  destruct (H (server_with_connect (Returns (JBool true))) 8%nat [init_frame; init_frame])
    as [Hresponses _]; [done|done|lia|].
  vm_compute in Hresponses. discriminate Hresponses.
Qed.

Lemma every_handshake_init_is_answered_witness :
  let this := server_with_connect (Returns (JBool true)) in
  let s := run this 8 (map EvMessage [init_frame; init_frame; init_frame]) initial in
  length (filter is_init_response (trace s)) = 3%nat /\
  length (filter is_connect_call (trace s)) = 3%nat.
Proof.
  intros this s.
  destruct (every_handshake_init_is_answered this 8 init_frame [init_frame; init_frame]
              (Normal (JBool true)) init_success_frame)
    as (_ & _ & Hresponses & Hcalls & _).
  - reflexivity.
  - reflexivity.
  - repeat constructor; by eexists.
  - reflexivity.
  - lia.
  - split; [exact Hresponses|]. apply Hcalls. by eexists.
Defined.

(** ** The falsy handle (claims C4 and C8) *)

#[global] Instance silently_reflexive : Reflexive silently.
Proof. intros s. split; [apply no_effect_refl|done]. Qed.

#[global] Instance silently_transitive : Transitive silently.
Proof.
  intros s1 s2 s3 [H1 I1] [H2 I2]. split; [by eapply no_effect_trans|]. auto.
Qed.

#[global] Instance registry_grows_reflexive : Reflexive registry_grows.
Proof. by intros s k. Qed.

#[global] Instance quietly_reflexive : Reflexive quietly.
Proof. intros s H. split; [done|]. split; reflexivity. Qed.

#[global] Instance quietly_transitive : Transitive quietly.
Proof.
  intros s1 s2 s3 H1 H2 Hw. destruct (H1 Hw) as (Hw2 & Ha & Hg).
  destruct (H2 Hw2) as (Hw3 & Ha' & Hg'). split; [done|]. split.
  - by etransitivity.
  - intros k Hk. by apply Hg', Hg.
Qed.

#[global] Instance keeping_reflexive (subId : jsval) : Reflexive (keeping subId).
Proof. intros s _ H. split; [done|]. split; [reflexivity|done]. Qed.

#[global] Instance keeping_transitive (subId : jsval) : Transitive (keeping subId).
Proof.
  intros s1 s2 s3 H1 H2 Hf Hw. destruct (H1 Hf Hw) as (Hw2 & Ha & Hs).
  assert (truthy (registered s2 subId) = false) as Hf2.
  { unfold registered in *. by rewrite Hs. }
  destruct (H2 Hf2 Hw2) as (Hw3 & Ha' & Hs'). split; [done|]. split.
  - by etransitivity.
  - congruence.
Qed.

Lemma silently_quietly (s s' : state) : silently s s' -> quietly s s'.
Proof.
  intros [He Hi] Hw. split; [auto|]. split; [by apply no_effect_only_adds|].
  destruct He as (_ & Hs & _). intros k. by rewrite Hs.
Qed.

Lemma silently_keeping (subId : jsval) (s s' : state) : silently s s' -> keeping subId s s'.
Proof.
  intros [He Hi] _ Hw. split; [auto|]. split; [by apply no_effect_only_adds|].
  by destruct He as (_ & Hs & _).
Qed.

Section Quiet.

Context (this : SubscriptionServer).

Lemma waiting_enqueue (js : list job) (s : state) :
  forallb job_quiet js = true ->
  no_subscription_waiting s -> no_subscription_waiting (enqueue js s).
Proof. intros Hjs [Hh Hq]. split; [done|]. simpl. by rewrite forallb_app, Hq, Hjs. Qed.

Lemma waiting_insert (p : nat) (st : pstate) (s : state) :
  pstate_quiet st = true ->
  no_subscription_waiting s -> no_subscription_waiting (set_heap (insert p st) s).
Proof. intros Hst [Hh Hq]. split; [|done]. simpl. by apply map_Forall_insert_2. Qed.

Lemma waiting_reactions (p : nat) (b : bool) (rs : list reaction) (s : state) :
  no_subscription_waiting s -> heap s !! p = Some (Pending b rs) ->
  forallb reaction_quiet rs = true.
Proof. intros [Hh _] Hp. exact (Hh p _ Hp). Qed.

Lemma quiet_reaction_jobs (rs : list reaction) (o : completion jsval) :
  forallb reaction_quiet rs = true ->
  forallb job_quiet (map (fun r => ReactionJob r o) rs) = true.
Proof.
  induction rs as [|r rs IH]; [done|]. simpl.
  intros [Hr Hrs]%andb_true_iff. by rewrite Hr, IH.
Qed.

Lemma silently_settle (p : nat) (o : completion jsval) (s : state) : silently s (settle p o s).
Proof.
  split; [apply no_effect_settle|]. intros Hw. unfold settle.
  destruct (heap s !! p) as [[b rs| |]|] eqn:Hp; try done.
  apply waiting_enqueue.
  - apply quiet_reaction_jobs. by eapply waiting_reactions.
  - apply waiting_insert; [by destruct o|done].
Qed.

Lemma silently_resolve_with (p : nat) (v : jsval) (s : state) :
  silently s (resolve_with p v s).
Proof.
  destruct v; try apply silently_settle.
  split; [apply no_effect_resolve_with|]. intros Hw. unfold resolve_with.
  destruct (heap s !! p) as [[b rs| |]|] eqn:Hp; try done.
  apply waiting_enqueue; [done|]. apply waiting_insert; [|done].
  simpl. by eapply waiting_reactions.
Qed.

Lemma silently_resolve_function (p : nat) (v : jsval) (s : state) :
  silently s (resolve_function p v s).
Proof.
  unfold resolve_function.
  destruct (heap s !! p) as [[[] ?| |]|]; try reflexivity. apply silently_resolve_with.
Qed.

Lemma silently_reject_function (p : nat) (e : jsval) (s : state) :
  silently s (reject_function p e s).
Proof.
  unfold reject_function.
  destruct (heap s !! p) as [[[] ?| |]|]; try reflexivity. apply silently_settle.
Qed.

Lemma silently_then (p : nat) (f g : option handler) :
  from_option handler_quiet true f = true ->
  from_option handler_quiet true g = true ->
  respects silently (then_ p f g).
Proof.
  intros Hf Hg s. split; [apply no_effect_then|]. intros Hw. unfold then_. simpl.
  assert (reaction_quiet (Reaction f g (next s)) = true) as Hr.
  { unfold reaction_quiet. simpl. by rewrite Hf, Hg. }
  assert (no_subscription_waiting
            (set_next (S (next s)) (set_heap (insert (next s) (Pending false [])) s))) as Hw1.
  { destruct Hw as [Hh Hq]. split; [|done]. simpl. by apply map_Forall_insert_2. }
  destruct (heap s !! p) as [[b rs| |]|] eqn:Hp; try done.
  - apply waiting_insert; [|exact Hw1]. simpl. rewrite forallb_app. simpl. rewrite Hr.
    rewrite (waiting_reactions p b rs s Hw Hp). done.
  - apply waiting_enqueue; [|exact Hw1]. simpl. by rewrite Hr.
  - apply waiting_enqueue; [|exact Hw1]. simpl. by rewrite Hr.
Qed.

Lemma silently_new_promise (st : pstate) :
  pstate_quiet st = true -> respects silently (new_promise st).
Proof.
  intros Hst s. split; [done|]. intros [Hh Hq]. split; [|done].
  simpl. by apply map_Forall_insert_2.
Qed.

Lemma silently_Promise_resolve (v : jsval) : respects silently (Promise_resolve v).
Proof. destruct v; try (by apply silently_new_promise); by intros s. Qed.

Lemma silently_call (r : call_result) : respects silently (call r).
Proof.
  destruct r as [v|e|[o|]]; simpl; try (intros s; simpl; reflexivity).
  - apply respects_bind; [apply _| |intros p; apply respects_ret; apply _].
    apply silently_new_promise. by destruct o.
  - apply respects_bind; [apply _|by apply silently_new_promise|intros p].
    apply respects_bind; [apply _| |intros ?; apply respects_ret; apply _].
    apply respects_modify. intros s. by split.
Qed.

Lemma quietly_emit (e : effect) : not_unsubscribe e = true -> respects quietly (emit e).
Proof.
  intros He s Hw. split; [exact Hw|]. split; [|by intros k].
  exists [e]. simpl. by rewrite He.
Qed.

Lemma keeping_emit (subId : jsval) (e : effect) :
  not_unsubscribe e = true -> respects (keeping subId) (emit e).
Proof.
  intros He s _ Hw. split; [exact Hw|]. split; [|reflexivity].
  exists [e]. simpl. by rewrite He.
Qed.

Lemma quietly_silent {A : Type} (m : M A) : respects silently m -> respects quietly m.
Proof. apply respects_weaken, silently_quietly. Qed.

Lemma keeping_silent {A : Type} (subId : jsval) (m : M A) :
  respects silently m -> respects (keeping subId) m.
Proof. apply respects_weaken, silently_keeping. Qed.

(** Every continuation other than those of start and end frames. *)
Lemma quietly_run_handler (h : handler) (arg : jsval) :
  handler_quiet h = true -> respects quietly (run_handler this h arg).
Proof.
  destruct h; simpl; try done; intros _.
  - unfold init_then. respects_structure.
  - unfold init_catch. respects_structure.
  - unfold init_send, sendInitResult. respects_structure.
    + by apply quietly_emit.
    + apply respects_modify. intros s Hw. split; [exact Hw|]. split; [|by intros k].
      exists []. simpl. by rewrite app_nil_r.
  - unfold params_then, sendSubscriptionFail. respects_structure;
      try (by apply quietly_emit); apply quietly_silent, silently_call.
  - unfold subscribed_then, subscriptions_set, sendSubscriptionSuccess. respects_structure.
    + apply respects_modify. intros s Hw. split; [exact Hw|].
      split; [exists []; simpl; by rewrite app_nil_r|].
      intros k Hk. simpl. destruct (decide (to_key subId = k)) as [->|Hne].
      * rewrite lookup_insert_eq. by eexists.
      * by rewrite lookup_insert_ne.
    + by apply quietly_emit.
  - unfold start_catch, sendSubscriptionFail. respects_structure; by apply quietly_emit.
  - respects_structure. apply respects_modify. intros s.
    apply silently_quietly, silently_resolve_with.
  - respects_structure. apply respects_modify. intros s.
    apply silently_quietly, silently_settle.
Qed.

Lemma reaction_quiet_selected (r : reaction) (o : completion jsval) (h : handler) :
  reaction_quiet r = true -> selected_handler r o = Some h -> handler_quiet h = true.
Proof.
  unfold reaction_quiet. intros [Hf Hr]%andb_true_iff.
  destruct o; simpl; intros Hs; [rewrite Hs in Hf|rewrite Hs in Hr]; done.
Qed.

Lemma quietly_run_job (j : job) (s : state) :
  job_quiet j = true -> quietly s (run_job this j s).
Proof.
  destruct j as [r o|target thenable]; simpl; intros Hj.
  - destruct (selected_handler r o) as [h|] eqn:Hs.
    + pose proof (quietly_run_handler h (settled_value o)
                    (reaction_quiet_selected r o h Hj Hs) s) as Hh.
      destruct (run_handler this h (settled_value o) s) as [[v|e] s']; simpl in Hh.
      * etransitivity; [exact Hh|]. apply silently_quietly, silently_resolve_function.
      * etransitivity; [exact Hh|]. apply silently_quietly, silently_reject_function.
    + apply silently_quietly, silently_settle.
  - apply silently_quietly. by apply (silently_then thenable).
Qed.

Lemma quietly_run_microtasks (fuel : nat) (s : state) :
  quietly s (run_microtasks this fuel s).
Proof.
  revert s. induction fuel as [|fuel IH]; intros s; [reflexivity|].
  simpl. destruct (queue s) as [|j rest] eqn:Hq; [reflexivity|].
  intros Hw.
  assert (job_quiet j = true /\ no_subscription_waiting (set_queue rest s)) as [Hj Hw'].
  { destruct Hw as [Hh Hjs]. rewrite Hq in Hjs. simpl in Hjs.
    apply andb_true_iff in Hjs as [Hj Hjs]. by repeat split. }
  assert (quietly s (set_queue rest s)) as H0.
  { intros _. split; [done|]. split; [|by intros k]. exists []. simpl. by rewrite app_nil_r. }
  assert (quietly s (run_microtasks this fuel (run_job this j (set_queue rest s)))) as H.
  { etransitivity; [exact H0|]. etransitivity; [by apply quietly_run_job|apply IH]. }
  by apply H.
Qed.

(** The start continuation, on a registry whose entry under the id is falsy. *)
Lemma keeping_existing {A : Type} (subId : jsval) (f : jsval -> M A) :
  (forall existing, truthy existing = false -> respects (keeping subId) (f existing)) ->
  respects (keeping subId) (subscriptions_get (to_key subId) ≫= f).
Proof.
  intros Hf s Hfalsy Hw. unfold mbind, M_bind, subscriptions_get.
  by apply (Hf (registered s subId) Hfalsy s).
Qed.

Lemma keeping_start_then (parsedMessage subId initResult : jsval) :
  respects (keeping subId) (start_then this parsedMessage subId initResult).
Proof.
  unfold start_then.
  do 3 (apply respects_bind; [apply _|apply respects_lift; apply _|intros ?]).
  apply respects_bind; [apply _|apply keeping_silent, silently_Promise_resolve|intros ?].
  apply respects_bind; [apply _| |intros promisedParams].
  { destruct (onSubscribe this) as [hook|]; [|apply respects_ret; apply _].
    apply respects_bind; [apply _|by apply keeping_emit|intros ?].
    apply respects_bind; [apply _|apply keeping_silent, silently_call|intros ?].
    apply keeping_silent, silently_Promise_resolve. }
  apply keeping_existing. intros existing ->. unfold when, catch_.
  respects_structure; by apply keeping_silent, silently_then.
Qed.

End Quiet.

Lemma typeof_zero_defined : String.eqb (typeof (JNum 0)) "undefined" = false.
Proof. done. Qed.

(** A start frame, on a fulfilled handshake, whose id is registered with a
    falsy handle: nothing is unsubscribed during the whole turn, and the
    entry is never removed. *)
Lemma start_keeps_falsy_handle (this : SubscriptionServer) (fuel : nat) (m : raw_message)
  (s : state) (initResult : jsval) :
  handshake_fulfilled s initResult -> quiescent s -> no_subscription_waiting s ->
  message_has_type SUBSCRIPTION_START m = true ->
  truthy (registered s (message_id m)) = false ->
  only_adds not_unsubscribe s (step this fuel (EvMessage m) s) /\
  registry_grows s (step this fuel (EvMessage m) s).
Proof.
  intros Hinit Hq Hw Hm Hfalsy.
  unfold step, listener, exec. rewrite (onMessage_START _ _ _ Hm).
  destruct s as [h n ex q subs cbs tm tr]. unfold handshake_fulfilled, quiescent in *.
  simpl in Hinit, Hq. subst q.
  set (pm := message_value m). set (subId := message_id m) in *.
  unfold case_SUBSCRIPTION_START, mbind, M_bind.
  rewrite (then__fulfilled _ _ _ _ _ _ _ _ _ _ _ _ Hinit). cbn [mret M_ret app].
  destruct fuel as [|fuel].
  { split; [|by intros k]. exists []. simpl. by rewrite app_nil_r. }
  rewrite run_microtasks_step.
  set (s1 := State (<[n:=Pending false []]> h) (S n) ex [] subs cbs tm tr).
  assert (no_subscription_waiting s1) as Hw1.
  { destruct Hw as [Hh _]. split; [|done]. simpl. by apply map_Forall_insert_2. }
  assert (truthy (registered s1 subId) = false) as Hfalsy1 by exact Hfalsy.
  unfold run_job. cbn [selected_handler on_fulfilled settled_value run_handler derived].
  pose proof (keeping_start_then this pm subId initResult s1 Hfalsy1 Hw1) as (Hw2 & Ha2 & Hs2).
  destruct (start_then this pm subId initResult s1) as [c s2]. simpl in Hw2, Ha2, Hs2.
  assert (exists s3, (match c with
                      | Normal v => resolve_function n v s2
                      | Thrown e => reject_function n e s2
                      end) = s3 /\ silently s2 s3) as (s3 & -> & [He3 Hi3]).
  { destruct c; eexists; (split; [reflexivity|]);
      [apply silently_resolve_function|apply silently_reject_function]. }
  destruct (quietly_run_microtasks this fuel s3 (Hi3 Hw2)) as (_ & Ha4 & Hg4).
  split.
  - transitivity s3; [|exact Ha4]. transitivity s2; [|by apply no_effect_only_adds].
    exact Ha2.
  - intros k Hk. apply Hg4. destruct He3 as (_ & -> & _). by rewrite Hs2.
Qed.

(** C8.  In a reachable state, let the handshake be fulfilled, the queue
    drained, and a subscription id be registered with the handle 0.  A subscription-start frame for that id
    goes through its whole turn (hook, subscribe, installation of the new
    handle) without a single call to the engine's unsubscribe and without
    the entry being removed: the duplicate check reads the stored 0 as "no
    subscription".  A subscription-end frame for the same id does unsubscribe
    handle 0 and removes the entry: its check only asks whether the entry is
    defined. *)
Theorem zero_handle_kept_by_start_removed_by_end
  (this : SubscriptionServer) (fuel : nat) (start stop : raw_message)
  (s : state) (initResult : jsval) :
  reachable this s -> handshake_fulfilled s initResult -> quiescent s ->
  message_has_type SUBSCRIPTION_START start = true ->
  message_has_type SUBSCRIPTION_END stop = true ->
  message_id stop = message_id start ->
  connectionSubscriptions s !! to_key (message_id start) = Some (JNum 0) ->
  (1 <= fuel)%nat ->
  (only_adds not_unsubscribe s (step this fuel (EvMessage start) s) /\
   is_Some (connectionSubscriptions (step this fuel (EvMessage start) s)
              !! to_key (message_id start))) /\
  (trace (step this fuel (EvMessage stop) s) = trace s ++ unsubscribe_effects this (JNum 0) /\
   connectionSubscriptions (step this fuel (EvMessage stop) s) =
     delete (to_key (message_id start)) (connectionSubscriptions s)).
Proof.
  intros Hr Hinit Hq Hstart Hstop Hid Hzero Hfuel.
  pose proof (reachable_gated this s Hr) as Hg. pose proof (proj1 Hg) as Hn.
  assert (no_subscription_waiting s) as Hw.
  { apply settled_nothing_waiting; [done|done|]. by exists (Normal initResult). }
  clear Hr Hg. split.
  - destruct (start_keeps_falsy_handle this fuel start s initResult) as [Ha Hg]; try done.
    { unfold registered. by rewrite Hzero. }
    split; [done|]. apply Hg. by eexists.
  - unfold step, listener, exec. rewrite (onMessage_END _ _ _ Hstop). rewrite Hid.
    destruct s as [h n ex q subs cbs tm tr]. unfold handshake_fulfilled, quiescent in *.
    simpl in Hinit, Hq, Hn, Hzero. subst q. unfold unsubscribe_effects.
    destruct (onUnsubscribe this) eqn:Hun;
      (erewrite (run_microtasks_enough this 1 fuel);
       [ | replay using (rewrite ?Hzero, ?Hun, ?typeof_zero_defined; cbn [default from_option id]);
           reflexivity
         | reflexivity | exact Hfuel ]);
      project; by rewrite <- ?app_assoc.
Qed.

Lemma zero_handle_kept_by_start_removed_by_end_witness :
  let s := zero_handle_connection in
  (only_adds not_unsubscribe s (step plain_server 8 (EvMessage (start_frame "1")) s) /\
   is_Some (connectionSubscriptions (step plain_server 8 (EvMessage (start_frame "1")) s)
              !! "1")) /\
  (trace (step plain_server 8 (EvMessage (end_frame "1")) s)
     = trace s ++ [EngineUnsubscribe (JNum 0)] /\
   connectionSubscriptions (step plain_server 8 (EvMessage (end_frame "1")) s)
     = delete "1" (connectionSubscriptions s)).
Proof.
  intros s.
  apply (zero_handle_kept_by_start_removed_by_end plain_server 8
           (start_frame "1") (end_frame "1") s (JBool true)).
  - apply reachable_run, reachable_initial.
  - by vm_compute.
  - by vm_compute.
  - reflexivity.
  - reflexivity.
  - reflexivity.
  - by vm_compute.
  - lia.
Defined.

(** C4 at its failing input.  The engine handed out handle 0 for id "1";
    a second subscription-start for "1" then reaches the engine's subscribe
    with no unsubscribe call before it: the turn adds exactly the subscribe
    call and the success frame to the trace, and the old subscription stays
    alive in the engine. *)
Theorem restart_over_zero_handle_does_not_unsubscribe :
  connectionSubscriptions zero_handle_connection !! "1" = Some (JNum 0) /\
  trace (step plain_server 8 (EvMessage (start_frame "1")) zero_handle_connection) =
    trace zero_handle_connection
    ++ [EngineSubscribe (start_params (start_frame "1") (JBool true));
        Send (subscription_success_frame (JStr "1"))].
Proof. split; by vm_compute. Qed.

(** For comparison, the same exchange when the engine hands out handle 7:
    the old handle is unsubscribed before the new subscribe call. *)
Lemma restart_over_nonzero_handle_unsubscribes_first :
  connectionSubscriptions nonzero_handle_connection !! "1" = Some (JNum 7) /\
  trace (step (server_with_handle 7) 8 (EvMessage (start_frame "1")) nonzero_handle_connection) =
    trace nonzero_handle_connection
    ++ [EngineUnsubscribe (JNum 7);
        EngineSubscribe (start_params (start_frame "1") (JBool true));
        Send (subscription_success_frame (JStr "1"))].
Proof. split; by vm_compute. Qed.

(** ** Handshake rejection (claim C3) *)

(** The part of C3 that concerns closure: once the transport reports the
    handshake-error frame as written, a 10 ms timer is armed, and when it
    fires the connection is closed with code 1011 and terminated. *)
Lemma handshake_error_closes_after_flush
  (this : SubscriptionServer) (fuel : nat) (s : state) (text : jsval) (rest : list jsval) :
  sendCallbacks s = init_fail_frame text :: rest -> quiescent s ->
  trace (step this fuel EvSent s) = trace s ++ [SetTimeout 10] /\
  trace (step this fuel EvTimeout (step this fuel EvSent s))
    = trace s ++ [SetTimeout 10; Close 1011; Terminate].
Proof.
  intros Hcb Hq. destruct s as [h n ex q subs cbs tm tr]. unfold quiescent in Hq.
  simpl in Hcb, Hq. subst q cbs. unfold step.
  assert (listener this EvSent (State h n ex [] subs (init_fail_frame text :: rest) tm tr)
          = State h n ex [] subs rest (S tm) (tr ++ [SetTimeout 10])) as -> by reflexivity.
  rewrite run_microtasks_done.
  assert (listener this EvTimeout (State h n ex [] subs rest (S tm) (tr ++ [SetTimeout 10]))
          = State h n ex [] subs rest tm ((tr ++ [SetTimeout 10]) ++ [Close 1011] ++ [Terminate]))
    as ->.
  { simpl. unfold exec. simpl. by rewrite <- !app_assoc. }
  rewrite run_microtasks_done. simpl. by rewrite <- !app_assoc.
Qed.

(** X20.  When the first handshake-init of a connection meets a rejection
    (the connect hook throws or rejects with an error that has a message, or
    it returns [false]), the handshake-error frame with the rejection's text
    is the only frame sent, and once the transport has written it the 10 ms
    timer is armed and the connection is closed with 1011 and terminated. *)
Lemma rejection_reported_then_closed
  (this : SubscriptionServer) (fuel : nat) (m : raw_message)
  (o : completion jsval) (text : jsval) :
  message_has_type INIT m = true ->
  connect_outcome this m = Some o ->
  init_response o = Some (init_fail_frame text) ->
  (8 <= fuel)%nat ->
  trace (run this fuel [EvMessage m; EvSent; EvTimeout] initial) =
    connect_calls this m
    ++ [Send (init_fail_frame text); SetTimeout 10; Close 1011; Terminate].
Proof.
  intros Hm Ho Hframe Hfuel.
  destruct (init_step_first this fuel m initial o (init_fail_frame text) Hm Ho)
    as (Htr & Hcb & _ & Hq & _);
    [done|done|unfold initPromise; simpl; lia|exact Hframe|done|].
  destruct (handshake_error_closes_after_flush this fuel
              (step this fuel (EvMessage m) initial) text [] Hcb Hq) as [_ Hclose].
  simpl. rewrite Hclose, Htr. simpl. by rewrite <- app_assoc.
Qed.

(** C3 at its failing input.  The connect hook returns [false]; the client
    sends its handshake-init and, before the grace interval has elapsed, a
    subscription-start.  The handshake-error frame is sent, and after it the
    engine's subscribe is called and a subscription-success frame is sent:
    the start continuation only waits for the handshake value to be
    fulfilled, and [false] fulfils it.  The closure follows. *)
Theorem subscription_succeeds_after_prohibited_handshake :
  trace (run prohibiting_server 8
           [EvMessage init_frame; EvMessage (start_frame "1"); EvSent; EvTimeout] initial) =
  [CallOnConnect (JObj [("token", JStr "secret")]);
   Send (init_fail_frame (JStr "Prohibited connection!"));
   EngineSubscribe (start_params (start_frame "1") (JBool false));
   Send (subscription_success_frame (JStr "1"));
   SetTimeout 10; Close 1011; Terminate].
Proof. by vm_compute. Qed.

(** ** The subscription-start continuation, case by case *)

Lemma promised_params_inv (this : SubscriptionServer) (m : raw_message)
  (initResult value : jsval) :
  promised_params this m initResult value ->
  (onSubscribe this = None /\ value = base_params (message_value m) initResult) \/
  (exists hook, onSubscribe this = Some hook /\
     hook (message_value m) (base_params (message_value m) initResult) = Returns value) \/
  (exists hook, onSubscribe this = Some hook /\
     hook (message_value m) (base_params (message_value m) initResult)
       = ReturnsPromise (Some (Normal value))).
Proof.
  unfold promised_params. destruct (onSubscribe this) as [hook|].
  - intros [H|H]; [right; left|right; right]; by exists hook.
  - intros ->. by left.
Qed.

(** The reads a start continuation makes of its frame. *)
Ltac frame_fields Ht :=
  pose proof (get_property _ _ "query" _ Ht) as Hquery;
  pose proof (get_property _ _ "variables" _ Ht) as Hvariables;
  pose proof (get_property _ _ "operationName" _ Ht) as HoperationName.

(** [unsubscribe] as one step. *)
Lemma unsubscribe_state (this : SubscriptionServer) (handleId : jsval)
  (h : gmap nat pstate) (n : nat) (ex : gset nat) (q : list job)
  (subs : gmap string jsval) (cbs : list jsval) (tm : nat) (tr : list effect) :
  unsubscribe this handleId (State h n ex q subs cbs tm tr) =
    (Normal tt, State h n ex q subs cbs tm (tr ++ unsubscribe_effects this handleId)).
Proof.
  unfold unsubscribe, unsubscribe_effects, mbind, M_bind, emit, modify, when.
  destruct (onUnsubscribe this); simpl; [|done]. by rewrite <- app_assoc.
Qed.

(** As [normalize], with [unsubscribe] left in place. *)
Ltac normalize_folded :=
  cbv beta iota zeta delta
    [mbind M_bind mret M_ret lift modify emit throw try_catch when exec catch_
     new_promise call
     set_heap set_next set_externals set_queue set_connectionSubscriptions set_sendCallbacks
     set_timers set_trace heap next externals queue connectionSubscriptions sendCallbacks
     timers trace enqueue
     run_job selected_handler settled_value run_handler on_fulfilled on_rejected derived
     init_then init_catch init_send sendInitResult
     start_then params_then subscribed_then start_catch end_then
     subscriptions_get subscriptions_set subscriptions_delete
     sendSubscriptionData sendSubscriptionFail sendSubscriptionSuccess
     case_INIT case_SUBSCRIPTION_START case_SUBSCRIPTION_END case_default
     fst snd negb settled_state is_promise];
  cbn [app map].

(** Replay one turn of the event loop with [k] microtasks. *)
Tactic Notation "turn" constr(this) constr(k) constr(fuel) constr(Hfuel)
  "using" tactic3(facts) :=
  erewrite (run_microtasks_enough this k fuel);
  [ | repeat (normalize_folded;
              first [operation | progress ground | rewrite unsubscribe_state | progress facts]);
      normalize_folded; reflexivity
    | reflexivity | exact Hfuel ].

Lemma failure_frame_inv (subId e : jsval) :
  (exists errors, get e "errors" = Normal errors /\ truthy errors = true /\
     failure_frame subId e
       = Some (subscription_fail_frame subId (JObj [("errors", errors)]))) \/
  (exists errors message, get e "errors" = Normal errors /\ truthy errors = false /\
     get e "message" = Normal message /\
     failure_frame subId e = Some (subscription_fail_frame subId (errors_of_message message))) \/
  (exists e', get e "errors" = Thrown e' /\ failure_frame subId e = None).
Proof.
  unfold failure_frame. destruct (get e "errors") as [errors|e'] eqn:He.
  - destruct (truthy errors) eqn:Htruthy; [left; by exists errors|].
    right. left. destruct (get e "message") as [message|] eqn:Hmsg.
    + by exists errors, message.
    + by destruct e.
  - right. right. by exists e'.
Qed.

(** X1.  A subscription-start whose params are an object and whose engine call
    succeeds: a truthy handle under the same id is unsubscribed and removed
    first, the engine receives the params with the delivery callback
    installed, the handle is registered under the id and one
    subscription-success frame is sent. *)
Theorem start_subscribes_and_registers
  (this : SubscriptionServer) (fuel : nat) (m : raw_message) (s : state)
  (initResult value params handle : jsval) :
  message_has_type SUBSCRIPTION_START m = true ->
  promised_params this m initResult value ->
  String.eqb (typeof value) "object" = true -> is_promise value = false ->
  set_property value "callback" (JCallback (message_id m)) = Normal params ->
  immediate_outcome (subscribe this params) = Some (Normal handle) ->
  reachable this s -> handshake_fulfilled s initResult -> quiescent s ->
  (8 <= fuel)%nat ->
  let subId := message_id m in
  trace (step this fuel (EvMessage m) s) =
    trace s ++ subscribe_hook_calls this m initResult
            ++ replaced_effects this s subId
            ++ [EngineSubscribe params; Send (subscription_success_frame subId)] /\
  connectionSubscriptions (step this fuel (EvMessage m) s) =
    <[to_key subId := handle]> (connectionSubscriptions s) /\
  quiescent (step this fuel (EvMessage m) s).
Proof.
  intros Hm Hp Htype Hnp Hset Hsub Hr Hinit Hq Hfuel subId.
  pose proof (proj1 (reachable_gated this s Hr)) as Hn. clear Hr.
  destruct (message_has_type_inv _ _ Hm) as (pm & -> & Hid & Ht). frame_fields Ht.
  destruct s as [h n ex q subs cbs tm tr]. unfold handshake_fulfilled, quiescent in *.
  simpl in Hinit, Hq, Hn. subst q.
  subst subId. unfold replaced_effects, subscribe_hook_calls, registered.
  simpl connectionSubscriptions. simpl message_value in *. simpl trace.
  unfold step, listener, exec. rewrite (onMessage_START _ _ _ Hm). simpl message_value in *.
  apply promised_params_inv in Hp as [[Hhook Hv]|[(hook & Hhook & Hv)|(hook & Hhook & Hv)]];
    simpl message_value in *; unfold base_params in *; rewrite Hhook;
    apply immediate_outcome_inv in Hsub
      as [(v' & Hs & Hv' & [= <-])|[(e' & Hs & [=])|[(v' & Hs & Hv' & [= <-])|(e' & Hs & [=])]]];
    destruct (truthy (default JUndefined (subs !! to_key (message_id (WellFormed pm))))) eqn:Hex.
  all: try subst value.
  all: turn this 8%nat fuel Hfuel
         using (rewrite ?Hquery, ?Hvariables, ?HoperationName, ?Hhook, ?Hv, ?Hex,
                  ?Htype, ?Hset, ?Hs).
  all: project; rewrite <- ?app_assoc, ?insert_delete_eq; done.
Qed.

Lemma start_subscribes_and_registers_witness :
  let this := server_with_handle 7 in
  let s := established_connection this in
  trace (step this 8 (EvMessage (start_frame "1")) s) =
    trace s ++ [EngineSubscribe (start_params (start_frame "1") (JBool true));
                Send (subscription_success_frame (JStr "1"))]
  /\ connectionSubscriptions (step this 8 (EvMessage (start_frame "1")) s) !! "1"
     = Some (JNum 7).
Proof.
  intros this s.
  destruct (start_subscribes_and_registers this 8 (start_frame "1") s (JBool true)
              (base_params (message_value (start_frame "1")) (JBool true))
              (start_params (start_frame "1") (JBool true)) (JNum 7))
    as (Htrace & Hsubs & _).
  - reflexivity.
  - reflexivity.
  - reflexivity.
  - reflexivity.
  - reflexivity.
  - reflexivity.
  - apply reachable_step, reachable_initial.
  - by vm_compute.
  - by vm_compute.
  - lia.
  - split; [exact Htrace|]. rewrite Hsubs. apply lookup_insert_eq.
Defined.

(** X2.  A subscription-start whose engine call fails (the engine's subscribe
    throws, or hands back a rejected promise): nothing is registered, no
    subscription-success frame is sent, and the catch continuation reports
    the reason in one subscription-error frame under the start's id.  A
    reason that is [null] or [undefined] is not reported at all. *)
Theorem start_reports_engine_failure
  (this : SubscriptionServer) (fuel : nat) (m : raw_message) (s : state)
  (initResult value params e : jsval) :
  message_has_type SUBSCRIPTION_START m = true ->
  promised_params this m initResult value ->
  String.eqb (typeof value) "object" = true -> is_promise value = false ->
  set_property value "callback" (JCallback (message_id m)) = Normal params ->
  immediate_outcome (subscribe this params) = Some (Thrown e) ->
  reachable this s -> handshake_fulfilled s initResult -> quiescent s ->
  (8 <= fuel)%nat ->
  let subId := message_id m in
  trace (step this fuel (EvMessage m) s) =
    trace s ++ subscribe_hook_calls this m initResult
            ++ replaced_effects this s subId
            ++ [EngineSubscribe params]
            ++ sends (failure_frame subId e) /\
  connectionSubscriptions (step this fuel (EvMessage m) s) = replaced_registry s subId /\
  quiescent (step this fuel (EvMessage m) s).
Proof.
  intros Hm Hp Htype Hnp Hset Hsub Hr Hinit Hq Hfuel subId.
  pose proof (proj1 (reachable_gated this s Hr)) as Hn. clear Hr.
  destruct (message_has_type_inv _ _ Hm) as (pm & -> & Hid & Ht). frame_fields Ht.
  destruct s as [h n ex q subs cbs tm tr]. unfold handshake_fulfilled, quiescent in *.
  simpl in Hinit, Hq, Hn. subst q.
  subst subId.
  unfold replaced_effects, replaced_registry, subscribe_hook_calls, registered.
  simpl connectionSubscriptions. simpl message_value in *. simpl trace.
  unfold step, listener, exec. rewrite (onMessage_START _ _ _ Hm). simpl message_value in *.
  apply promised_params_inv in Hp as [[Hhook Hv]|[(hook & Hhook & Hv)|(hook & Hhook & Hv)]];
    simpl message_value in *; unfold base_params in *; rewrite Hhook;
    apply immediate_outcome_inv in Hsub
      as [(v' & Hs & Hv' & [=])|[(e' & Hs & [= <-])|[(v' & Hs & Hv' & [=])|(e' & Hs & [= <-])]]];
    destruct (failure_frame_inv (message_id (WellFormed pm)) e)
      as [(errors & He & Htruthy & ->)|[(errors & message & He & Htruthy & Hmsg & ->)
                                       |(e'' & He & ->)]];
    destruct (truthy (default JUndefined (subs !! to_key (message_id (WellFormed pm))))) eqn:Hex.
  all: try subst value.
  all: turn this 8%nat fuel Hfuel
         using (rewrite ?Hquery, ?Hvariables, ?HoperationName, ?Hhook, ?Hv, ?Hex,
                  ?Htype, ?Hset, ?Hs, ?He, ?Htruthy, ?Hmsg).
  all: project; cbn [sends]; rewrite <- ?app_assoc, ?app_nil_r; done.
Qed.

Lemma start_reports_engine_failure_witness :
  let this := server_with_engine (Throws (Error "no such field")) in
  let s := established_connection this in
  trace (step this 8 (EvMessage (start_frame "1")) s) =
    trace s ++ [EngineSubscribe (start_params (start_frame "1") (JBool true));
                Send (subscription_fail_frame (JStr "1")
                        (errors_of_message (JStr "no such field")))]
  /\ connectionSubscriptions (step this 8 (EvMessage (start_frame "1")) s) = ∅.
Proof.
  intros this s.
  destruct (start_reports_engine_failure this 8 (start_frame "1") s (JBool true)
              (base_params (message_value (start_frame "1")) (JBool true))
              (start_params (start_frame "1") (JBool true)) (Error "no such field"))
    as (Htrace & Hsubs & _).
  - reflexivity.
  - reflexivity.
  - reflexivity.
  - reflexivity.
  - reflexivity.
  - reflexivity.
  - apply reachable_step, reachable_initial.
  - by vm_compute.
  - by vm_compute.
  - lia.
  - split; [exact Htrace|]. rewrite Hsubs. by vm_compute.
Defined.

(** X3.  A before-subscribe hook that resolves to [null]: [null] passes the
    inline check ([typeof null] is ["object"]), installing the callback
    throws, and the catch continuation reports that TypeError in a single
    subscription-error frame.  The engine's subscribe is never called. *)
Theorem start_with_null_params_reports_type_error
  (this : SubscriptionServer) (fuel : nat) (m : raw_message) (s : state)
  (initResult value e : jsval) :
  message_has_type SUBSCRIPTION_START m = true ->
  promised_params this m initResult value ->
  String.eqb (typeof value) "object" = true ->
  set_property value "callback" (JCallback (message_id m)) = Thrown e ->
  reachable this s -> handshake_fulfilled s initResult -> quiescent s ->
  (8 <= fuel)%nat ->
  let subId := message_id m in
  value = JNull /\
  trace (step this fuel (EvMessage m) s) =
    trace s ++ subscribe_hook_calls this m initResult
            ++ replaced_effects this s subId
            ++ sends (failure_frame subId e) /\
  connectionSubscriptions (step this fuel (EvMessage m) s) = replaced_registry s subId /\
  quiescent (step this fuel (EvMessage m) s).
Proof.
  intros Hm Hp Htype Hset Hr Hinit Hq Hfuel subId.
  assert (value = JNull) as -> by (by destruct value).
  split; [done|].
  pose proof (proj1 (reachable_gated this s Hr)) as Hn. clear Hr.
  destruct (message_has_type_inv _ _ Hm) as (pm & -> & Hid & Ht). frame_fields Ht.
  destruct s as [h n ex q subs cbs tm tr]. unfold handshake_fulfilled, quiescent in *.
  simpl in Hinit, Hq, Hn. subst q.
  subst subId.
  unfold replaced_effects, replaced_registry, subscribe_hook_calls, registered.
  simpl connectionSubscriptions. simpl message_value in *. simpl trace.
  unfold step, listener, exec. rewrite (onMessage_START _ _ _ Hm). simpl message_value in *.
  apply promised_params_inv in Hp as [[Hhook Hv]|[(hook & Hhook & Hv)|(hook & Hhook & Hv)]];
    [discriminate Hv| |];
    simpl message_value in *; unfold base_params in *; rewrite Hhook;
    destruct (failure_frame_inv (message_id (WellFormed pm)) e)
      as [(errors & He & Htruthy & ->)|[(errors & message & He & Htruthy & Hmsg & ->)
                                       |(e'' & He & ->)]];
    destruct (truthy (default JUndefined (subs !! to_key (message_id (WellFormed pm))))) eqn:Hex.
  all: turn this 8%nat fuel Hfuel
         using (rewrite ?Hquery, ?Hvariables, ?HoperationName, ?Hhook, ?Hv, ?Hex,
                  ?Htype, ?Hset, ?He, ?Htruthy, ?Hmsg).
  all: project; cbn [sends]; rewrite <- ?app_assoc, ?app_nil_r; done.
Qed.

Lemma start_with_null_params_reports_type_error_witness :
  let this := server_with_subscribe (Returns JNull) in
  let s := established_connection this in
  exists text,
    trace (step this 8 (EvMessage (start_frame "1")) s) =
      trace s
      ++ [CallOnSubscribe (message_value (start_frame "1"))
            (base_params (message_value (start_frame "1")) (JBool true));
          Send (subscription_fail_frame (JStr "1") (errors_of_message (JStr text)))].
Proof.
  intros this s. eexists.
  destruct (start_with_null_params_reports_type_error this 8 (start_frame "1") s (JBool true)
              JNull (TypeError "Cannot set properties of undefined or null"))
    as (_ & Htrace & _).
  - reflexivity.
  - by left.
  - reflexivity.
  - reflexivity.
  - apply reachable_step, reachable_initial.
  - by vm_compute.
  - by vm_compute.
  - lia.
  - exact Htrace.
Defined.

(** X4.  A before-subscribe hook that throws: the exception leaves the start
    continuation before the duplicate check and before any [then] is
    chained, so the turn consists of the hook call alone.  No
    subscription-error frame is sent, the engine is not called, and a
    subscription already registered under the id stays as it is. *)
Theorem start_hook_exception_is_not_reported
  (this : SubscriptionServer) (hook : jsval -> jsval -> call_result)
  (fuel : nat) (m : raw_message) (s : state) (initResult e : jsval) :
  message_has_type SUBSCRIPTION_START m = true ->
  onSubscribe this = Some hook ->
  hook (message_value m) (base_params (message_value m) initResult) = Throws e ->
  reachable this s -> handshake_fulfilled s initResult -> quiescent s ->
  (8 <= fuel)%nat ->
  trace (step this fuel (EvMessage m) s) =
    trace s ++ [CallOnSubscribe (message_value m) (base_params (message_value m) initResult)] /\
  connectionSubscriptions (step this fuel (EvMessage m) s) = connectionSubscriptions s /\
  quiescent (step this fuel (EvMessage m) s).
Proof.
  intros Hm Hhook Hv Hr Hinit Hq Hfuel.
  pose proof (proj1 (reachable_gated this s Hr)) as Hn. clear Hr.
  destruct (message_has_type_inv _ _ Hm) as (pm & -> & Hid & Ht). frame_fields Ht.
  destruct s as [h n ex q subs cbs tm tr]. unfold handshake_fulfilled, quiescent in *.
  simpl in Hinit, Hq, Hn. subst q.
  simpl connectionSubscriptions. simpl message_value in *. simpl trace.
  unfold step, listener, exec. rewrite (onMessage_START _ _ _ Hm). simpl message_value in *.
  unfold base_params in *.
  turn this 8%nat fuel Hfuel
    using (rewrite ?Hquery, ?Hvariables, ?HoperationName, ?Hhook, ?Hv).
  project; rewrite <- ?app_assoc; done.
Qed.

Lemma start_hook_exception_is_not_reported_witness :
  let this := server_with_subscribe (Throws (Error "denied")) in
  let s := established_connection this in
  trace (step this 8 (EvMessage (start_frame "1")) s) =
    trace s ++ [CallOnSubscribe (message_value (start_frame "1"))
                  (base_params (message_value (start_frame "1")) (JBool true))].
Proof.
  intros this s.
  destruct (start_hook_exception_is_not_reported this (fun _ _ => Throws (Error "denied")) 8
              (start_frame "1") s (JBool true) (Error "denied")) as (Htrace & _).
  - reflexivity.
  - reflexivity.
  - reflexivity.
  - apply reachable_step, reachable_initial.
  - by vm_compute.
  - by vm_compute.
  - lia.
  - exact Htrace.
Defined.

(** X5.  A before-subscribe hook whose promise is rejected: the rejection runs
    down the chain to the catch continuation and is reported in one
    subscription-error frame; the engine is not called.  The duplicate check
    has run by then: a truthy handle under the id is gone. *)
Theorem start_reports_hook_rejection
  (this : SubscriptionServer) (hook : jsval -> jsval -> call_result)
  (fuel : nat) (m : raw_message) (s : state) (initResult e : jsval) :
  message_has_type SUBSCRIPTION_START m = true ->
  onSubscribe this = Some hook ->
  hook (message_value m) (base_params (message_value m) initResult)
    = ReturnsPromise (Some (Thrown e)) ->
  reachable this s -> handshake_fulfilled s initResult -> quiescent s ->
  (8 <= fuel)%nat ->
  let subId := message_id m in
  trace (step this fuel (EvMessage m) s) =
    trace s ++ [CallOnSubscribe (message_value m) (base_params (message_value m) initResult)]
            ++ replaced_effects this s subId
            ++ sends (failure_frame subId e) /\
  connectionSubscriptions (step this fuel (EvMessage m) s) = replaced_registry s subId /\
  quiescent (step this fuel (EvMessage m) s).
Proof.
  intros Hm Hhook Hv Hr Hinit Hq Hfuel subId.
  pose proof (proj1 (reachable_gated this s Hr)) as Hn. clear Hr.
  destruct (message_has_type_inv _ _ Hm) as (pm & -> & Hid & Ht). frame_fields Ht.
  destruct s as [h n ex q subs cbs tm tr]. unfold handshake_fulfilled, quiescent in *.
  simpl in Hinit, Hq, Hn. subst q.
  subst subId. unfold replaced_effects, replaced_registry, registered.
  simpl connectionSubscriptions. simpl message_value in *. simpl trace.
  unfold step, listener, exec. rewrite (onMessage_START _ _ _ Hm). simpl message_value in *.
  unfold base_params in *.
  destruct (failure_frame_inv (message_id (WellFormed pm)) e)
    as [(errors & He & Htruthy & ->)|[(errors & message & He & Htruthy & Hmsg & ->)
                                     |(e'' & He & ->)]];
    destruct (truthy (default JUndefined (subs !! to_key (message_id (WellFormed pm))))) eqn:Hex.
  all: turn this 8%nat fuel Hfuel
         using (rewrite ?Hquery, ?Hvariables, ?HoperationName, ?Hhook, ?Hv, ?Hex,
                  ?He, ?Htruthy, ?Hmsg).
  all: project; cbn [sends]; rewrite <- ?app_assoc, ?app_nil_r; done.
Qed.

Lemma start_reports_hook_rejection_witness :
  let this := server_with_subscribe (ReturnsPromise (Some (Thrown (Error "denied")))) in
  let s := established_connection this in
  trace (step this 8 (EvMessage (start_frame "1")) s) =
    trace s ++ [CallOnSubscribe (message_value (start_frame "1"))
                  (base_params (message_value (start_frame "1")) (JBool true));
                Send (subscription_fail_frame (JStr "1") (errors_of_message (JStr "denied")))].
Proof.
  intros this s.
  destruct (start_reports_hook_rejection this
              (fun _ _ => ReturnsPromise (Some (Thrown (Error "denied")))) 8
              (start_frame "1") s (JBool true) (Error "denied")) as (Htrace & _).
  - reflexivity.
  - reflexivity.
  - reflexivity.
  - apply reachable_step, reachable_initial.
  - by vm_compute.
  - by vm_compute.
  - lia.
  - exact Htrace.
Defined.
(** ** The subscription-end continuation *)

(** X6.  A subscription-end on an established connection is never answered.  If
    a handle is stored under its id, whatever its value, the engine's
    unsubscribe is called with it (followed by the after-unsubscribe hook)
    and the entry is removed; an id without an entry is ignored without a
    trace. *)
Theorem end_unsubscribes_without_reply
  (this : SubscriptionServer) (fuel : nat) (m : raw_message) (s : state)
  (initResult : jsval) :
  message_has_type SUBSCRIPTION_END m = true ->
  reachable this s -> handshake_fulfilled s initResult -> quiescent s ->
  (1 <= fuel)%nat ->
  let subId := message_id m in
  trace (step this fuel (EvMessage m) s) = trace s ++ ended_effects this s subId /\
  connectionSubscriptions (step this fuel (EvMessage m) s) = ended_registry s subId /\
  (connectionSubscriptions s !! to_key subId = None ->
   no_effect s (step this fuel (EvMessage m) s)) /\
  quiescent (step this fuel (EvMessage m) s).
Proof.
  intros Hm Hr Hinit Hq Hfuel subId.
  pose proof (proj1 (reachable_gated this s Hr)) as Hn. clear Hr.
  destruct s as [h n ex q subs cbs tm tr]. unfold handshake_fulfilled, quiescent in *.
  simpl in Hinit, Hq, Hn. subst q.
  subst subId. unfold ended_effects, ended_registry, registered, no_effect.
  simpl connectionSubscriptions. simpl trace. simpl sendCallbacks. simpl timers.
  unfold step, listener, exec. rewrite (onMessage_END _ _ _ Hm).
  destruct (String.eqb (typeof (default JUndefined (subs !! to_key (message_id m))))
              "undefined") eqn:Hty.
  all: turn this 1%nat fuel Hfuel using (rewrite ?Hty).
  all: project; rewrite ?app_nil_r; (split; [done|]); (split; [done|]); (split; [|done]).
  - done.
  - intros Hnone. rewrite Hnone in Hty. discriminate Hty.
Qed.

Lemma end_unsubscribes_without_reply_witness :
  let this := server_with_handle 7 in
  let s := nonzero_handle_connection in
  trace (step this 8 (EvMessage (end_frame "1")) s) = trace s ++ [EngineUnsubscribe (JNum 7)]
  /\ connectionSubscriptions (step this 8 (EvMessage (end_frame "1")) s) = ∅
  /\ no_effect s (step this 8 (EvMessage (end_frame "2")) s).
Proof.
  intros this s.
  destruct (end_unsubscribes_without_reply this 8 (end_frame "1") s (JBool true))
    as (Htrace & Hsubs & _).
  - reflexivity.
  - apply reachable_run, reachable_initial.
  - by vm_compute.
  - by vm_compute.
  - lia.
  - destruct (end_unsubscribes_without_reply this 8 (end_frame "2") s (JBool true))
      as (_ & _ & Hnone & _).
    + reflexivity.
    + apply reachable_run, reachable_initial.
    + by vm_compute.
    + by vm_compute.
    + lia.
    + split; [exact Htrace|]. split; [rewrite Hsubs; by vm_compute|].
      apply Hnone. by vm_compute.
Defined.
(** ** Asynchronous completion and the order of continuations *)

Lemma step_eq (this : SubscriptionServer) (k fuel : nat) (ev : event) (s s' : state) :
  run_microtasks this k (listener this ev s) = s' -> queue s' = [] -> (k <= fuel)%nat ->
  step this fuel ev s = s'.
Proof. intros H Hq Hle. unfold step. by apply (run_microtasks_enough this k). Qed.

(** Replay the innermost turn of a run whose state is explicit. *)
Tactic Notation "advance" constr(this) constr(k) constr(fuel) constr(Hfuel)
  "using" tactic3(facts) :=
  lazymatch goal with
  | |- context [step this fuel ?ev (State ?h ?n ?ex ?q ?subs ?cbs ?tm ?tr)] =>
      erewrite (step_eq this k fuel ev (State h n ex q subs cbs tm tr));
      [ | unfold listener, exec;
          repeat (normalize_folded;
                  first [operation | progress ground | rewrite unsubscribe_state
                        | progress facts]);
          normalize_folded; reflexivity
        | reflexivity | exact Hfuel ]
  end.

(** X7.  A connect hook that hands back a pending promise: the handshake-init
    turn consists of the hook call alone and leaves the handshake pending;
    the response is sent in the turn in which the hook's promise settles,
    and is the response owed to that settlement. *)
Theorem handshake_waits_for_connect_hook
  (this : SubscriptionServer) (hook : jsval -> call_result) (fuel : nat)
  (m : raw_message) (s : state) (o : completion jsval) (frame : jsval) :
  message_has_type INIT m = true ->
  onConnect this = Some hook ->
  hook (property (message_value m) "payload") = ReturnsPromise None ->
  plain o = true -> init_response o = Some frame ->
  reachable this s -> untouched_handshake s -> quiescent s ->
  (8 <= fuel)%nat ->
  let s1 := step this fuel (EvMessage m) s in
  let p := S (S (next s)) in
  trace s1 = trace s ++ [CallOnConnect (property (message_value m) "payload")] /\
  handshake_pending s1 /\ quiescent s1 /\ p ∈ externals s1 /\
  trace (step this fuel (EvSettle p o) s1) = trace s1 ++ [Send frame] /\
  heap (step this fuel (EvSettle p o) s1) !! initPromise = Some (settled_state o) /\
  quiescent (step this fuel (EvSettle p o) s1).
Proof.
  intros Hm Hhook Hr Hplain Hframe Hreach Hinit Hq Hfuel s1 p.
  pose proof (proj1 (reachable_gated this s Hreach)) as Hn. clear Hreach.
  pose proof (message_payload m Hm) as Hpayload.
  destruct s as [h n ex q subs cbs tm tr]. unfold untouched_handshake, quiescent in *.
  simpl in Hinit, Hq, Hn. subst q. subst s1 p. simpl next. simpl trace.
  assert (forall ex', bool_decide (S (S n) ∈ ({[S (S n)]} ∪ ex' : gset nat)) = true) as Hin.
  { intros ex'. apply bool_decide_eq_true_2. set_solver. }
  advance this 8%nat fuel Hfuel
    using (rewrite ?(onMessage_INIT _ _ _ Hm), ?Hpayload, ?Hhook, ?Hr).
  project.
  split; [done|]. split; [unfold handshake_pending; project; eexists _, _; lookup_solve|].
  split; [done|].
  split; [set_solver|].
  apply init_response_inv in Hframe
    as [(v & -> & Hv & ->)|[(v & -> & Hv & ->)|(e & text & -> & He & ->)]];
    simpl in Hplain; try apply negb_true_iff in Hplain.
  all: advance this 8%nat fuel Hfuel using (rewrite ?Hin, ?Hv, ?He).
  all: project; (split; [done|]); (split; [lookup_solve|done]).
Qed.

Lemma handshake_waits_for_connect_hook_witness :
  let this := server_with_slow_connect in
  let s1 := step this 8 (EvMessage init_frame) initial in
  trace s1 = [CallOnConnect (JObj [("token", JStr "secret")])] /\
  trace (step this 8 (EvSettle 3 (Normal (JBool true))) s1)
    = trace s1 ++ [Send init_success_frame].
Proof.
  intros this s1.
  destruct (handshake_waits_for_connect_hook this (fun _ => ReturnsPromise None) 8
              init_frame initial (Normal (JBool true)) init_success_frame)
    as (Htrace & _ & _ & _ & Hsettled & _).
  - reflexivity.
  - reflexivity.
  - reflexivity.
  - reflexivity.
  - reflexivity.
  - apply reachable_initial.
  - reflexivity.
  - reflexivity.
  - lia.
  - split; [exact Htrace|exact Hsettled].
Defined.

Lemma start_params_eq (m : raw_message) (initResult : jsval) :
  set_property (base_params (message_value m) initResult) "callback" (JCallback (message_id m))
  = Normal (start_params m initResult).
Proof. done. Qed.

(** X8.  Continuations run in the order in which their frames arrived, and a
    subscription is only registered when the engine's subscribe has
    completed.  So when a start and then an end for the same id arrive while
    the connect hook is still pending, the end continuation runs before the
    start has registered anything: it finds no entry and does nothing, and
    the subscription the start then creates stays registered. *)
Theorem end_queued_behind_start_is_lost
  (this : SubscriptionServer) (hook : jsval -> call_result) (fuel : nat)
  (init start stop : raw_message) (s : state) (initResult frame handle : jsval) :
  message_has_type INIT init = true ->
  message_has_type SUBSCRIPTION_START start = true ->
  message_has_type SUBSCRIPTION_END stop = true ->
  message_id stop = message_id start ->
  onConnect this = Some hook ->
  hook (property (message_value init) "payload") = ReturnsPromise None ->
  onSubscribe this = None ->
  is_promise initResult = false ->
  init_response (Normal initResult) = Some frame ->
  immediate_outcome (subscribe this (start_params start initResult)) = Some (Normal handle) ->
  reachable this s -> untouched_handshake s -> quiescent s ->
  connectionSubscriptions s !! to_key (message_id start) = None ->
  (16 <= fuel)%nat ->
  let p := S (S (next s)) in
  let s' := run this fuel [EvMessage init; EvMessage start; EvMessage stop;
                           EvSettle p (Normal initResult)] s in
  trace s' =
    trace s ++ [CallOnConnect (property (message_value init) "payload");
                EngineSubscribe (start_params start initResult);
                Send frame;
                Send (subscription_success_frame (message_id start))] /\
  connectionSubscriptions s' = <[to_key (message_id start) := handle]> (connectionSubscriptions s) /\
  quiescent s'.
Proof.
  intros Hinit Hstart Hstop Hid Hhook Hr Hsub0 Hnp Hframe Hsub Hreach Hun Hq Hnone Hfuel p s'.
  pose proof (proj1 (reachable_gated this s Hreach)) as Hn. clear Hreach.
  pose proof (message_payload init Hinit) as Hpayload.
  destruct (message_has_type_inv _ _ Hstart) as (pm & -> & Hpmid & Ht). frame_fields Ht.
  destruct s as [h n ex q subs cbs tm tr]. unfold untouched_handshake, quiescent in *.
  simpl in Hun, Hq, Hn. cbn [connectionSubscriptions] in Hnone. subst q. subst s' p. simpl next. simpl trace.
  simpl connectionSubscriptions. unfold run.
  assert (forall ex', bool_decide (S (S n) ∈ ({[S (S n)]} ∪ ex' : gset nat)) = true) as Hin.
  { intros ex'. apply bool_decide_eq_true_2. set_solver. }
  pose proof (start_params_eq (WellFormed pm) initResult) as Hsp.
  simpl message_value in *. unfold base_params in Hsp.
  advance this 16%nat fuel Hfuel
    using (rewrite ?(onMessage_INIT _ _ _ Hinit), ?Hpayload, ?Hhook, ?Hr).
  advance this 16%nat fuel Hfuel using (rewrite ?(onMessage_START _ _ _ Hstart)).
  advance this 16%nat fuel Hfuel using (rewrite ?(onMessage_END _ _ _ Hstop)).
  rewrite Hid.
  apply init_response_inv in Hframe
    as [(v & [= <-] & Hv & ->)|[(v & [= <-] & Hv & ->)|(e & text & [=] & _)]];
    apply immediate_outcome_inv in Hsub
      as [(v' & Hs & Hv' & [= <-])|[(e' & Hs & [=])|[(v' & Hs & Hv' & [= <-])|(e' & Hs & [=])]]].
  all: advance this 16%nat fuel Hfuel
         using (rewrite ?Hin, ?Hv, ?Hquery, ?Hvariables, ?HoperationName, ?Hsub0, ?Hnone, ?Hs, ?Hsp;
                cbn [message_value default from_option id truthy typeof String.eqb Ascii.eqb Bool.eqb]).
  all: project; rewrite <- ?app_assoc; done.
Qed.

Lemma end_queued_behind_start_is_lost_witness :
  let this := {| subscribe := fun _ => Returns (JNum 7);
                 onSubscribe := None;
                 onUnsubscribe := false;
                 onConnect := Some (fun _ => ReturnsPromise None);
                 onDisconnect := false |} in
  let s' := run this 16 [EvMessage init_frame; EvMessage (start_frame "1");
                         EvMessage (end_frame "1"); EvSettle 3 (Normal (JBool true))] initial in
  connectionSubscriptions s' !! "1" = Some (JNum 7) /\
  unsubscribed_handles (trace s') = [].
Proof.
  intros this s'.
  destruct (end_queued_behind_start_is_lost this (fun _ => ReturnsPromise None) 16
              init_frame (start_frame "1") (end_frame "1") initial (JBool true)
              init_success_frame (JNum 7))
    as (Htrace & Hsubs & _).
  - reflexivity.
  - reflexivity.
  - reflexivity.
  - reflexivity.
  - reflexivity.
  - reflexivity.
  - reflexivity.
  - reflexivity.
  - reflexivity.
  - reflexivity.
  - apply reachable_initial.
  - reflexivity.
  - reflexivity.
  - reflexivity.
  - lia.
  - split.
    + transitivity (<["1" := JNum 7]> (connectionSubscriptions initial) !! "1").
      * exact (f_equal (fun registry => registry !! "1") Hsubs).
      * apply lookup_insert_eq.
    + exact (f_equal unsubscribed_handles Htrace).
Defined.

(** X9.  The handshake is decided by the first handshake-init.  While the
    connect hook's promise for the first handshake-init is pending, a second
    handshake-init runs the hook again, but whatever that second call
    answers (even at once) is ignored and nothing is sent; when the first
    promise settles, both handshake-inits are answered with the response
    owed to that first settlement. *)
Theorem first_handshake_init_decides
  (this : SubscriptionServer) (hook : jsval -> call_result) (fuel : nat)
  (first second : raw_message) (s : state) (o later : completion jsval) (frame : jsval) :
  message_has_type INIT first = true ->
  message_has_type INIT second = true ->
  onConnect this = Some hook ->
  hook (property (message_value first) "payload") = ReturnsPromise None ->
  immediate_outcome (hook (property (message_value second) "payload")) = Some later ->
  plain o = true -> init_response o = Some frame ->
  reachable this s -> untouched_handshake s -> quiescent s ->
  (16 <= fuel)%nat ->
  let p := S (S (next s)) in
  let s2 := run this fuel [EvMessage first; EvMessage second] s in
  let s3 := step this fuel (EvSettle p o) s2 in
  trace s2 = trace s ++ [CallOnConnect (property (message_value first) "payload");
                         CallOnConnect (property (message_value second) "payload")] /\
  handshake_pending s2 /\
  trace s3 = trace s2 ++ [Send frame; Send frame] /\
  heap s3 !! initPromise = Some (settled_state o) /\
  quiescent s3.
Proof.
  intros Hfirst Hsecond Hhook Hr Hlater Hplain Hframe Hreach Hun Hq Hfuel p s2 s3.
  pose proof (proj1 (reachable_gated this s Hreach)) as Hn. clear Hreach.
  pose proof (message_payload first Hfirst) as Hpayload1.
  pose proof (message_payload second Hsecond) as Hpayload2.
  destruct s as [h n ex q subs cbs tm tr]. unfold untouched_handshake, quiescent in *.
  simpl in Hun, Hq, Hn. subst q. subst s3 s2 p. simpl next. simpl trace. unfold run.
  assert (forall ex', bool_decide (S (S n) ∈ ({[S (S n)]} ∪ ex' : gset nat)) = true) as Hin.
  { intros ex'. apply bool_decide_eq_true_2. set_solver. }
  advance this 16%nat fuel Hfuel
    using (rewrite ?(onMessage_INIT _ _ _ Hfirst), ?Hpayload1, ?Hhook, ?Hr).
  apply immediate_outcome_inv in Hlater
    as [(v' & Hl & Hv' & _)|[(e' & Hl & _)|[(v' & Hl & Hv' & _)|(e' & Hl & _)]]].
  all: advance this 16%nat fuel Hfuel
         using (rewrite ?(onMessage_INIT _ _ _ Hsecond), ?Hpayload2, ?Hhook, ?Hl).
  all: project; rewrite <- ?app_assoc.
  all: split; [done|]; split; [unfold handshake_pending; project; eexists _, _; lookup_solve|].
  all: apply init_response_inv in Hframe
         as [(v & -> & Hv & ->)|[(v & -> & Hv & ->)|(e & text & -> & He & ->)]];
       simpl in Hplain; try apply negb_true_iff in Hplain.
  all: advance this 16%nat fuel Hfuel using (rewrite ?Hin, ?Hv, ?He).
  all: project; rewrite <- ?app_assoc; (split; [done|]); (split; [lookup_solve|done]).
Qed.

Lemma first_handshake_init_decides_witness :
  let this := server_with_uneven_connect in
  let s2 := run this 16 [EvMessage init_frame; EvMessage bare_init_frame] initial in
  trace (step this 16 (EvSettle 3 (Normal (JBool true))) s2)
  = trace s2 ++ [Send init_success_frame; Send init_success_frame].
Proof.
  intros this s2.
  destruct (first_handshake_init_decides this
              (fun payload => match payload with
                              | JObj _ => ReturnsPromise None
                              | _ => Returns (JBool false)
                              end) 16
              init_frame bare_init_frame initial (Normal (JBool true))
              (Normal (JBool false)) init_success_frame)
    as (_ & _ & Htrace & _).
  - reflexivity.
  - reflexivity.
  - reflexivity.
  - reflexivity.
  - reflexivity.
  - reflexivity.
  - reflexivity.
  - apply reachable_initial.
  - reflexivity.
  - reflexivity.
  - lia.
  - exact Htrace.
Defined.
(** ** The 'close' listener *)

#[global] Instance same_externals_reflexive : Reflexive same_externals.
Proof. by intros s. Qed.

#[global] Instance same_externals_transitive : Transitive same_externals.
Proof. intros s1 s2 s3 H1 H2. unfold same_externals in *. congruence. Qed.

Lemma onClose_externals (this : SubscriptionServer) : respects same_externals (onClose this).
Proof.
  unfold onClose, subscriptions_keys.
  apply respects_bind; [apply _|by intros s|intros keys].
  apply respects_forEach; [apply _|apply _|]. intros subId.
  unfold subscriptions_get, unsubscribe, subscriptions_delete.
  respects_structure; by intros s.
Qed.

(** The whole turn of a 'close' event on a drained connection, as one
    equation. *)
Lemma close_state (this : SubscriptionServer) (fuel : nat)
  (h : gmap nat pstate) (n : nat) (ex : gset nat)
  (subs : gmap string jsval) (cbs : list jsval) (tm : nat) (tr : list effect) :
  step this fuel EvClose (State h n ex [] subs cbs tm tr) =
    State h n ex [] ∅ cbs tm
      (tr ++ flat_map (fun kv => unsubscribe_effects this kv.2) (map_to_list subs)
          ++ disconnect_calls this).
Proof.
  set (s := State h n ex [] subs cbs tm tr).
  destruct (onClose_spec this s) as (s' & Hrun & Htr & Hsubs & Hh & Hn & Hq & Hcbs & Htm).
  pose proof (onClose_externals this s) as Hex. rewrite Hrun in Hex.
  unfold same_externals in Hex. simpl in Hex.
  destruct s' as [h' n' ex' q' subs' cbs' tm' tr']. simpl in *. subst.
  unfold step, listener, exec, mbind, M_bind. rewrite Hrun.
  unfold disconnect_calls, when, emit, modify.
  destruct (onDisconnect this); cbn [mret M_ret]; rewrite run_microtasks_nil by done;
    simpl; by rewrite <- ?app_assoc, ?app_nil_r.
Qed.

(** X10.  Closing a drained connection: every registered handle is unsubscribed,
    then the disconnect hook runs, once, also when nothing was registered.
    No frame is sent.  The promise heap is not touched: continuations that
    wait for a hook or for the engine stay in place. *)
Theorem close_tears_down_then_disconnects
  (this : SubscriptionServer) (fuel : nat) (s : state) :
  quiescent s ->
  trace (step this fuel EvClose s) =
    trace s ++ teardown_effects this s ++ disconnect_calls this /\
  connectionSubscriptions (step this fuel EvClose s) = ∅ /\
  heap (step this fuel EvClose s) = heap s /\
  externals (step this fuel EvClose s) = externals s /\
  quiescent (step this fuel EvClose s).
Proof.
  intros Hq. destruct s as [h n ex q subs cbs tm tr]. unfold quiescent in Hq.
  simpl in Hq. subst q. rewrite close_state. done.
Qed.

Lemma close_tears_down_then_disconnects_witness :
  let this := server_with_connect (Returns (JBool true)) in
  trace (step this 4 EvClose (established_connection this)) =
    trace (established_connection this) ++ [CallOnDisconnect].
Proof.
  intros this.
  destruct (close_tears_down_then_disconnects this 4 (established_connection this))
    as (Htrace & _).
  - by vm_compute.
  - exact Htrace.
Defined.
(** ** A subscribe call in flight when the connection closes *)

(** X11.  A subscription-start whose engine call is still pending when the
    connection closes: the close listener unsubscribes what is registered at
    that moment and empties the registry, but the continuation that waits
    for the engine stays in place.  When the engine completes, the handle is
    registered on the closed connection and a subscription-success frame is
    sent; no unsubscribe call for that handle is made. *)
Theorem close_does_not_cancel_pending_subscribe
  (this : SubscriptionServer) (fuel : nat) (m : raw_message) (s : state)
  (initResult handle : jsval) :
  message_has_type SUBSCRIPTION_START m = true ->
  onSubscribe this = None ->
  subscribe this (start_params m initResult) = ReturnsPromise None ->
  is_promise handle = false ->
  reachable this s -> handshake_fulfilled s initResult -> quiescent s ->
  (8 <= fuel)%nat ->
  let subId := message_id m in
  let p := (5 + next s)%nat in
  let s1 := step this fuel (EvMessage m) s in
  let s2 := step this fuel EvClose s1 in
  let s3 := step this fuel (EvSettle p (Normal handle)) s2 in
  trace s1 = trace s ++ replaced_effects this s subId
                     ++ [EngineSubscribe (start_params m initResult)] /\
  p ∈ externals s1 /\
  connectionSubscriptions s2 = ∅ /\
  trace s3 = trace s2 ++ [Send (subscription_success_frame subId)] /\
  connectionSubscriptions s3 = {[ to_key subId := handle ]} /\
  quiescent s3.
Proof.
  intros Hm Hhook Hs Hnp Hr Hinit Hq Hfuel subId p s1 s2 s3.
  pose proof (proj1 (reachable_gated this s Hr)) as Hn. clear Hr.
  destruct (message_has_type_inv _ _ Hm) as (pm & -> & Hid & Ht). frame_fields Ht.
  pose proof (start_params_eq (WellFormed pm) initResult) as Hsp.
  destruct s as [h n ex q subs cbs tm tr]. unfold handshake_fulfilled, quiescent in *.
  simpl in Hinit, Hq, Hn. subst q. subst s3 s2 s1 p subId.
  unfold replaced_effects, registered.
  cbn [connectionSubscriptions next trace Nat.add].
  simpl message_value in *. unfold base_params in Hsp.
  assert (forall ex', bool_decide (S (S (S (S (S n)))) ∈ ({[S (S (S (S (S n))))]} ∪ ex' : gset nat))
                      = true) as Hin.
  { intros ex'. apply bool_decide_eq_true_2. set_solver. }
  destruct (truthy (default JUndefined (subs !! to_key (message_id (WellFormed pm))))) eqn:Hex.
  all: advance this 8%nat fuel Hfuel
         using (rewrite ?(onMessage_START _ _ _ Hm), ?Hquery, ?Hvariables, ?HoperationName,
                  ?Hhook, ?Hex, ?Hsp, ?Hs;
                cbn [message_value typeof String.eqb Ascii.eqb Bool.eqb]).
  all: rewrite close_state.
  all: advance this 8%nat fuel Hfuel using (rewrite ?Hin).
  all: project; rewrite <- ?app_assoc, ?insert_empty.
  all: split; [reflexivity|]; split; [set_solver|]; split; [reflexivity|].
  all: split; [reflexivity|]; split; reflexivity.
Qed.

Lemma close_does_not_cancel_pending_subscribe_witness :
  let this := server_with_slow_engine in
  let s := established_connection this in
  let s' := run this 8 [EvMessage (start_frame "1"); EvClose;
                        EvSettle (5 + next s) (Normal (JNum 4))] s in
  connectionSubscriptions s' = {[ "1" := JNum 4 ]} /\
  unsubscribed_handles (trace s') = [].
Proof.
  intros this s s'.
  destruct (close_does_not_cancel_pending_subscribe this 8 (start_frame "1") s
              (JBool true) (JNum 4))
    as (Htrace1 & _ & _ & Htrace3 & Hsubs & _).
  - reflexivity.
  - reflexivity.
  - reflexivity.
  - reflexivity.
  - apply reachable_step, reachable_initial.
  - by vm_compute.
  - by vm_compute.
  - lia.
  - split; [exact Hsubs|]. by vm_compute.
Defined.
(** ** When the server closes a connection *)


Lemma count_cons {A : Type} (f : A -> bool) (x : A) (l : list A) :
  count f (x :: l) = ((if f x then 1 else 0) + count f l)%nat.
Proof. unfold count. simpl. by destruct (f x). Qed.



#[global] Instance balancing_reflexive : Reflexive balancing.
Proof. by intros s H. Qed.

#[global] Instance balancing_transitive : Transitive balancing.
Proof. intros s1 s2 s3 H1 H2 H. apply H2, H1, H. Qed.



Section Closing.

Context (this : SubscriptionServer).














End Closing.


(** ** A settled promise stays settled *)

#[global] Instance keeps_settled_reflexive (p : nat) (o : completion jsval) :
  Reflexive (keeps_settled p o).
Proof. by intros s H. Qed.

#[global] Instance keeps_settled_transitive (p : nat) (o : completion jsval) :
  Transitive (keeps_settled p o).
Proof. intros s1 s2 s3 H1 H2 H. apply H2, H1, H. Qed.

Section Final.

Context (this : SubscriptionServer) (p : nat) (o : completion jsval).

Lemma final_same_heap (s s' : state) :
  heap s' = heap s -> next s' = next s -> keeps_settled p o s s'.
Proof. intros Hh Hn. unfold keeps_settled. by rewrite Hh, Hn. Qed.

(** Overwriting a promise that is pending, or allocating a fresh one. *)
Lemma final_insert (p' : nat) (st : pstate) (s : state) :
  (exists b rs, heap s !! p' = Some (Pending b rs)) \/ p' = next s ->
  keeps_settled p o s (set_heap (insert p' st) s).
Proof.
  intros Hp' [Hn Hp]. split; [done|]. simpl. rewrite lookup_insert_ne; [done|].
  intros ->. destruct Hp' as [(b & rs & Hp')|Hp']; [|lia].
  rewrite Hp in Hp'. by destruct o.
Qed.

Lemma final_settle (p' : nat) (o' : completion jsval) (s : state) :
  keeps_settled p o s (settle p' o' s).
Proof.
  unfold settle. destruct (heap s !! p') as [[b rs| |]|] eqn:Hp'; try reflexivity.
  transitivity (set_heap (insert p' (settled_state o')) s).
  - apply final_insert. left. by exists b, rs.
  - by apply final_same_heap.
Qed.

Lemma final_resolve_with (p' : nat) (v : jsval) (s : state) :
  keeps_settled p o s (resolve_with p' v s).
Proof.
  destruct v; try apply final_settle.
  unfold resolve_with. destruct (heap s !! p') as [[b rs| |]|] eqn:Hp'; try reflexivity.
  transitivity (set_heap (insert p' (Pending true rs)) s).
  - apply final_insert. left. by exists b, rs.
  - by apply final_same_heap.
Qed.

Lemma final_resolve_function (p' : nat) (v : jsval) (s : state) :
  keeps_settled p o s (resolve_function p' v s).
Proof.
  unfold resolve_function.
  destruct (heap s !! p') as [[[] ?| |]|]; try reflexivity. apply final_resolve_with.
Qed.

Lemma final_reject_function (p' : nat) (e : jsval) (s : state) :
  keeps_settled p o s (reject_function p' e s).
Proof.
  unfold reject_function.
  destruct (heap s !! p') as [[[] ?| |]|]; try reflexivity. apply final_settle.
Qed.

Lemma final_alloc (st : pstate) (s : state) :
  keeps_settled p o s (set_next (S (next s)) (set_heap (insert (next s) st) s)).
Proof.
  intros H. destruct (final_insert (next s) st s (or_intror eq_refl) H) as [Hn Hp].
  split; [simpl in *; lia|exact Hp].
Qed.

Lemma final_new_promise (st : pstate) : respects (keeps_settled p o) (new_promise st).
Proof. intros s. apply final_alloc. Qed.

Lemma final_then (p' : nat) (f g : option handler) : respects (keeps_settled p o) (then_ p' f g).
Proof.
  intros s H. unfold then_. simpl.
  pose proof (final_alloc (Pending false []) s H) as H1.
  destruct (heap s !! p') as [[b rs| |]|] eqn:Hp'; try done.
  revert H1. apply final_insert. left. simpl.
  destruct (decide (p' = next s)) as [->|Hne].
  - rewrite lookup_insert_eq. by eexists _, _.
  - rewrite lookup_insert_ne by done. by eexists _, _.
Qed.

Lemma final_Promise_resolve (v : jsval) : respects (keeps_settled p o) (Promise_resolve v).
Proof. destruct v; try apply final_new_promise; by intros s. Qed.

Lemma final_call (r : call_result) : respects (keeps_settled p o) (call r).
Proof.
  destruct r as [v|e|[o'|]]; simpl; try (by intros s).
  - apply respects_bind; [apply _|apply final_new_promise|intros ?; apply respects_ret; apply _].
  - apply respects_bind; [apply _|apply final_new_promise|intros ?].
    apply respects_bind; [apply _| |intros ?; apply respects_ret; apply _].
    apply respects_modify. intros s. by apply final_same_heap.
Qed.

(** A step that leaves the promise heap alone. *)
Lemma final_modify (f : state -> state) :
  (forall s, heap (f s) = heap s) -> (forall s, next (f s) = next s) ->
  respects (keeps_settled p o) (modify f).
Proof. intros Hh Hn. apply respects_modify. intros s. by apply final_same_heap. Qed.

Ltac final_step :=
  first
    [ apply final_call
    | apply final_Promise_resolve
    | apply final_new_promise
    | apply final_then
    | apply final_modify; [by intros ?|by intros ?]
    | apply respects_modify; intros ?;
      first [apply final_resolve_function | apply final_reject_function
            | apply final_resolve_with | apply final_settle] ].

Lemma final_run_handler (h : handler) (arg : jsval) :
  respects (keeps_settled p o) (run_handler this h arg).
Proof.
  destruct h; simpl;
    unfold init_then, init_catch, init_send, sendInitResult, start_then, params_then,
      subscribed_then, start_catch, end_then, sendSubscriptionFail, sendSubscriptionSuccess,
      subscriptions_get, subscriptions_set, subscriptions_delete, unsubscribe, emit, catch_;
    respects_structure; try final_step; by intros ?.
Qed.

Lemma final_run_job (j : job) (s : state) : keeps_settled p o s (run_job this j s).
Proof.
  destruct j as [r o'|target thenable]; simpl.
  - destruct (selected_handler r o') as [h|]; [|apply final_settle].
    pose proof (final_run_handler h (settled_value o') s) as Hh.
    destruct (run_handler this h (settled_value o') s) as [[v|e] s']; simpl in Hh;
      (etransitivity; [exact Hh|]);
      [apply final_resolve_function|apply final_reject_function].
  - apply final_then.
Qed.

Lemma final_run_microtasks (fuel : nat) (s : state) :
  keeps_settled p o s (run_microtasks this fuel s).
Proof.
  revert s. induction fuel as [|fuel IH]; intros s; [reflexivity|].
  simpl. destruct (queue s) as [|j rest]; [reflexivity|].
  transitivity (set_queue rest s); [by apply final_same_heap|].
  etransitivity; [apply final_run_job|apply IH].
Qed.

Lemma final_exec (m : M unit) :
  respects (keeps_settled p o) m -> forall s, keeps_settled p o s (exec m s).
Proof.
  intros Hm. apply (respects_exec (keeps_settled p o) _ Hm).
  intros e s. by apply final_same_heap.
Qed.

Lemma final_listener (ev : event) (s : state) : keeps_settled p o s (listener this ev s).
Proof.
  destruct ev as [message| |p' o'|subId error result| |]; simpl.
  - apply final_exec.
    unfold onMessage, case_INIT, case_SUBSCRIPTION_START, case_SUBSCRIPTION_END, case_default,
      sendSubscriptionFail, emit, catch_.
    respects_structure; try final_step.
  - apply final_exec. unfold onClose, subscriptions_keys, subscriptions_get,
      subscriptions_delete, unsubscribe, emit.
    respects_structure; try final_step; try (by intros ?).
    apply respects_forEach; try apply _. intros subId.
    respects_structure; try final_step; by intros ?.
  - destruct (bool_decide _); [|reflexivity].
    destruct o'; [apply final_resolve_function|apply final_reject_function].
  - apply final_exec. unfold callback, sendSubscriptionData, emit.
    respects_structure; final_step.
  - destruct (sendCallbacks s) as [|result rest]; [reflexivity|].
    transitivity (set_sendCallbacks rest s); [by apply final_same_heap|].
    apply final_exec. unfold sendInitResult_sent, emit. respects_structure; final_step.
  - destruct (timers s) as [|n]; [reflexivity|].
    transitivity (set_timers n s); [by apply final_same_heap|].
    apply final_exec. unfold sendInitResult_timeout, emit. respects_structure; final_step.
Qed.

Lemma final_run (fuel : nat) (evs : list event) (s : state) :
  keeps_settled p o s (run this fuel evs s).
Proof.
  revert s. induction evs as [|ev evs IH]; intros s; [reflexivity|].
  simpl. etransitivity; [|apply IH].
  unfold step. etransitivity; [apply final_listener|apply final_run_microtasks].
Qed.

End Final.

(** X13.  Once the handshake value of a connection is settled, nothing that
    happens afterwards changes it: not a further handshake-init whose
    connect hook answers differently, not a late settlement of a hook's
    promise, not a close. *)
Theorem handshake_outcome_is_final
  (this : SubscriptionServer) (fuel : nat) (evs : list event) (s : state)
  (o : completion jsval) :
  reachable this s ->
  heap s !! initPromise = Some (settled_state o) ->
  heap (run this fuel evs s) !! initPromise = Some (settled_state o).
Proof.
  intros Hr Ho. pose proof (proj1 (reachable_gated this s Hr)) as Hn.
  by destruct (final_run this initPromise o fuel evs s (conj Hn Ho)).
Qed.

Lemma handshake_outcome_is_final_witness :
  let this := server_with_connect (Throws (Error "forbidden")) in
  heap (run this 8 [EvMessage init_frame; EvMessage (start_frame "1"); EvSent; EvClose]
          rejected_connection) !! initPromise
  = Some (Rejected (Error "forbidden")).
Proof.
  intros this.
  apply (handshake_outcome_is_final this 8
           [EvMessage init_frame; EvMessage (start_frame "1"); EvSent; EvClose]
           rejected_connection (Thrown (Error "forbidden"))).
  - apply reachable_step, reachable_initial.
  - by vm_compute.
Defined.
(** ** The connection handler: sub-protocol check and keep-alive *)

Lemma append_prefix (x after : string) :
  substring 0 (String.length x) (x +:+ after) = x.
Proof.
  induction x as [|c x IH]; simpl.
  - by destruct after.
  - by rewrite IH.
Qed.

Lemma index_cons (name : string) (c : Ascii.ascii) (s : string) :
  String.index 0 name (String c s) =
    if String.prefix name (String c s) then Some 0%nat
    else match String.index 0 name s with
         | Some i => Some (S i)
         | None => None
         end.
Proof. done. Qed.

Lemma index_contained (name before after : string) :
  is_Some (String.index 0 name (before +:+ name +:+ after)).
Proof.
  induction before as [|c before IH].
  - change ("" +:+ name +:+ after) with (name +:+ after).
    pose proof (proj2 (prefix_correct name (name +:+ after)) (append_prefix name after)) as Hp.
    destruct (name +:+ after) as [|c rest] eqn:Hs.
    + destruct name; [by eexists|discriminate Hs].
    + rewrite index_cons, Hp. by eexists.
  - change (String c before +:+ name +:+ after) with (String c (before +:+ name +:+ after)).
    rewrite index_cons. destruct (String.prefix name _); [by eexists|].
    destruct IH as [i ->]. by eexists.
Qed.

Lemma prefix_split (x s : string) :
  substring 0 (String.length x) s = x -> exists after, s = x +:+ after.
Proof.
  revert s. induction x as [|c x IH]; intros s; simpl.
  - intros _. by exists s.
  - destruct s as [|c' s]; [discriminate|]. intros [= -> H].
    destruct (IH s H) as [after ->]. by exists after.
Qed.

Lemma substring_split (i : nat) (x s : string) :
  substring i (String.length x) s = x -> contains s x.
Proof.
  revert s. induction i as [|i IH]; intros s H.
  - destruct (prefix_split x s H) as [after ->]. by exists "", after.
  - destruct s as [|c s]; simpl in H.
    + subst x. by exists "", "".
    + destruct (IH s H) as (before & after & ->). by exists (String c before), after.
Qed.

Lemma supported_iff_contains (name protocol : string) :
  unsupported name (Some protocol) = false <-> contains protocol name.
Proof.
  unfold unsupported, indexOf. split.
  - destruct (String.index 0 name protocol) as [i|] eqn:Hi; [|done].
    intros _. eapply substring_split, index_correct1, Hi.
  - intros (before & after & ->).
    destruct (index_contained name before after) as [i ->].
    apply Z.eqb_neq. lia.
Qed.

Lemma accepted_socket (name : string) (keepAlive : jsval) (protocol : string) :
  contains protocol name ->
  connection_handler name keepAlive (Some protocol) =
    Socket true (if truthy keepAlive then Some keepAlive else None) initial.
Proof.
  intros Hc. unfold connection_handler. by rewrite (proj2 (supported_iff_contains _ _) Hc).
Qed.

(** X14.  The connection handler accepts a socket exactly when its negotiated
    sub-protocol string contains the protocol name somewhere: equality is
    not required.  An accepted socket gets both listeners, a keep-alive
    interval when [keepAlive] is truthy, and the state of a fresh
    connection. *)
Theorem protocol_accepted_by_containment
  (GRAPHQL_SUBSCRIPTIONS : string) (keepAlive : jsval) (protocol : string) :
  (unsupported GRAPHQL_SUBSCRIPTIONS (Some protocol) = false
   <-> contains protocol GRAPHQL_SUBSCRIPTIONS) /\
  (contains protocol GRAPHQL_SUBSCRIPTIONS ->
   connection_handler GRAPHQL_SUBSCRIPTIONS keepAlive (Some protocol) =
     Socket true (if truthy keepAlive then Some keepAlive else None) initial).
Proof. split; [apply supported_iff_contains|apply accepted_socket]. Qed.

Lemma protocol_accepted_by_containment_witness :
  connection_handler "graphql-subscriptions" JUndefined (Some "x-graphql-subscriptions-v2")
  = Socket true None initial.
Proof.
  apply (protocol_accepted_by_containment "graphql-subscriptions" JUndefined
           "x-graphql-subscriptions-v2").
  by exists "x-", "-v2".
Defined.

Section Sockets.

Context (GRAPHQL_SUBSCRIPTIONS : string) (keepAlive : jsval) (this : SubscriptionServer).

Lemma refused_socket_step (fuel : nat) (ev : socket_event) (tr : list effect) :
  is_publication ev = false ->
  socket_step this fuel ev (Socket false None (set_trace tr blank))
  = Socket false None (set_trace tr blank).
Proof.
  intros Hev. destruct ev as [[message| |p o|subId error result| |]|observed]; try done.
  - simpl. unfold step. simpl. by rewrite run_microtasks_nil.
  - simpl. unfold step. simpl. by rewrite run_microtasks_nil.
  - simpl. unfold step. simpl. by rewrite run_microtasks_nil.
Qed.

(** X15.  A socket without a sub-protocol, or with one that does not contain the
    protocol name, is closed with code 1002 and terminated at once.  The
    handler registers nothing on it: whatever arrives afterwards (frames,
    the close event, timers) is ignored, no frame is ever answered, no
    keep-alive is sent and the disconnect hook is not called.  (No
    subscription exists on such a socket, so the engine has no callback of
    it to invoke.) *)
Theorem unsupported_protocol_is_refused
  (protocol : option string) (fuel : nat) (evs : list socket_event) :
  unsupported GRAPHQL_SUBSCRIPTIONS protocol = true ->
  forallb (fun ev => negb (is_publication ev)) evs = true ->
  let k := connection_handler GRAPHQL_SUBSCRIPTIONS keepAlive protocol in
  trace (connection k) = [Close 1002; Terminate] /\
  listening k = false /\ keepAliveTimer k = None /\
  socket_run this fuel evs k = k.
Proof.
  intros Hp Hevs k. subst k. unfold connection_handler. rewrite Hp.
  split; [done|]. split; [done|]. split; [done|].
  change (exec (emit (Close 1002);; emit Terminate) blank)
    with (set_trace [Close 1002; Terminate] blank).
  induction evs as [|ev evs IH]; [done|].
  simpl in Hevs. apply andb_true_iff in Hevs as [Hev Hevs]. apply negb_true_iff in Hev.
  simpl. rewrite refused_socket_step by done. by apply IH.
Qed.

Lemma ticks_without_interval (fuel : nat) (observed : list readyState)
  (listens : bool) (s : state) :
  socket_run this fuel (map Interval observed) (Socket listens None s) = Socket listens None s.
Proof. induction observed as [|rs observed IH]; [done|exact IH]. Qed.

Lemma keepAlive_ticks (period : jsval) (fuel : nat) (observed : list readyState)
  (listens : bool) (s : state) :
  socket_run this fuel (map Interval observed) (Socket listens (Some period) s) =
    Socket listens (if forallb is_OPEN observed then Some period else None)
      (set_trace (trace s ++ replicate (leading_open observed) (Send keepalive_frame)) s).
Proof.
  revert s. induction observed as [|rs observed IH]; intros s.
  - simpl. rewrite app_nil_r. by destruct s.
  - cbn [map socket_run socket_step].
    destruct rs; unfold keepAlive_tick; cbn [keepAliveTimer is_OPEN listening connection];
      try (rewrite ticks_without_interval; simpl; rewrite app_nil_r; by destruct s).
    rewrite IH. simpl. rewrite <- app_assoc. by destruct s.
Qed.

(** X16.  The keep-alive interval of an accepted socket.  With a falsy [keepAlive]
    (unset, or 0) no interval exists and no tick ever sends anything.
    Otherwise every tick that finds the socket open sends one keep-alive
    frame and changes nothing else, whatever the state of the handshake; the
    first tick that finds it not open cancels the interval, and no later
    tick sends anything. *)
Theorem keepalive_runs_until_socket_not_open
  (protocol : string) (fuel : nat) (observed : list readyState) :
  contains protocol GRAPHQL_SUBSCRIPTIONS ->
  let k := connection_handler GRAPHQL_SUBSCRIPTIONS keepAlive (Some protocol) in
  let k' := socket_run this fuel (map Interval observed) k in
  connection k' =
    set_trace (replicate (if truthy keepAlive then leading_open observed else 0%nat)
                 (Send keepalive_frame)) initial /\
  (is_Some (keepAliveTimer k') <-> truthy keepAlive = true /\ forallb is_OPEN observed = true).
Proof.
  intros Hc k k'. subst k' k.
  rewrite (accepted_socket GRAPHQL_SUBSCRIPTIONS keepAlive protocol Hc).
  destruct (truthy keepAlive).
  - rewrite keepAlive_ticks. simpl. split; [done|].
    destruct (forallb is_OPEN observed).
    + split; [done|by eexists].
    + split; [by intros [? [=]]|by intros [_ [=]]].
  - rewrite ticks_without_interval. simpl. split; [done|]. split; [by intros [? [=]]|by intros [[=] _]].
Qed.

End Sockets.

Lemma unsupported_protocol_is_refused_witness :
  let k := connection_handler "graphql-subscriptions" (JNum 1000) (Some "soap") in
  socket_run plain_server 8
    [Loop (EvMessage init_frame); Interval OPEN; Loop EvClose] k = k.
Proof.
  intros k.
  apply (unsupported_protocol_is_refused "graphql-subscriptions" (JNum 1000) plain_server
           (Some "soap") 8 [Loop (EvMessage init_frame); Interval OPEN; Loop EvClose]).
  - by vm_compute.
  - reflexivity.
Defined.

Lemma keepalive_runs_until_socket_not_open_witness :
  let k := connection_handler "graphql-subscriptions" (JNum 1000)
             (Some "graphql-subscriptions") in
  trace (connection (socket_run plain_server 8
                       (map Interval [OPEN; OPEN; CLOSING; OPEN]) k))
  = [Send keepalive_frame; Send keepalive_frame].
Proof.
  intros k.
  destruct (keepalive_runs_until_socket_not_open "graphql-subscriptions" (JNum 1000)
              plain_server "graphql-subscriptions" 8 [OPEN; OPEN; CLOSING; OPEN])
    as [Hconnection _].
  - by exists "", "".
  - exact (f_equal trace Hconnection).
Defined.
(** ** Exceptions that escape a listener *)



Section Returns.












End Returns.


Section Escapes.

Context (this : SubscriptionServer).




















End Escapes.


(** ** Nothing of a subscription happens before the handshake is fulfilled *)

#[global] Instance guarding_reflexive : Reflexive guarding.
Proof. by intros s H. Qed.

#[global] Instance guarding_transitive : Transitive guarding.
Proof. intros s1 s2 s3 H1 H2 H. apply H2, H1, H. Qed.

Lemma dormant_guarded (s : state) : dormant s -> guarded s.
Proof. intros Hd. unfold guarded. destruct (established s); [apply Hd|done]. Qed.

Lemma established_inv (s : state) :
  established s = true -> exists v, heap s !! initPromise = Some (Fulfilled v).
Proof.
  unfold established. destruct (heap s !! initPromise) as [[| |]|]; try done. by eexists.
Qed.

(** A step that never changes a settled promise keeps the invariant if it
    keeps a dormant connection guarded. *)
Lemma guarding_intro (s s' : state) :
  (forall v, keeps_settled initPromise (Normal v) s s') ->
  (dormant s -> guarded s') ->
  guarding s s'.
Proof.
  intros Hfinal Hd Hg. unfold guarded in Hg.
  destruct (established s) eqn:He; [|by apply Hd].
  destruct (established_inv s He) as [v Hv].
  destruct (Hfinal v (conj Hg Hv)) as [Hn' Hv'].
  unfold guarded, established. simpl in Hv'. by rewrite Hv'.
Qed.

Lemma job_preliminary_reactions (gate : bool) (rs : list reaction) (o : completion jsval) :
  forallb (if gate then reaction_gate else reaction_preliminary) rs = true ->
  (gate = true -> exists e, o = Thrown e) ->
  forallb job_preliminary (map (fun r => ReactionJob r o) rs) = true.
Proof.
  intros Hrs Ho. induction rs as [|r rs IH]; [done|]. simpl in *.
  apply andb_true_iff in Hrs as [Hr Hrs]. rewrite (IH Hrs), andb_true_r.
  destruct gate.
  - destruct (Ho eq_refl) as [e ->]. exact Hr.
  - unfold reaction_preliminary in Hr. apply andb_true_iff in Hr as [Hf Hj]. by destruct o.
Qed.

Section Safety.

Context (this : SubscriptionServer).

(** *** Dormancy under the elementary changes of state *)

Lemma dormant_enqueue (js : list job) (s : state) :
  forallb job_preliminary js = true -> dormant s -> dormant (enqueue js s).
Proof.
  intros Hjs (Hn & Hsubs & Htr & Hq & Hh). repeat split; try done.
  simpl. by rewrite forallb_app, Hq, Hjs.
Qed.

Lemma dormant_insert (p : nat) (st : pstate) (s : state) :
  pstate_dormant p st = true -> dormant s -> dormant (set_heap (insert p st) s).
Proof.
  intros Hst (Hn & Hsubs & Htr & Hq & Hh). repeat split; try done.
  simpl. by apply map_Forall_insert_2.
Qed.

Lemma dormant_alloc (st : pstate) (s : state) :
  pstate_dormant (next s) st = true -> dormant s ->
  dormant (set_next (S (next s)) (set_heap (insert (next s) st) s)).
Proof.
  intros Hst Hd. destruct (dormant_insert (next s) st s Hst Hd) as (Hn & ? & ? & ? & ?).
  repeat split; try done. simpl in *. lia.
Qed.

Lemma dormant_emit (e : effect) (s : state) :
  no_activity e = true -> dormant s -> dormant (set_trace (trace s ++ [e]) s).
Proof.
  intros He (Hn & Hsubs & Htr & Hq & Hh). repeat split; try done.
  simpl. by rewrite forallb_app, Htr; simpl; rewrite He.
Qed.

Lemma dormant_reactions (p : nat) (b : bool) (rs : list reaction) (s : state) :
  dormant s -> heap s !! p = Some (Pending b rs) ->
  forallb (if bool_decide (p = initPromise) then reaction_gate else reaction_preliminary) rs
  = true.
Proof. intros (_ & _ & _ & _ & Hh) Hp. exact (Hh p _ Hp). Qed.

(** *** The promise operations *)

Lemma guarded_settle (p : nat) (o : completion jsval) (s : state) :
  dormant s -> guarded (settle p o s).
Proof.
  intros Hd. unfold settle.
  destruct (heap s !! p) as [[b rs| |]|] eqn:Hp; try (by apply dormant_guarded).
  pose proof (dormant_reactions p b rs s Hd Hp) as Hrs.
  destruct (decide (p = initPromise)) as [->|Hne].
  - destruct o as [v|e].
    + unfold guarded, established. simpl. rewrite lookup_insert_eq. apply Hd.
    + apply dormant_guarded, dormant_enqueue; [|by apply dormant_insert].
      apply (job_preliminary_reactions true); [|by eexists].
      by rewrite bool_decide_eq_true_2 in Hrs.
  - apply dormant_guarded, dormant_enqueue; [|apply dormant_insert; [by destruct o|done]].
    apply (job_preliminary_reactions false); [|done].
    by rewrite bool_decide_eq_false_2 in Hrs.
Qed.

Lemma guarding_settle (p : nat) (o : completion jsval) (s : state) :
  guarding s (settle p o s).
Proof. apply guarding_intro; [intros v; apply final_settle|apply guarded_settle]. Qed.

Lemma guarding_resolve_with (p : nat) (v : jsval) (s : state) :
  guarding s (resolve_with p v s).
Proof.
  destruct v as [| |b|n|str|items|fields|q|subId]; try apply guarding_settle.
  apply guarding_intro; [intros v; apply final_resolve_with|]. intros Hd.
  unfold resolve_with.
  destruct (heap s !! p) as [[b rs| |]|] eqn:Hp; try (by apply dormant_guarded).
  apply dormant_guarded, dormant_enqueue; [done|]. apply dormant_insert; [|done].
  exact (dormant_reactions p b rs s Hd Hp).
Qed.

Lemma guarding_resolve_function (p : nat) (v : jsval) (s : state) :
  guarding s (resolve_function p v s).
Proof.
  unfold resolve_function.
  destruct (heap s !! p) as [[[] ?| |]|]; try reflexivity. apply guarding_resolve_with.
Qed.

Lemma guarding_reject_function (p : nat) (e : jsval) (s : state) :
  guarding s (reject_function p e s).
Proof.
  unfold reject_function.
  destruct (heap s !! p) as [[[] ?| |]|]; try reflexivity. apply guarding_settle.
Qed.

Lemma guarding_new_promise (st : pstate) :
  (forall p, pstate_dormant p st = true) -> respects guarding (new_promise st).
Proof.
  intros Hst s. apply guarding_intro; [intros v; apply final_new_promise|].
  intros Hd. by apply dormant_guarded, dormant_alloc.
Qed.

(** A reaction may wait on the handshake value if it does nothing of a
    subscription on rejection; anywhere else it must be preliminary. *)
Lemma guarding_then (p : nat) (f g : option handler) :
  from_option handler_preliminary true g = true ->
  p = initPromise \/ from_option handler_preliminary true f = true ->
  respects guarding (then_ p f g).
Proof.
  intros Hg Hf s. apply guarding_intro; [intros v; apply final_then|]. intros Hd.
  pose proof (proj1 Hd) as Hn.
  unfold then_. simpl.
  pose proof (dormant_alloc (Pending false []) s eq_refl Hd) as Hd1.
  destruct (heap s !! p) as [[b rs| |]|] eqn:Hp.
  - apply dormant_guarded, dormant_insert; [|done]. simpl.
    rewrite forallb_app, (dormant_reactions p b rs s Hd Hp). simpl.
    rewrite andb_true_r. case_bool_decide as Hcase; [exact Hg|].
    destruct Hf as [->|Hf]; [done|]. unfold reaction_preliminary. simpl. by rewrite Hf, Hg.
  - destruct Hf as [->|Hf].
    + unfold guarded, established, enqueue. simpl.
      rewrite lookup_insert_ne by (unfold initPromise in *; lia). rewrite Hp.
      simpl in Hd1. apply Hd1.
    + apply dormant_guarded, dormant_enqueue; [|done]. simpl. by rewrite Hf.
  - apply dormant_guarded, dormant_enqueue; [|done]. simpl. by rewrite Hg.
  - by apply dormant_guarded.
Qed.

Lemma guarding_Promise_resolve (v : jsval) : respects guarding (Promise_resolve v).
Proof. destruct v; try (by apply guarding_new_promise); by intros s. Qed.

Lemma guarding_same (f : state -> state) :
  (forall s, heap (f s) = heap s) -> (forall s, next (f s) = next s) ->
  (forall s, queue (f s) = queue s) -> (forall s, trace (f s) = trace s) ->
  (forall s, connectionSubscriptions (f s) = connectionSubscriptions s) ->
  respects guarding (modify f).
Proof.
  intros Hh Hn Hq Htr Hsubs. apply respects_modify. intros s.
  unfold guarding, guarded, established, dormant. by rewrite Hh, Hn, Hq, Htr, Hsubs.
Qed.

Lemma guarding_call (r : call_result) : respects guarding (call r).
Proof.
  destruct r as [v|e|[o|]]; simpl; try (by intros s).
  - apply respects_bind; [apply _| |intros ?; apply respects_ret; apply _].
    apply guarding_new_promise. by destruct o.
  - apply respects_bind; [apply _|by apply guarding_new_promise|intros ?].
    apply respects_bind; [apply _| |intros ?; apply respects_ret; apply _].
    by apply guarding_same.
Qed.

Lemma guarding_emit (e : effect) : no_activity e = true -> respects guarding (emit e).
Proof.
  intros He s. apply guarding_intro.
  - intros v. by apply final_same_heap.
  - intros Hd. by apply dormant_guarded, dormant_emit.
Qed.

Ltac guarding_primitive :=
  first
    [ by apply guarding_emit
    | apply guarding_call
    | apply guarding_Promise_resolve
    | apply guarding_new_promise; by intros ?
    | apply guarding_then; [reflexivity|first [by left|by right]]
    | apply guarding_same; by intros ?
    | apply respects_modify; intros ?;
      first [apply guarding_resolve_function | apply guarding_reject_function
            | apply guarding_resolve_with | apply guarding_settle] ].

(** *** Continuations and listeners *)

Lemma guarding_run_handler (h : handler) (arg : jsval) :
  handler_preliminary h = true -> respects guarding (run_handler this h arg).
Proof.
  destruct h; try done; intros _; simpl;
    unfold init_then, init_catch, init_send, sendInitResult;
    respects_structure; guarding_primitive.
Qed.

Lemma guarded_run_job (j : job) (s : state) :
  job_preliminary j = true -> guarded s -> guarded (run_job this j s).
Proof.
  destruct j as [r o|target thenable]; simpl; intros Hj Hg.
  - destruct (selected_handler r o) as [h|]; [|by apply guarding_settle].
    pose proof (guarding_run_handler h (settled_value o) Hj s Hg) as Hh.
    destruct (run_handler this h (settled_value o) s) as [[v|e] s']; simpl in Hh;
      [by apply guarding_resolve_function|by apply guarding_reject_function].
  - revert Hg. apply (guarding_then thenable); [done|by right].
Qed.

Lemma established_guarded (s s' : state) :
  (forall v, keeps_settled initPromise (Normal v) s s') ->
  established s = true -> guarded s -> guarded s'.
Proof.
  intros Hfinal He Hg. unfold guarded in Hg. rewrite He in Hg.
  destruct (established_inv s He) as [v Hv].
  destruct (Hfinal v (conj Hg Hv)) as [Hn' Hv'].
  unfold guarded, established. simpl in Hv'. by rewrite Hv'.
Qed.

Lemma guarded_run_microtasks (fuel : nat) (s : state) :
  guarded s -> guarded (run_microtasks this fuel s).
Proof.
  intros Hg. destruct (established s) eqn:He.
  { revert Hg. apply established_guarded; [|done]. intros v. apply final_run_microtasks. }
  clear He. revert s Hg. induction fuel as [|fuel IH]; intros s Hg; [done|].
  simpl. destruct (queue s) as [|j rest] eqn:Hq; [done|].
  destruct (established s) eqn:He.
  { assert (guarded (run_microtasks this (S fuel) s)) as H.
    { revert Hg. apply established_guarded; [|done]. intros v. apply final_run_microtasks. }
    simpl in H. by rewrite Hq in H. }
  apply IH, guarded_run_job.
  - unfold guarded in Hg. rewrite He in Hg. destruct Hg as (_ & _ & _ & Hjs & _).
    rewrite Hq in Hjs. simpl in Hjs. by apply andb_true_iff in Hjs as [? _].
  - revert Hg. unfold guarded, established, dormant. simpl. rewrite Hq. simpl.
    destruct (heap s !! initPromise) as [[| |]|]; try done;
      intros (?&?&?&[_ ?]%andb_true_iff&?); done.
Qed.

Lemma guarding_exec (m : M unit) : respects guarding m -> forall s, guarding s (exec m s).
Proof.
  intros Hm. apply (respects_exec guarding _ Hm).
  intros e s. by apply (guarding_emit (Uncaught e)).
Qed.

Lemma guarding_onMessage (m : raw_message) : respects guarding (onMessage this m).
Proof.
  unfold onMessage, case_INIT, case_SUBSCRIPTION_START, case_SUBSCRIPTION_END, case_default,
    sendSubscriptionFail, catch_.
  respects_structure; guarding_primitive.
Qed.

(** On a dormant connection the close listener finds nothing to unsubscribe. *)
Lemma onClose_dormant (s : state) :
  connectionSubscriptions s = ∅ -> onClose this s = (Normal tt, s).
Proof.
  intros Hsubs. unfold onClose, subscriptions_keys, mbind, M_bind.
  by rewrite Hsubs, map_to_list_empty.
Qed.

Lemma guarded_listener (ev : event) (s : state) : guarded s -> guarded (listener this ev s).
Proof.
  intros Hg. destruct (established s) eqn:He.
  { revert Hg. apply established_guarded; [|done]. intros v. apply final_listener. }
  revert Hg. destruct ev as [message| |p o|subId error result| |]; simpl.
  - apply guarding_exec, guarding_onMessage.
  - intros Hg. pose proof Hg as Hd. unfold guarded in Hd. rewrite He in Hd.
    unfold exec, mbind, M_bind. rewrite (onClose_dormant s) by apply Hd.
    unfold when. destruct (onDisconnect this); [|done].
    revert Hg. by apply (guarding_emit CallOnDisconnect).
  - destruct (bool_decide _); [|done].
    destruct o; [apply guarding_resolve_function|apply guarding_reject_function].
  - apply guarding_exec. unfold callback, sendSubscriptionData.
    respects_structure; guarding_primitive.
  - destruct (sendCallbacks s) as [|result rest]; [done|].
    intros Hg. apply guarding_exec.
    + unfold sendInitResult_sent. respects_structure; guarding_primitive.
    + revert Hg. unfold guarded, established, dormant. by simpl.
  - destruct (timers s) as [|n]; [done|].
    intros Hg. apply guarding_exec.
    + unfold sendInitResult_timeout. respects_structure; guarding_primitive.
    + revert Hg. unfold guarded, established, dormant. by simpl.
Qed.

Lemma reachable_guarded (s : state) : reachable this s -> guarded s.
Proof.
  induction 1 as [|fuel ev s _ IH].
  - unfold guarded. simpl. repeat split; try done.
    + unfold initPromise. simpl. lia.
    + intros p st. unfold initial. simpl. intros Hp.
      destruct (decide (p = initPromise)) as [->|Hne].
      * rewrite lookup_singleton_eq in Hp. by injection Hp as <-.
      * by rewrite lookup_singleton_ne in Hp.
  - by apply guarded_run_microtasks, guarded_listener.
Qed.

End Safety.

(** X18.  Whatever frames, closes, settlements and publications a connection has
    seen, in whatever order and however far its microtask queue has been
    drained: as long as its handshake value is not fulfilled (still pending,
    or rejected), the registry is empty and neither the engine nor the
    subscribe and unsubscribe hooks have been called. *)
Theorem no_subscription_before_handshake (this : SubscriptionServer) (s : state) :
  reachable this s -> established s = false ->
  connectionSubscriptions s = ∅ /\
  count is_subscription_activity (trace s) = 0%nat.
Proof.
  intros Hr He. pose proof (reachable_guarded this s Hr) as Hg.
  unfold guarded in Hg. rewrite He in Hg. destruct Hg as (_ & Hsubs & Htr & _).
  split; [exact Hsubs|]. clear -Htr.
  induction (trace s) as [|e t IH]; [done|]. simpl in Htr.
  apply andb_true_iff in Htr as [He Ht]. rewrite count_cons, (IH Ht).
  unfold no_activity in He. apply negb_true_iff in He. by rewrite He.
Qed.

Lemma no_subscription_before_handshake_witness :
  let s := run server_with_slow_connect 8
             [EvMessage (start_frame "1"); EvMessage init_frame; EvMessage (end_frame "1");
              EvMessage (start_frame "2"); EvClose] initial in
  connectionSubscriptions s = ∅ /\ count is_subscription_activity (trace s) = 0%nat.
Proof.
  intros s. apply (no_subscription_before_handshake server_with_slow_connect s).
  - apply reachable_run, reachable_initial.
  - by vm_compute.
Defined.
(** ** Instances of the general lemmas on handshake rejection and on late
    hook results *)

Lemma rejection_reported_then_closed_witness :
  trace (run (server_with_connect (Throws (Error "forbidden"))) 8
           [EvMessage init_frame; EvSent; EvTimeout] initial) =
  [CallOnConnect (JObj [("token", JStr "secret")]);
   Send (init_fail_frame (JStr "forbidden")); SetTimeout 10; Close 1011; Terminate].
Proof.
  apply (rejection_reported_then_closed (server_with_connect (Throws (Error "forbidden"))) 8
           init_frame (Thrown (Error "forbidden")) (JStr "forbidden")).
  - reflexivity.
  - reflexivity.
  - reflexivity.
  - lia.
Defined.

Lemma invalid_params_reported_twice_later_witness :
  let this := server_with_subscribe (ReturnsPromise None) in
  let s := established_connection this in
  let s1 := step this 8 (EvMessage (start_frame "1")) s in
  let p := S (S (next s)) in
  trace (step this 8 (EvSettle p (Normal (JStr "params"))) s1) =
    trace s1 ++ [Send (invalid_params_frame (JStr "1")); Send (invalid_params_frame (JStr "1"))].
Proof.
  intros this s s1 p.
  destruct (invalid_params_reported_twice_later this (fun _ _ => ReturnsPromise None) 8
              (start_frame "1") s (JBool true) (JStr "params"))
    as (_ & _ & Htrace & _).
  - reflexivity.
  - reflexivity.
  - reflexivity.
  - reflexivity.
  - apply reachable_step, reachable_initial.
  - by vm_compute.
  - by vm_compute.
  - lia.
  - exact Htrace.
Defined.
